(** * wTrie: a prefix tree over wide characters (wtrie.h)

    A shallow embedding of the pointer structure of [wtrie.h] and of the
    operations working on it.  Nodes live in a store addressed by
    locations; a C pointer is an optional location ([None] is [NULL]).
    Every operation is a computation over the memory: it returns a value
    and a new memory, faults (a [NULL] or dangling pointer is dereferenced,
    a string is read past its terminator) or exhausts the bound put on its
    loops and recursive calls.

    The first part gives the memory and the operations, as the source has
    them, and the vocabulary of the statements; the second part proves
    what the operations do, first in general and then on the scenarios of
    the specification.

    Two helpers of [wsnippets.h] are embedded beside the trie, as functions
    of what they read: the comparator [alpha_strcmp_r] and the reader
    [fgetnwc]. *)

From stdpp Require Import gmap list.
From Stdlib Require Import ZArith Lia.

Open Scope Z_scope.

(** ** Memory *)

(** The values [errno] is set to (wtrerrno.h gives them their numbers, the
    operations only ever store them), and [ENONE] for an untouched [errno]. *)
Inductive errcode :=
| ENONE
| E_WTRIE_NULLPOINTER
| W_WTRIE_METANOTSET
| E_WTRIE_CORRUPT
| E_WTRIE_ORPHAN
| E_WTRIE_DUPCHILD
| E_WTRIE_SPAWNFAILED
| E_WTRIE_NOSUCHNODE
| E_WTRIE_EMPTYWORD
| I_WTRIE_NOSUCHWORD
| E_WTRIE_NOSUCHWORD.

#[global] Instance errcode_eq_dec : EqDecision errcode.
Proof. solve_decision. Defined.

Abbreviation ptr := (option positive).

(** [struct wTrie]. *)
Record wTrie := mk_wTrie {
  wc : Z;
  sibling : ptr;
  child : ptr;
  term : bool;
  meta : ptr
}.

#[global] Instance wTrie_eq_dec : EqDecision wTrie.
Proof. solve_decision. Defined.

(** The memory: the live nodes, the live payload buffers obtained from
    [calloc] (with their sizes), the next location [calloc] hands out,
    [errno], and the nodes released so far, oldest first. *)
Record mem := mk_mem {
  nodes : gmap positive wTrie;
  blobs : gmap positive N;
  brk : positive;
  errno : errcode;
  freed : list positive
}.

(** The memory before anything is allocated. *)
Definition mem0 : mem := mk_mem ∅ ∅ 1%positive ENONE [].

(** How a computation ends: with a value and a memory, in a fault, or with
    its bound exhausted. *)
Inductive outcome (A : Type) :=
| Ret (a : A) (m : mem)
| Fault
| Timeout.
Arguments Ret {A} a m.
Arguments Fault {A}.
Arguments Timeout {A}.

(** Computations over the memory. *)
Definition M (A : Type) := mem → outcome A.

Definition ret {A} (a : A) : M A := λ m, Ret a m.
Definition bind {A B} (c : M A) (k : A → M B) : M B :=
  λ m, match c m with
       | Ret a m' => k a m'
       | Fault => Fault
       | Timeout => Timeout
       end.
Definition fault {A} : M A := λ _, Fault.
Definition timeout {A} : M A := λ _, Timeout.

Notation "'do' x <- c ; k" := (bind c (λ x, k))
  (at level 10, x pattern, c at level 100, k at level 200).
Notation "c ;; k" := (bind c (λ _, k))
  (at level 100, k at level 200, right associativity).

(** [errno = e]. *)
Definition set_errno (e : errcode) : M unit :=
  λ m, Ret () (mk_mem (nodes m) (blobs m) (brk m) e (freed m)).

(** [p -> field]: reading through [NULL] or a released node faults. *)
Definition load (p : ptr) : M wTrie :=
  λ m, match p with
       | None => Fault
       | Some l => match nodes m !! l with
                   | Some n => Ret n m
                   | None => Fault
                   end
       end.

(** [p -> field = v], as an update of the node. *)
Definition store (p : ptr) (f : wTrie → wTrie) : M unit :=
  λ m, match p with
       | None => Fault
       | Some l => match nodes m !! l with
                   | Some n => Ret () (mk_mem (<[l := f n]> (nodes m)) (blobs m)
                                         (brk m) (errno m) (freed m))
                   | None => Fault
                   end
       end.

(** A node with one field assigned. *)
Definition set_sibling (v : ptr) (n : wTrie) : wTrie :=
  mk_wTrie (wc n) v (child n) (term n) (meta n).
Definition set_child (v : ptr) (n : wTrie) : wTrie :=
  mk_wTrie (wc n) (sibling n) v (term n) (meta n).
Definition set_term (v : bool) (n : wTrie) : wTrie :=
  mk_wTrie (wc n) (sibling n) (child n) v (meta n).
Definition set_meta (v : ptr) (n : wTrie) : wTrie :=
  mk_wTrie (wc n) (sibling n) (child n) (term n) v.

(** [calloc (1, sizeof (struct wTrie))]: a fresh zeroed node.  The allocator
    never runs dry and never hands a location out twice. *)
Definition calloc_node : M ptr :=
  λ m, Ret (Some (brk m))
           (mk_mem (<[brk m := mk_wTrie 0 None None false None]> (nodes m))
                   (blobs m) (Pos.succ (brk m)) (errno m) (freed m)).

(** [calloc (1, meta_sz)]: a fresh zeroed payload buffer. *)
Definition calloc_blob (sz : N) : M ptr :=
  λ m, Ret (Some (brk m))
           (mk_mem (nodes m) (<[brk m := sz]> (blobs m))
                   (Pos.succ (brk m)) (errno m) (freed m)).

(** [free (wtr -> meta)]: the payload is opaque to the trie; a buffer of
    [calloc_blob] stops being live, a pointer handed in by the caller is
    taken on trust.  A second [free] of a buffer is not told from the
    first: what is stated of the payloads is stated of payloads that are
    live buffers, no two nodes sharing one. *)
Definition free_blob (l : positive) : M unit :=
  λ m, Ret () (mk_mem (nodes m) (delete l (blobs m)) (brk m) (errno m) (freed m)).

(** [memset (wtr, 0xC3, ...); free (wtr)]: the node leaves the store (any
    later access through a pointer to it faults) and is logged. *)
Definition free_node (l : positive) : M unit :=
  λ m, match nodes m !! l with
       | Some _ => Ret () (mk_mem (delete l (nodes m)) (blobs m) (brk m)
                             (errno m) (freed m ++ [l]))
       | None => Fault
       end.

(** [_PRECONDITION (eval, seterr, action)] of precond.h, followed by the
    rest of the function body. *)
Definition PRECONDITION {A} (eval : bool) (seterr : errcode)
    (action rest : M A) : M A :=
  if eval then rest else (set_errno seterr ;; action).

(** A C string is the list of its characters before the terminator, so
    [*wstring] is the terminator exactly when the list is exhausted. *)
Definition deref (wstring : list Z) : Z := hd 0 wstring.

(** [*wstring == L'\0']. *)
Definition at_end (wstring : list Z) : bool :=
  match wstring with [] => true | _ :: _ => false end.

(** An output parameter [struct wTrie** p] is [None] when the caller
    passes [NULL], and [Some v] when it passes the address of a pointer
    variable now holding [v]; each operation returns what the variable
    holds when it is done. *)
Definition put (slot : option ptr) (v : ptr) : option ptr :=
  match slot with
  | Some _ => Some v
  | None => None
  end.

(** A pointer used as a condition. *)
Definition is_set {A} (p : option A) : bool :=
  match p with Some _ => true | None => false end.

(** ** The operations *)

(** [wTrie_rOK]. *)
Fixpoint wTrie_rOK (fuel : nat) (wtr : ptr) : M bool :=
  match fuel with
  | O => timeout
  | S fuel =>
      match wtr with
      | None => ret false
      | Some _ =>
          do n <- load wtr;
          do a <- (if is_set (sibling n) then wTrie_rOK fuel (sibling n) else ret true);
          if a then
            (if is_set (child n) then wTrie_rOK fuel (child n) else ret true)
          else ret false
      end
  end.

(** [wTrie_init]. *)
Definition wTrie_init (wtr : ptr) (wc0 : Z) (term0 : bool) (meta0 : ptr)
    (meta_sz : N) : M bool :=
  PRECONDITION (is_set wtr) E_WTRIE_NULLPOINTER (ret false)
    (store wtr (set_sibling None) ;;
     store wtr (set_child None) ;;
     store wtr (λ n, mk_wTrie wc0 (sibling n) (child n) (term n) (meta n)) ;;
     store wtr (set_term term0) ;;
     (if (0 <? meta_sz)%N then
        ((if is_set meta0 then set_errno W_WTRIE_METANOTSET else ret ()) ;;
         do b <- calloc_blob meta_sz;
         store wtr (set_meta b))
      else store wtr (set_meta meta0)) ;;
     ret true).

(** [wTrie_discard]. *)
Definition wTrie_discard (wtr : ptr) : M bool :=
  PRECONDITION (is_set wtr) E_WTRIE_NULLPOINTER (ret false)
    (do n <- load wtr;
     match meta n with Some b => free_blob b | None => ret () end ;;
     match wtr with Some l => free_node l | None => fault end ;;
     ret true).

(** The loop of [wTrie_child]: [head] is [parent -> child], the other
    arguments are the loop's variables and the caller's [*lsibling_p]. *)
Fixpoint wTrie_child_loop (fuel : nat) (head : ptr) (wch : Z)
    (child0 lostchild lsib : ptr) (lsibling_p : option ptr)
    : M (ptr * option ptr) :=
  match child0, lostchild with
  | Some c, None =>
      match fuel with
      | O => timeout
      | S fuel =>
          do n <- load child0;
          let hit := bool_decide (wc n = wch) in
          let lostchild' := if hit then child0 else lostchild in
          let lsibling_p' := if hit then put lsibling_p lsib else lsibling_p in
          let lsib' := if bool_decide (child0 ≠ head) then child0 else lsib in
          wTrie_child_loop fuel head wch (sibling n) lostchild' lsib' lsibling_p'
      end
  | _, _ => ret (lostchild, lsibling_p)
  end.

(** [wTrie_child]. *)
Definition wTrie_child (fuel : nat) (parent : ptr) (wch : Z)
    (lsibling_p : option ptr) : M (ptr * option ptr) :=
  PRECONDITION (is_set parent) E_WTRIE_ORPHAN (ret (None, lsibling_p))
    (do pn <- load parent;
     wTrie_child_loop fuel (child pn) wch (child pn) None None lsibling_p).

(** [wTrie_spawn]. *)
Definition wTrie_spawn (fuel : nat) (strict : bool) (parent : ptr) (wch : Z)
    (term0 : bool) (meta0 : ptr) (meta_sz : N) : M ptr :=
  PRECONDITION (is_set parent) E_WTRIE_ORPHAN (ret None)
    (do (child0, _) <- wTrie_child fuel parent wch None;
     match child0 with
     | None =>
         do newborn <- calloc_node;
         wTrie_init newborn wch term0 meta0 meta_sz ;;
         do pn <- load parent;
         (if is_set (child pn) then store newborn (set_sibling (child pn))
          else ret ()) ;;
         store parent (set_child newborn) ;;
         if is_set newborn then ret newborn
         else (set_errno E_WTRIE_SPAWNFAILED ;; ret None)
     | Some _ =>
         if strict then (set_errno E_WTRIE_DUPCHILD ;; ret None)
         else (store child0 (set_term term0) ;;
               store child0 (set_meta meta0) ;;
               ret child0)
     end).

(** The name of a function used as a value is its address, never null:
    this is what [_PRECONDITION (wTrie_rOK, ...)] tests. *)
Definition wTrie_rOK_designator : bool := true.

(** [wTrie_purge]. *)
Fixpoint wTrie_purge (fuel : nat) (wtr : ptr) : M unit :=
  match fuel with
  | O => timeout
  | S fuel =>
      PRECONDITION wTrie_rOK_designator E_WTRIE_CORRUPT (ret ())
        (do n <- load wtr;
         let sib := sibling n in
         let child0 := child n in
         wTrie_discard wtr ;;
         (if is_set sib then wTrie_purge fuel sib else ret ()) ;;
         (if is_set child0 then wTrie_purge fuel child0 else ret ()))
  end.

(** [wTrie_collapse]. *)
Definition wTrie_collapse (fuel : nat) (parent : ptr) (wch : Z) : M bool :=
  PRECONDITION (is_set parent) E_WTRIE_ORPHAN (ret false)
    (do (child0, lsib) <- wTrie_child fuel parent wch (Some None);
     let lsib := default None lsib in
     if negb (is_set child0) then (set_errno E_WTRIE_NOSUCHNODE ;; ret false)
     else
       do cn <- load child0;
       (if is_set (sibling cn) then
          (if is_set lsib then store lsib (set_sibling (sibling cn))
           else store parent (set_child (sibling cn)))
        else ret ()) ;;
       store child0 (set_sibling None) ;;
       wTrie_purge fuel child0 ;;
       ret true).

(** [wTrie_addword]. *)
Fixpoint wTrie_addword (fuel : nat) (wtr : ptr) (wstring : list Z) : M ptr :=
  PRECONDITION (is_set wtr) E_WTRIE_NULLPOINTER (ret None)
    match wstring with
    | [] => set_errno E_WTRIE_EMPTYWORD ;; ret None
    | c :: rest =>
        if negb (at_end rest) then
          do nwtr <- wTrie_spawn fuel false wtr c false None 0;
          wTrie_addword fuel nwtr rest
        else wTrie_spawn fuel false wtr c true None 0
    end.

(** [wTrie_addnword]. *)
Fixpoint wTrie_addnword (fuel : nat) (wtr : ptr) (wstring : list Z) (n : Z)
    : M ptr :=
  PRECONDITION (is_set wtr) E_WTRIE_NULLPOINTER (ret None)
    match wstring with
    | [] => set_errno E_WTRIE_EMPTYWORD ;; ret None
    | c :: rest =>
        PRECONDITION (1 <=? n) E_WTRIE_EMPTYWORD (ret None)
          (if negb (at_end rest) && (1 <? n) then
             do nwtr <- wTrie_spawn fuel false wtr c false None 0;
             wTrie_addnword fuel nwtr rest (n - 1)
           else wTrie_spawn fuel false wtr c true None 0)
    end.

(** [wTrie_findword]. *)
Fixpoint wTrie_findword (fuel : nat) (wtr : ptr) (wstring : list Z) : M ptr :=
  PRECONDITION (is_set wtr) E_WTRIE_NULLPOINTER (ret None)
    match wstring with
    | [] => set_errno E_WTRIE_EMPTYWORD ;; ret None
    | c :: rest =>
        do (child0, _) <- wTrie_child fuel wtr c None;
        let nosuchword := set_errno I_WTRIE_NOSUCHWORD ;; ret None in
        if is_set child0 then
          do cn <- load child0;
          if term cn && at_end rest then ret child0
          else if negb (at_end rest) then wTrie_findword fuel child0 rest
          else nosuchword
        else nosuchword
    end.

(** [wTrie_findword_rel]. *)
Fixpoint wTrie_findword_rel (fuel : nat) (wtr : ptr) (wstring : list Z)
    (parent_p lsibling_p : option ptr) : M (ptr * option ptr * option ptr) :=
  PRECONDITION (is_set wtr) E_WTRIE_NULLPOINTER (ret (None, parent_p, lsibling_p))
    match wstring with
    | [] => set_errno E_WTRIE_EMPTYWORD ;; ret (None, parent_p, lsibling_p)
    | c :: rest =>
        do (child0, written) <-
          wTrie_child fuel wtr c (if at_end rest then lsibling_p else None);
        let lsibling_p := if at_end rest then written else lsibling_p in
        let nosuchword :=
          set_errno I_WTRIE_NOSUCHWORD ;; ret (None, parent_p, lsibling_p) in
        if is_set child0 then
          do cn <- load child0;
          if term cn && at_end rest then ret (child0, parent_p, lsibling_p)
          else if negb (at_end rest) then
            if at_end (tl rest) then
              do (mbchild, mbparent, mblsibling) <-
                wTrie_findword_rel fuel child0 rest (Some child0) (Some None);
              if is_set mbchild then
                ret (mbchild, put parent_p (default None mbparent),
                     put lsibling_p (default None mblsibling))
              else nosuchword
            else wTrie_findword_rel fuel child0 rest parent_p lsibling_p
          else nosuchword
        else nosuchword
    end.

(** [wTrie_hasmultichild]. *)
Definition wTrie_hasmultichild (wtr : ptr) : M bool :=
  PRECONDITION (is_set wtr) E_WTRIE_NULLPOINTER (ret false)
    (do n <- load wtr;
     if is_set (child n) then
       do cn <- load (child n);
       if is_set (sibling cn) then ret true else ret false
     else ret false).

(** The [do ... while (!fin)] loop of [wTrie_leaf]: [wstring] is the
    string from its [i]-th character on.  A round that reads the terminator
    without finishing is followed by one that reads behind it. *)
Fixpoint wTrie_leaf_loop (fuel : nat) (endnode node : ptr) (wstring : list Z)
    (leaf parent : ptr) : M (ptr * ptr) :=
  let fin := bool_decide (node = endnode) in
  do (child0, _) <- wTrie_child fuel node (deref wstring) None;
  do (leaf, parent) <-
    (if negb fin then
       do multi <- wTrie_hasmultichild child0;
       if negb multi then
         ret (if is_set leaf then leaf else child0,
              if is_set parent then parent else node)
       else ret (None, None)
     else
       do n <- load node;
       if is_set (child n) then ret (None, None) else ret (leaf, parent));
  if fin then ret (leaf, parent)
  else
    match wstring with
    | [] => fault
    | _ :: rest => wTrie_leaf_loop fuel endnode child0 rest leaf parent
    end.

(** [wTrie_leaf]. *)
Definition wTrie_leaf (fuel : nat) (wtr : ptr) (wstring : list Z)
    (parent_p : option ptr) : M (ptr * option ptr) :=
  PRECONDITION (is_set wtr) E_WTRIE_NULLPOINTER (ret (None, parent_p))
    (PRECONDITION (negb (at_end wstring)) E_WTRIE_EMPTYWORD (ret (None, parent_p))
       (do endnode <- wTrie_findword fuel wtr wstring;
        PRECONDITION (is_set endnode) E_WTRIE_NOSUCHWORD (ret (None, parent_p))
          (do (leaf, parent) <- wTrie_leaf_loop fuel endnode wtr wstring None None;
           ret (leaf, put parent_p parent)))).

(** [wTrie_rmword]. *)
Definition wTrie_rmword (fuel : nat) (wtr : ptr) (wstring : list Z) : M bool :=
  do endnode <- wTrie_findword fuel wtr wstring;
  PRECONDITION (is_set endnode) E_WTRIE_NOSUCHWORD (ret false)
    (do (leaf, parent) <- wTrie_leaf fuel wtr wstring (Some None);
     let parent := default None parent in
     let unset := store endnode (set_term false) in
     (if is_set leaf then
        do en <- load endnode;
        if negb (is_set (child en)) then
          do ln <- load leaf;
          wTrie_collapse fuel parent (wc ln) ;; ret ()
        else unset
      else unset) ;;
     ret true).

(** The root as [main] makes it: [calloc] then
    [wTrie_init (WT, L'\0', 0, NULL, 0)]. *)
Definition new_root : M ptr :=
  do WT <- calloc_node;
  wTrie_init WT 0 false None 0 ;;
  ret WT.

(** ** The comparator of wsnippets.h *)

(** How a computation that uses no memory ends. *)
Inductive answer (A : Type) :=
| Answer (a : A)
| Faulted
| TimedOut.
Arguments Answer {A} a.
Arguments Faulted {A}.
Arguments TimedOut {A}.

(** The two directions. *)
Definition DFROMBGN : Z := 1.
Definition DFROMEND : Z := -1.

Definition INT_MAX : Z := 2147483647.

(** The value an [int] holds after a conversion or an addition, on the
    two's complement targets the program is built for. *)
Definition to_int (z : Z) : Z := (z + 2147483648) mod 4294967296 - 2147483648.

(** [str[i]]: the characters, then the terminator; anything else is
    outside the string. *)
Definition wchar_at (str : list Z) (i : Z) : option Z :=
  if (0 <=? i) && (i <=? Z.of_nat (length str))
  then Some (nth (Z.to_nat i) str 0)
  else None.

(** The loop of [alpha_strcmp_r].  [iswalpha] and [towlower] are those of
    the C library, whatever the locale makes them. *)
Fixpoint alpha_strcmp_r_loop (iswalpha : Z → bool) (towlower : Z → Z)
    (fuel : nat) (str1 str2 : list Z) (i1 i2 i1e i2e step : Z) : answer Z :=
  match fuel with
  | O => TimedOut
  | S fuel =>
      if negb (i1 =? i1e) && negb (i2 =? i2e) then
        match wchar_at str1 i1 with
        | None => Faulted
        | Some c1 =>
            if negb (iswalpha c1) then
              alpha_strcmp_r_loop iswalpha towlower fuel str1 str2
                (to_int (i1 + step)) i2 i1e i2e step
            else
              match wchar_at str2 i2 with
              | None => Faulted
              | Some c2 =>
                  if negb (iswalpha c2) then
                    alpha_strcmp_r_loop iswalpha towlower fuel str1 str2
                      i1 (to_int (i2 + step)) i1e i2e step
                  else if towlower c1 >? towlower c2 then Answer 1
                  else if towlower c1 <? towlower c2 then Answer (-1)
                  else
                    alpha_strcmp_r_loop iswalpha towlower fuel str1 str2
                      (to_int (i1 + step)) (to_int (i2 + step)) i1e i2e step
              end
        end
      else Answer 0
  end.

(** [alpha_strcmp_r], on the two strings and the direction its arguments
    point to. *)
Definition alpha_strcmp_r (iswalpha : Z → bool) (towlower : Z → Z)
    (fuel : nat) (str1 str2 : list Z) (dir : Z) : answer Z :=
  let slen1 := to_int (Z.of_nat (length str1)) in
  let slen2 := to_int (Z.of_nat (length str2)) in
  let i1 := if dir =? DFROMBGN then 0 else to_int (slen1 - 1) in
  let i2 := if dir =? DFROMBGN then 0 else to_int (slen2 - 1) in
  let i1e := if dir =? DFROMBGN then slen1 else -1 in
  let i2e := if dir =? DFROMBGN then slen2 else -1 in
  let step := dir in
  alpha_strcmp_r_loop iswalpha towlower fuel str1 str2 i1 i2 i1e i2e step.

(** ** Reading a stream (wsnippets.h) *)

(** [fgetwc] on a stream given by the wide characters it has yet to
    return: the next one, or [WEOF] ([None]) at the end. *)
Definition fgetwc (infile : list Z) : option Z * list Z :=
  match infile with
  | [] => (None, [])
  | c :: rest => (Some c, rest)
  end.

(** The loop of [fgetnwc].  The buffer is the list of its cells; a write
    outside of it faults.  The answer is [i], the buffer and what is left
    of the stream. *)
Fixpoint fgetnwc_loop (fuel : nat) (wbuff : list Z) (n i : Z) (winp : option Z)
    (infile : list Z) : answer (Z * list Z * list Z) :=
  match fuel with
  | O => TimedOut
  | S fuel =>
      match winp with
      | Some c =>
          if (if n =? 0 then true else i <? n) then
            if (0 <=? i) && (i <? Z.of_nat (length wbuff)) then
              let (winp, infile) := fgetwc infile in
              fgetnwc_loop fuel (<[Z.to_nat i := c]> wbuff) n (to_int (i + 1))
                winp infile
            else Faulted
          else Answer (i, wbuff, infile)
      | None => Answer (i, wbuff, infile)
      end
  end.

(** [fgetnwc]. *)
Definition fgetnwc (fuel : nat) (wbuff : list Z) (n : Z) (infile : list Z)
    : answer (Z * list Z * list Z) :=
  let (winp, infile) := fgetwc infile in
  fgetnwc_loop fuel wbuff n 0 winp infile.

(** ** Vocabulary of the statements *)

(** The memory with [errno] set, and with its nodes replaced. *)
Definition with_errno (e : errcode) (m : mem) : mem :=
  mk_mem (nodes m) (blobs m) (brk m) e (freed m).

Definition with_nodes (h : gmap positive wTrie) (m : mem) : mem :=
  mk_mem h (blobs m) (brk m) (errno m) (freed m).

(** The check passes: some bound on the recursion lets it return 1. *)
Definition rOK_passes (m : mem) (p : ptr) : Prop :=
  ∃ fuel, wTrie_rOK fuel p m = Ret true m.

(** The child list of a node, as the locations met along the sibling
    links from its first child. *)
Inductive sibling_list (h : gmap positive wTrie) : ptr → list positive → Prop :=
| sibling_list_nil : sibling_list h None []
| sibling_list_cons l n ls :
    h !! l = Some n → sibling_list h (sibling n) ls →
    sibling_list h (Some l) (l :: ls).

(** The child list of the node at [parent]. *)
Definition children_of (h : gmap positive wTrie) (parent : positive)
    (ls : list positive) : Prop :=
  ∃ pn, h !! parent = Some pn ∧ sibling_list h (child pn) ls.

(** Two stores with the same nodes linked the same way. *)
Definition same_links (h h' : gmap positive wTrie) : Prop :=
  ∀ l, (sibling <$> h !! l) = (sibling <$> h' !! l)
       ∧ (child <$> h !! l) = (child <$> h' !! l).

(** The tree a pointer stands for when no node is shared: the node's
    location and fields, the tree of its next sibling and the tree of its
    first child. *)
Inductive shape :=
| SNil
| SCell (l : positive) (c : Z) (t : bool) (mt : ptr) (sib chi : shape).

(** The pointer to a tree. *)
Definition sroot (sh : shape) : ptr :=
  match sh with
  | SNil => None
  | SCell l _ _ _ _ _ => Some l
  end.

(** The locations of a tree: the node, its siblings' trees, its child's. *)
Fixpoint addrs (sh : shape) : list positive :=
  match sh with
  | SNil => []
  | SCell l _ _ _ sib chi => l :: addrs sib ++ addrs chi
  end.

(** The number of nodes of a tree, and of its topmost sibling chain: the
    bounds the recursion and the lookup loop need. *)
Fixpoint ssize (sh : shape) : nat :=
  match sh with
  | SNil => O
  | SCell _ _ _ _ sib chi => S (ssize sib + ssize chi)
  end.

Fixpoint s_len (chain : shape) : nat :=
  match chain with
  | SNil => O
  | SCell _ _ _ _ sib _ => S (s_len sib)
  end.

(** The store holds the tree. *)
Fixpoint repr (h : gmap positive wTrie) (sh : shape) : Prop :=
  match sh with
  | SNil => True
  | SCell l c t mt sib chi =>
      h !! l = Some (mk_wTrie c (sroot sib) (sroot chi) t mt)
      ∧ repr h sib ∧ repr h chi
  end.

(** Locations below [nx] are in use, [calloc] hands out [nx] and above. *)
Definition below (nx : positive) (ls : list positive) : Prop :=
  Forall (λ x, (x < nx)%positive) ls.

(** A trie in memory: the node [cn] at [cur] has the tree [chain] as its
    children, no node occurs twice, and every node was handed out by
    [calloc] before. *)
Definition holds (m : mem) (cur : positive) (cn : wTrie) (chain : shape) : Prop :=
  nodes m !! cur = Some cn ∧ child cn = sroot chain ∧ repr (nodes m) chain
  ∧ NoDup (cur :: addrs chain) ∧ below (brk m) (cur :: addrs chain).

(** The first cell of a sibling chain carrying the symbol (with all that
    hangs from it), as [wTrie_child] finds it. *)
Fixpoint s_child (chain : shape) (wch : Z) : shape :=
  match chain with
  | SNil => SNil
  | SCell l c t mt sib chi =>
      if bool_decide (c = wch) then chain else s_child sib wch
  end.

(** The chain after an overwriting spawn on the cell carrying the symbol,
    whose child tree becomes [k] of what it was. *)
Fixpoint s_enter (wch : Z) (t : bool) (mt : ptr) (k : shape → shape)
    (chain : shape) : shape :=
  match chain with
  | SNil => SNil
  | SCell l c t0 mt0 sib chi =>
      if bool_decide (c = wch) then SCell l c t mt sib (k chi)
      else SCell l c t0 mt0 (s_enter wch t mt k sib) chi
  end.

(** The children of a node after [wTrie_addword] of [v] under it, when
    [calloc] hands out [nx] next. *)
Fixpoint s_addword (nx : positive) (chain : shape) (v : list Z) : shape :=
  match v with
  | [] => chain
  | c :: rest =>
      match s_child chain c with
      | SNil =>
          SCell nx c (at_end rest) None chain (s_addword (Pos.succ nx) SNil rest)
      | SCell _ _ _ _ _ _ =>
          s_enter c (at_end rest) None (λ chi, s_addword nx chi rest) chain
      end
  end.

(** What [wTrie_findword] answers under a node with these children. *)
Fixpoint s_findword (chain : shape) (w : list Z) : ptr :=
  match w with
  | [] => None
  | c :: rest =>
      match s_child chain c with
      | SNil => None
      | SCell l _ t _ _ chi =>
          if t && at_end rest then Some l
          else if negb (at_end rest) then s_findword chi rest
          else None
      end
  end.

(** The cell reached by following [w] from a node with these children. *)
Fixpoint s_at (chain : shape) (w : list Z) : shape :=
  match w with
  | [] => SNil
  | c :: rest =>
      match s_child chain c with
      | SNil => SNil
      | SCell _ _ _ _ _ chi as cell => if at_end rest then cell else s_at chi rest
      end
  end.

(** What follows the spawn in [wTrie_addword]. *)
Definition addword_rest (fuel : nat) (p : ptr) (rest : list Z) : M ptr :=
  if at_end rest then ret p else wTrie_addword fuel p rest.

(** The child list a chain stands for: the location and symbol of each
    cell along the sibling links. *)
Fixpoint s_chain (chain : shape) : list (positive * Z) :=
  match chain with
  | SNil => []
  | SCell l c _ _ sib _ => (l, c) :: s_chain sib
  end.

(** What [wTrie_child] leaves in [*lsibling_p] when the symbol is found at
    position [i] (counted from 0) of the child list. *)
Definition lsib_reported (cells : list (positive * Z)) (i : nat) : ptr :=
  match i with
  | O => None
  | S O => None
  | S j => fst <$> cells !! j
  end.

(** What [wTrie_findword_rel] leaves in [*parent_p] for a stored word: the
    node reached by the word without its last character, or what the
    caller had put there when the word has one character. *)
Definition parent_reported (chain : shape) (w : list Z) (parent_p : option ptr)
    : option ptr :=
  match w with
  | [_] => parent_p
  | _ => put parent_p (sroot (s_at chain (removelast w)))
  end.

(** The payload buffers of a tree, in the order [wTrie_purge] meets them. *)
Fixpoint metas (sh : shape) : list positive :=
  match sh with
  | SNil => []
  | SCell _ _ _ mt sib chi =>
      match mt with Some b => [b] | None => [] end ++ metas sib ++ metas chi
  end.

(** The chain with the cell carrying the symbol retouched: its flag
    becomes [f] of what it was, its child tree [k] of what it was. *)
Fixpoint s_retouch (wch : Z) (f : bool → bool) (k : shape → shape)
    (chain : shape) : shape :=
  match chain with
  | SNil => SNil
  | SCell l c t mt sib chi =>
      if bool_decide (c = wch) then SCell l c (f t) mt sib (k chi)
      else SCell l c t mt (s_retouch wch f k sib) chi
  end.

(** The tree with the terminating flag at the end of the path of [w]
    unset. *)
Fixpoint s_unterm (chain : shape) (w : list Z) {struct w} : shape :=
  match w with
  | [] => chain
  | c :: rest =>
      s_retouch c (if at_end rest then λ _, false else id)
        (λ chi, s_unterm chi rest) chain
  end.

(** The sibling chain from its [i]-th cell on (counted from 0). *)
Fixpoint s_nth (chain : shape) (i : nat) : shape :=
  match i, chain with
  | O, _ => chain
  | S j, SCell _ _ _ _ sib _ => s_nth sib j
  | S _, SNil => SNil
  end.

(** No node on the path of the word has two children or more (the node
    the path starts from apart). *)
Fixpoint s_unbranched (chain : shape) (w : list Z) : bool :=
  match w with
  | [] => true
  | c :: rest =>
      match s_child chain c with
      | SNil => false
      | SCell _ _ _ _ _ chi => (s_len chi <=? 1)%nat && s_unbranched chi rest
      end
  end.

(** The letters of a string, lowered. *)
Fixpoint letters (iswalpha : Z → bool) (towlower : Z → Z) (str : list Z) : list Z :=
  match str with
  | [] => []
  | c :: rest =>
      if iswalpha c then towlower c :: letters iswalpha towlower rest
      else letters iswalpha towlower rest
  end.

(** The sign of the first place where two lists differ, 0 when one runs
    out first. *)
Fixpoint first_difference (a b : list Z) : Z :=
  match a, b with
  | x :: a', y :: b' =>
      if x >? y then 1 else if x <? y then -1 else first_difference a' b'
  | _, _ => 0
  end.

(** The position, counted from 0, of the first cell of a sibling chain
    carrying the symbol (the length of the chain when there is none). *)
Fixpoint s_index (chain : shape) (wch : Z) : nat :=
  match chain with
  | SNil => O
  | SCell _ c _ _ sib _ =>
      if bool_decide (c = wch) then O else S (s_index sib wch)
  end.

(** The nodes on the path of a word, the node of its first character
    first. *)
Fixpoint s_path (chain : shape) (w : list Z) : list positive :=
  match w with
  | [] => []
  | c :: rest =>
      match s_child chain c with
      | SNil => []
      | SCell l _ _ _ _ chi => l :: s_path chi rest
      end
  end.

(** The store once the link to the child at position [i] of the child list
    [cells] of [parent] has been redirected to [next], the next sibling of
    that child: nothing is redirected when there is no next sibling; the
    link redirected is the previous sibling's for the third child and the
    later ones, and the parent's child link for the first child and for
    the second. *)
Definition relinked (h : gmap positive wTrie) (parent : positive)
    (cells : list (positive * Z)) (i : nat) (next : ptr)
    : gmap positive wTrie :=
  match next with
  | None => h
  | Some _ =>
      match lsib_reported cells i with
      | Some lp => alter (set_sibling next) lp h
      | None => alter (set_child next) parent h
      end
  end.

(** ** Scenarios *)

(** The characters and words of the scenarios. *)
Definition ch_a : Z := 97.
Definition ch_b : Z := 98.
Definition ch_c : Z := 99.
Definition ch_d : Z := 100.
Definition ch_g : Z := 103.
Definition ch_o : Z := 111.
Definition w_a : list Z := [ch_a].
Definition w_b : list Z := [ch_b].
Definition w_ac : list Z := [ch_a; ch_c].
Definition w_do : list Z := [ch_d; ch_o].
Definition w_dog : list Z := [ch_d; ch_o; ch_g].

(** Locations handed out from [mem0]: the root first, then the nodes in
    the order they are spawned. *)
Definition l_root : positive := 1.
Definition l_1 : positive := 2.
Definition l_2 : positive := 3.
Definition l_3 : positive := 4.

(** The memory a computation leaves when run from the empty memory. *)
Definition mem_after {A} (c : M A) : mem :=
  match c mem0 with
  | Ret _ m => m
  | _ => mem0
  end.

(** The trie holding "do": the root, the 'd' node and the 'o' node. *)
Definition m_do : mem :=
  mem_after (do r <- new_root; wTrie_addword 8 r w_do).

(** Its root node and the tree of the root's children. *)
Definition root_do : wTrie := mk_wTrie 0 None (Some l_1) false None.

Definition chain_do : shape :=
  SCell l_1 ch_d false None SNil (SCell l_2 ch_o true None SNil SNil).

(** The trie holding "b" and "ac": the root's children are the 'a' node
    (at [l_2], with the 'c' node at [l_3] as its child) and then the 'b'
    node (at [l_1]). *)
Definition m_b_ac : mem :=
  mem_after (do r <- new_root; wTrie_addword 8 r w_b ;; wTrie_addword 8 r w_ac).

(** The memories reached from [main]'s root by insertions: each call of
    [wTrie_addword] is given a bound that lets it return. *)
Inductive built : mem → Prop :=
| built_root m : new_root mem0 = Ret (Some l_root) m → built m
| built_addword m v r m' :
    built m →
    (∃ enough, ∀ fuel, (enough ≤ fuel)%nat →
       wTrie_addword fuel (Some l_root) v m = Ret r m') →
    built m'.

(** The trie holding "dog" and then "do": the 'o' node, flagged by the
    second insertion, has the 'g' node as its child. *)
Definition m_dog_do : mem :=
  mem_after (do r <- new_root; wTrie_addword 8 r w_dog ;; wTrie_addword 8 r w_do).

Definition chain_dog_do : shape :=
  SCell l_1 ch_d false None SNil
    (SCell l_2 ch_o true None SNil (SCell l_3 ch_g true None SNil SNil)).

(** The tree of the root's children in [m_b_ac]. *)
Definition chain_b_ac : shape :=
  SCell l_2 ch_a false None (SCell l_1 ch_b true None SNil SNil)
    (SCell l_3 ch_c true None SNil SNil).

(** A root with two children, spawned with a payload of 4 bytes each:
    the 'a' node at [l_1] with its buffer at 3, then the 'b' node at [l_3]
    with its buffer at 5. *)
Definition m_two_payloads : mem :=
  mem_after (do r <- new_root;
             wTrie_spawn 8 true r ch_a false None 4 ;;
             wTrie_spawn 8 true r ch_b false None 4).

(** Two tests for the comparator, on the letters of ASCII. *)
Definition ascii_isalpha (c : Z) : bool :=
  ((65 <=? c) && (c <=? 90)) || ((97 <=? c) && (c <=? 122)).

Definition ascii_tolower (c : Z) : Z :=
  if (65 <=? c) && (c <=? 90) then c + 32 else c.

(** Its root node. *)
Definition root_b_ac : wTrie := mk_wTrie 0 None (Some l_2) false None.

(** The trie holding "c", "b" and "a": the root's children are the 'a'
    node, the 'b' node and the 'c' node, in that order. *)
Definition m_c_b_a : mem :=
  mem_after (do r <- new_root;
             wTrie_addword 8 r [ch_c] ;; wTrie_addword 8 r w_b ;;
             wTrie_addword 8 r w_a).

Definition chain_c_b_a : shape :=
  SCell l_3 ch_a true None
    (SCell l_2 ch_b true None (SCell l_1 ch_c true None SNil SNil) SNil) SNil.

(** Three strings for the comparator: "Do,g", "dot" and "do". *)
Definition s_Dog : list Z := [68; 111; 44; 103].
Definition s_dot : list Z := [100; 111; 116].
Definition s_do : list Z := [100; 111].

(** Its root node. *)
Definition root_c_b_a : wTrie := mk_wTrie 0 None (Some l_3) false None.

(** The trie holding "d", "c", "b" and "a": four children under the root,
    the 'a' node (the last one spawned, at [l_4]) first. *)
Definition l_4 : positive := 5.

Definition m_d_c_b_a : mem :=
  mem_after (do r <- new_root;
             wTrie_addword 8 r [ch_d] ;; wTrie_addword 8 r [ch_c] ;;
             wTrie_addword 8 r w_b ;; wTrie_addword 8 r w_a).

Definition root_d_c_b_a : wTrie := mk_wTrie 0 None (Some l_4) false None.

Definition chain_d_c_b_a : shape :=
  SCell l_4 ch_a true None
    (SCell l_3 ch_b true None
       (SCell l_2 ch_c true None (SCell l_1 ch_d true None SNil SNil) SNil)
       SNil)
    SNil.

(** ** Reasoning about computations *)

Lemma bind_Ret {A B} (c : M A) (k : A → M B) m a m' :
  c m = Ret a m' → bind c k m = k a m'.
Proof. intros H. unfold bind. now rewrite H. Qed.

Lemma bind_inv {A B} (c : M A) (k : A → M B) m b m' :
  bind c k m = Ret b m' → ∃ a m1, c m = Ret a m1 ∧ k a m1 = Ret b m'.
Proof.
  unfold bind. destruct (c m) as [a m1| |] eqn:E; try discriminate.
  intros H. now exists a, m1.
Qed.

Lemma bind_assoc {A B C} (c : M A) (k1 : A → M B) (k2 : B → M C) m :
  bind (bind c k1) k2 m = bind c (λ a, bind (k1 a) k2) m.
Proof. unfold bind. now destruct (c m). Qed.

Lemma load_Ret l n m : nodes m !! l = Some n → load (Some l) m = Ret n m.
Proof. intros H. unfold load. now rewrite H. Qed.

Lemma load_inv p n m m' :
  load p m = Ret n m' → m' = m ∧ ∃ l, p = Some l ∧ nodes m !! l = Some n.
Proof.
  unfold load. destruct p as [l|]; try discriminate.
  destruct (nodes m !! l) eqn:E; try discriminate.
  intros [= <- <-]. eauto.
Qed.

(** One step of a computation whose result is known. *)
Tactic Notation "run" uconstr(H) := rewrite (bind_Ret _ _ _ _ _ H).
Tactic Notation "run_load" uconstr(H) :=
  run (load_Ret _ _ _ H).

(** ** The consistency check *)

Lemma rOK_mem fuel : ∀ p m b m', wTrie_rOK fuel p m = Ret b m' → m' = m.
Proof.
  induction fuel as [|fuel IH]; intros p m b m' H; simpl in H; [discriminate|].
  destruct p as [l|]; [|now inversion H].
  apply bind_inv in H as (n & m1 & Hl & H).
  apply load_inv in Hl as [-> _].
  apply bind_inv in H as (a & m2 & Hs & H).
  assert (m2 = m) as ->.
  { destruct (is_set (sibling n)); [eauto|now inversion Hs]. }
  destruct a; [|now inversion H].
  destruct (is_set (child n)); [eauto|now inversion H].
Qed.

Lemma rOK_mono fuel : ∀ fuel' p m b,
  (fuel ≤ fuel')%nat → wTrie_rOK fuel p m = Ret b m → wTrie_rOK fuel' p m = Ret b m.
Proof.
  induction fuel as [|fuel IH]; intros fuel' p m b Hle H; simpl in H; [discriminate|].
  destruct fuel' as [|fuel']; [lia|]. simpl.
  destruct p as [l|]; [|exact H].
  apply bind_inv in H as (n & m1 & Hl & H).
  pose proof (load_inv _ _ _ _ Hl) as [-> _].
  run Hl.
  apply bind_inv in H as (a & m2 & Hs & H).
  assert (m2 = m) as ->.
  { destruct (is_set (sibling n)); [eapply rOK_mem; eauto|now inversion Hs]. }
  assert ((if is_set (sibling n) then wTrie_rOK fuel' (sibling n) else ret true) m
          = Ret a m) as Hs'.
  { destruct (is_set (sibling n)); [apply IH; [lia|exact Hs]|exact Hs]. }
  run Hs'.
  destruct a; [|exact H].
  destruct (is_set (child n)); [apply IH; [lia|exact H]|exact H].
Qed.

(** A present reference is never answered with 0: the check answers 1,
    faults on a dangling link, or does not return. *)
Lemma rOK_false_only_null fuel : ∀ p m m',
  wTrie_rOK fuel p m = Ret false m' → p = None.
Proof.
  induction fuel as [|fuel IH]; intros p m m' H; simpl in H; [discriminate|].
  destruct p as [l|]; [exfalso|reflexivity].
  apply bind_inv in H as (n & m1 & Hl & H).
  apply bind_inv in H as (a & m2 & Hs & H).
  destruct a.
  - destruct (sibling n) as [s|] eqn:Es, (child n) as [c|] eqn:Ec; simpl in *;
      try discriminate; apply IH in H; discriminate.
  - destruct (sibling n) as [s|] eqn:Es; simpl in *; try discriminate.
    apply IH in Hs; discriminate.
Qed.

Lemma rOK_passes_link m p :
  (p = None ∨ rOK_passes m p) →
  ∃ fuel, ∀ fuel', (fuel ≤ fuel')%nat →
    (if is_set p then wTrie_rOK fuel' p else ret true) m = Ret true m.
Proof.
  intros [->|[fuel H]].
  - exists O. reflexivity.
  - exists fuel. intros fuel' Hle.
    destruct p; simpl; [|reflexivity]. eapply rOK_mono; eauto.
Qed.

(** C7, as the code has it: the check answers 1 exactly when the reference
    is present and each of its sibling and child links is absent or passes
    the same check; for an absent reference it answers 0. *)
Theorem rOK_characterisation :
  (∀ fuel m, wTrie_rOK (S fuel) None m = Ret false m)
  ∧ ∀ m p,
      rOK_passes m p ↔
      ∃ n, load p m = Ret n m
           ∧ (sibling n = None ∨ rOK_passes m (sibling n))
           ∧ (child n = None ∨ rOK_passes m (child n)).
Proof.
  split; [reflexivity|]. intros m p. split.
  - intros [fuel H]. destruct fuel as [|fuel]; [discriminate|]. simpl in H.
    destruct p as [l|]; [|discriminate].
    apply bind_inv in H as (n & m1 & Hl & H).
    pose proof (load_inv _ _ _ _ Hl) as [-> _].
    apply bind_inv in H as (a & m2 & Hs & H).
    exists n. split; [exact Hl|].
    assert (m2 = m) as ->.
    { destruct (is_set (sibling n)); [eapply rOK_mem; eauto|now inversion Hs]. }
    destruct a.
    + split.
      * destruct (sibling n) as [s|]; [right; now exists fuel|now left].
      * destruct (child n) as [c|]; [right; now exists fuel|now left].
    + destruct (is_set (sibling n)); [|discriminate]. discriminate.
  - intros (n & Hl & Hs & Hc).
    destruct (rOK_passes_link _ _ Hs) as [f1 H1].
    destruct (rOK_passes_link _ _ Hc) as [f2 H2].
    pose proof (load_inv _ _ _ _ Hl) as [_ (l & -> & _)].
    exists (S (f1 `max` f2)). simpl.
    run Hl.
    run (H1 _ (Nat.le_max_l _ _)).
    apply H2. apply Nat.le_max_r.
Qed.

(** C7 as stated fails on the absent reference: the check answers 0 for
    [NULL], whatever the bound. *)
Lemma rOK_null_is_false :
  wTrie_rOK 1 None mem0 = Ret false mem0
  ∧ ¬ rOK_passes mem0 None.
Proof.
  split; [reflexivity|].
  intros [fuel H]. destruct fuel; discriminate.
Qed.

(** ** Child lookup and spawning *)

Lemma child_loop_inv fuel : ∀ head wch c0 lost lsib slot m r sl m',
  wTrie_child_loop fuel head wch c0 lost lsib slot m = Ret (r, sl) m' →
  m' = m ∧ (r = lost ∨ ∃ l n, r = Some l ∧ nodes m !! l = Some n ∧ wc n = wch).
Proof.
  induction fuel as [|fuel IH]; intros head wch c0 lost lsib slot m r sl m' H.
  - destruct c0 as [c|], lost as [x|]; simpl in H; try discriminate;
      inversion H; subst; auto.
  - destruct c0 as [c|], lost as [x|]; simpl in H;
      try (inversion H; subst; auto; fail).
    apply bind_inv in H as (n & m1 & Hl & H).
    apply load_inv in Hl as [-> (l & [= <-] & Hn)].
    apply IH in H as [-> [->|Hf]]; split; auto.
    case_bool_decide; auto. right. eauto.
Qed.

(** [wTrie_child] on a present parent only reads. *)
Lemma child_inv fuel p wch slot m r sl m' :
  wTrie_child fuel (Some p) wch slot m = Ret (r, sl) m' →
  m' = m ∧ (r = None ∨ ∃ l n, r = Some l ∧ nodes m !! l = Some n ∧ wc n = wch).
Proof.
  unfold wTrie_child, PRECONDITION. simpl. intros H.
  apply bind_inv in H as (pn & m1 & Hl & H).
  apply load_inv in Hl as [-> _].
  now apply child_loop_inv in H.
Qed.

Lemma same_links_sym h h' : same_links h h' → same_links h' h.
Proof. intros H l. destruct (H l). split; congruence. Qed.

Lemma same_links_overwrite h c n t mt :
  h !! c = Some n →
  same_links h (<[c := mk_wTrie (wc n) (sibling n) (child n) t mt]> h).
Proof.
  intros Hc l. destruct (decide (l = c)) as [->|Hne].
  - rewrite lookup_insert_eq, Hc. now simpl.
  - now rewrite lookup_insert_ne.
Qed.

Lemma sibling_list_same_links h h' p ls :
  same_links h h' → sibling_list h p ls → sibling_list h' p ls.
Proof.
  intros Hs H. induction H as [|l n ls Hl _ IH]; [constructor|].
  destruct (Hs l) as [H1 _]. rewrite Hl in H1. simpl in H1.
  destruct (h' !! l) as [n'|] eqn:E; [|discriminate].
  simpl in H1. injection H1 as H1.
  apply (sibling_list_cons _ _ n'); [exact E|]. now rewrite <- H1.
Qed.

Lemma children_of_same_links h h' p ls :
  same_links h h' → children_of h p ls → children_of h' p ls.
Proof.
  intros Hs (pn & Hp & H). destruct (Hs p) as [_ H2].
  rewrite Hp in H2. simpl in H2.
  destruct (h' !! p) as [pn'|] eqn:E; [|discriminate].
  simpl in H2. injection H2 as H2.
  exists pn'. split; [exact E|]. rewrite <- H2.
  eapply sibling_list_same_links; eauto.
Qed.

(** ** Stores holding trees *)

Lemma repr_frame h h' sh :
  (∀ x, x ∈ addrs sh → h' !! x = h !! x) → repr h sh → repr h' sh.
Proof.
  induction sh as [|l c t mt sib IHs chi IHc]; simpl; [auto|].
  intros Hf (Hl & Hs & Hc). split; [|split].
  - rewrite Hf; [exact Hl|]. apply list_elem_of_here.
  - apply IHs; [|exact Hs]. intros x Hx. apply Hf.
    apply list_elem_of_further, elem_of_app. now left.
  - apply IHc; [|exact Hc]. intros x Hx. apply Hf.
    apply list_elem_of_further, elem_of_app. now right.
Qed.

(** ** Purge *)

Lemma purge_link sh : ∀ fuel m,
  repr (nodes m) sh → NoDup (addrs sh) → (ssize sh ≤ fuel)%nat →
  ∃ m',
    (if is_set (sroot sh) then wTrie_purge fuel (sroot sh) else ret ()) m = Ret () m'
    ∧ freed m' = freed m ++ addrs sh
    ∧ ∀ x, nodes m' !! x = if decide (x ∈ addrs sh) then None else nodes m !! x.
Proof.
  induction sh as [|l c t mt sib IHs chi IHc]; intros fuel m Hr Hnd Hle.
  - exists m. split; [reflexivity|]. split; [simpl; now rewrite app_nil_r|].
    intros x. destruct (decide (x ∈ addrs SNil)) as [Hx|Hx]; [|reflexivity].
    now apply elem_of_nil in Hx.
  - simpl in Hr, Hnd, Hle. destruct Hr as (Hl & Hrs & Hrc).
    apply NoDup_cons in Hnd as [Hnl Hnd].
    apply NoDup_app in Hnd as (Hns & Hsc & Hnc).
    apply not_elem_of_app in Hnl as [Hls Hlc].
    destruct fuel as [|fuel]; [lia|].
    set (m1 := mk_mem (delete l (nodes m))
                 (match mt with Some b => delete b (blobs m) | None => blobs m end)
                 (brk m) (errno m) (freed m ++ [l])).
    assert (Hd : wTrie_discard (Some l) m = Ret true m1).
    { unfold wTrie_discard, PRECONDITION. simpl.
      run_load Hl. simpl.
      destruct mt as [b|]; unfold bind, free_blob, free_node, ret; simpl;
        now rewrite Hl. }
    destruct (IHs fuel m1) as (m2 & Hp2 & Hf2 & Hn2).
    { eapply repr_frame; [|exact Hrs]. intros x Hx. simpl.
      apply lookup_delete_ne. intros ->. contradiction. }
    { exact Hns. } { lia. }
    destruct (IHc fuel m2) as (m3 & Hp3 & Hf3 & Hn3).
    { eapply repr_frame; [|exact Hrc]. intros x Hx. rewrite Hn2.
      destruct (decide (x ∈ addrs sib)) as [Hxs|Hxs]; [exfalso; eapply Hsc; eauto|].
      simpl. apply lookup_delete_ne. intros ->. contradiction. }
    { exact Hnc. } { lia. }
    exists m3. split; [|split].
    + cbn [sroot is_set wTrie_purge]. unfold PRECONDITION, wTrie_rOK_designator.
      run_load Hl.
      cbn [sibling child].
      run Hd.
      run Hp2.
      exact Hp3.
    + rewrite Hf3, Hf2. simpl. rewrite <- !app_assoc. reflexivity.
    + intros x. rewrite Hn3, Hn2. simpl.
      destruct (decide (x ∈ l :: addrs sib ++ addrs chi)) as [Hx|Hx].
      * apply elem_of_cons in Hx as [->|Hx].
        { rewrite lookup_delete_eq. repeat case_decide; reflexivity. }
        apply elem_of_app in Hx as [Hx|Hx].
        { rewrite (decide_True (P := x ∈ addrs sib)) by exact Hx.
          case_decide; reflexivity. }
        rewrite (decide_True (P := x ∈ addrs chi)) by exact Hx. reflexivity.
      * rewrite not_elem_of_cons, not_elem_of_app in Hx.
        destruct Hx as (Hxl & Hxs & Hxc).
        rewrite (decide_False (P := x ∈ addrs chi)) by exact Hxc.
        rewrite (decide_False (P := x ∈ addrs sib)) by exact Hxs.
        apply lookup_delete_ne. congruence.
Qed.

(** C8, as the code has it: purging a node of a tree releases the node
    itself first, then the whole tree of its next sibling, then the whole
    tree of its first child, and nothing else. *)
Theorem purge_node_then_siblings_then_children fuel m l c t mt sib chi :
  repr (nodes m) (SCell l c t mt sib chi) →
  NoDup (addrs (SCell l c t mt sib chi)) →
  (ssize (SCell l c t mt sib chi) ≤ fuel)%nat →
  ∃ m',
    wTrie_purge fuel (Some l) m = Ret () m'
    ∧ freed m' = freed m ++ [l] ++ addrs sib ++ addrs chi
    ∧ ∀ x, nodes m' !! x =
           if decide (x ∈ l :: addrs sib ++ addrs chi) then None else nodes m !! x.
Proof.
  intros Hr Hnd Hle.
  destruct (purge_link _ _ _ Hr Hnd Hle) as (m' & H1 & H2 & H3).
  exists m'. split; [exact H1|]. split; [exact H2|exact H3].
Qed.

(** C8 as stated fails on the 'a' node of the trie holding "b" and "ac":
    the node itself is released first, its sibling and its child after it. *)
Lemma purge_releases_node_first :
  nodes m_b_ac !! l_2 = Some (mk_wTrie ch_a (Some l_1) (Some l_3) false None)
  ∧ ∃ m',
      wTrie_purge 8 (Some l_2) m_b_ac = Ret () m'
      ∧ freed m' = [l_2; l_1; l_3]
      ∧ freed m' ≠ [l_1; l_3; l_2].
Proof.
  split; [vm_compute; reflexivity|].
  eexists. split; [vm_compute; reflexivity|].
  split; [vm_compute; reflexivity|]. vm_compute. discriminate.
Qed.

(** The purge theorem at the 'a' node of the trie holding "b" and "ac". *)
Lemma purge_node_then_siblings_then_children_witness :
  ∃ m',
    wTrie_purge 8 (Some l_2) m_b_ac = Ret () m'
    ∧ freed m' = [l_2; l_1; l_3]
    ∧ nodes m' !! l_1 = None ∧ nodes m' !! l_2 = None ∧ nodes m' !! l_3 = None
    ∧ nodes m' !! l_root = nodes m_b_ac !! l_root.
Proof.
  destruct (purge_node_then_siblings_then_children 8 m_b_ac l_2 ch_a false None
              (SCell l_1 ch_b true None SNil SNil)
              (SCell l_3 ch_c true None SNil SNil))
    as (m' & Hrun & Hfreed & Hnodes).
  - vm_compute. repeat split; reflexivity.
  - apply (bool_decide_unpack _). vm_compute. exact I.
  - simpl. lia.
  - exists m'. split; [exact Hrun|]. split; [exact Hfreed|].
    rewrite !Hnodes. repeat split.
Defined.

(** ** Lookup and insertion on trees *)

Lemma s_child_wc chain wch l c t mt sib chi :
  s_child chain wch = SCell l c t mt sib chi → c = wch.
Proof.
  induction chain as [|l0 c0 t0 mt0 sib0 IH chi0 _]; simpl; [discriminate|].
  case_bool_decide as Hc; [|exact IH]. now intros [= _ <- _ _ _ _].
Qed.

Lemma addrs_s_child chain wch x :
  x ∈ addrs (s_child chain wch) → x ∈ addrs chain.
Proof.
  induction chain as [|l0 c0 t0 mt0 sib0 IH chi0 _]; simpl; [auto|].
  case_bool_decide; [auto|]. intros Hx.
  apply list_elem_of_further, elem_of_app. left. auto.
Qed.

Lemma ssize_s_child chain wch : (ssize (s_child chain wch) ≤ ssize chain)%nat.
Proof.
  induction chain as [|l0 c0 t0 mt0 sib0 IH chi0 _]; simpl; [lia|].
  case_bool_decide; simpl; lia.
Qed.

Lemma repr_s_child h chain wch : repr h chain → repr h (s_child chain wch).
Proof.
  induction chain as [|l0 c0 t0 mt0 sib0 IH chi0 _]; simpl; [auto|].
  case_bool_decide; simpl; tauto.
Qed.

Lemma NoDup_s_child chain wch :
  NoDup (addrs chain) → NoDup (addrs (s_child chain wch)).
Proof.
  induction chain as [|l0 c0 t0 mt0 sib0 IH chi0 _]; simpl; [auto|].
  case_bool_decide; [auto|]. intros Hnd.
  apply NoDup_cons in Hnd as [_ Hnd]. apply NoDup_app in Hnd as (Hnd & _ & _). auto.
Qed.

Lemma sroot_s_enter wch t mt k chain :
  sroot (s_enter wch t mt k chain) = sroot chain.
Proof. destruct chain; simpl; [reflexivity|]. now case_bool_decide. Qed.

Lemma s_child_s_enter wch t mt k chain l c t0 mt0 sib chi :
  s_child chain wch = SCell l c t0 mt0 sib chi →
  s_child (s_enter wch t mt k chain) wch = SCell l c t mt sib (k chi).
Proof.
  induction chain as [|l0 c0 t1 mt1 sib0 IH chi0 _]; simpl; [discriminate|].
  case_bool_decide as Hc; simpl; rewrite bool_decide_decide;
    [rewrite decide_True by exact Hc|rewrite decide_False by exact Hc].
  - now intros [= -> -> _ _ -> ->].
  - exact IH.
Qed.

Lemma addrs_s_enter wch t mt k chain l c t0 mt0 sib chi x :
  s_child chain wch = SCell l c t0 mt0 sib chi →
  x ∈ addrs (s_enter wch t mt k chain) →
  x ∈ addrs chain ∨ x ∈ addrs (k chi).
Proof.
  induction chain as [|l0 c0 t1 mt1 sib0 IH chi0 _]; simpl; [discriminate|].
  case_bool_decide as Hc; simpl.
  - intros [= -> -> _ _ -> ->]. rewrite !elem_of_cons, !elem_of_app. tauto.
  - intros Hch. rewrite !elem_of_cons, !elem_of_app. tauto.
Qed.

Lemma below_elem nx ls x : below nx ls → x ∈ ls → (x < nx)%positive.
Proof. unfold below. rewrite Forall_forall. auto. Qed.

Section enter.
Variables (nx : positive) (k : shape → shape) (wch : Z) (t : bool) (mt : ptr).
Hypothesis k_fresh :
  ∀ chi x, x ∈ addrs (k chi) → x ∈ addrs chi ∨ (nx ≤ x)%positive.
Hypothesis k_NoDup :
  ∀ chi, NoDup (addrs chi) → below nx (addrs chi) → NoDup (addrs (k chi)).

Lemma s_enter_fresh chain x :
  x ∈ addrs (s_enter wch t mt k chain) → x ∈ addrs chain ∨ (nx ≤ x)%positive.
Proof.
  induction chain as [|l0 c0 t0 mt0 sib0 IHs chi0 _]; simpl; [auto|].
  case_bool_decide; simpl; rewrite !elem_of_cons, !elem_of_app.
  - intros [?|[?|Hx]]; auto. apply k_fresh in Hx. tauto.
  - intros [?|[Hx|?]]; auto. apply IHs in Hx. tauto.
Qed.

Lemma s_enter_NoDup chain :
  NoDup (addrs chain) → below nx (addrs chain) →
  NoDup (addrs (s_enter wch t mt k chain)).
Proof.
  induction chain as [|l0 c0 t0 mt0 sib0 IHs chi0 _]; simpl; [auto|].
  intros Hnd Hb.
  apply NoDup_cons in Hnd as [Hl Hnd].
  apply NoDup_app in Hnd as (Hns & Hsc & Hnc).
  apply not_elem_of_app in Hl as [Hls Hlc].
  apply Forall_cons in Hb as [Hbl Hb].
  apply Forall_app in Hb as [Hbs Hbc].
  case_bool_decide; simpl; apply NoDup_cons; split.
  - rewrite not_elem_of_app. split; [exact Hls|].
    intros Hx. apply k_fresh in Hx as [Hx|Hx]; [contradiction|lia].
  - apply NoDup_app. split; [exact Hns|]. split; [|now apply k_NoDup].
    intros x Hxs Hx. apply k_fresh in Hx as [Hx|Hx]; [eapply Hsc; eauto|].
    pose proof (below_elem _ _ _ Hbs Hxs). lia.
  - rewrite not_elem_of_app. split; [|exact Hlc].
    intros Hx. apply s_enter_fresh in Hx as [Hx|Hx]; [contradiction|lia].
  - apply NoDup_app. split; [now apply IHs|]. split; [|exact Hnc].
    intros x Hx Hxc. apply s_enter_fresh in Hx as [Hx|Hx]; [eapply Hsc; eauto|].
    pose proof (below_elem _ _ _ Hbc Hxc). lia.
Qed.
End enter.

Lemma s_addword_fresh v : ∀ nx chain x,
  x ∈ addrs (s_addword nx chain v) → x ∈ addrs chain ∨ (nx ≤ x)%positive.
Proof.
  induction v as [|c rest IH]; intros nx chain x; simpl; [auto|].
  destruct (s_child chain c) eqn:E.
  - simpl. rewrite elem_of_cons, elem_of_app. intros [->|[Hx|Hx]]; auto; [lia|].
    apply IH in Hx as [Hx|Hx]; [now apply elem_of_nil in Hx|lia].
  - apply s_enter_fresh. intros chi y. apply IH.
Qed.

Lemma s_addword_NoDup v : ∀ nx chain,
  NoDup (addrs chain) → below nx (addrs chain) →
  NoDup (addrs (s_addword nx chain v)).
Proof.
  induction v as [|c rest IH]; intros nx chain Hnd Hb; simpl; [auto|].
  destruct (s_child chain c) eqn:E.
  - simpl. apply NoDup_cons. split.
    + rewrite not_elem_of_app. split.
      * intros Hx. pose proof (below_elem _ _ _ Hb Hx). lia.
      * intros Hx. apply s_addword_fresh in Hx as [Hx|Hx];
          [now apply elem_of_nil in Hx|lia].
    + apply NoDup_app. split; [exact Hnd|]. split.
      * intros x Hx Hx'. pose proof (below_elem _ _ _ Hb Hx).
        apply s_addword_fresh in Hx' as [Hx'|Hx'];
          [now apply elem_of_nil in Hx'|lia].
      * apply IH; [apply NoDup_nil_2|apply Forall_nil_2].
  - apply (s_enter_NoDup nx); auto.
    intros chi y. apply s_addword_fresh.
Qed.

(** ** The operations on a store holding a tree *)

Lemma s_len_ssize chain : (s_len chain ≤ ssize chain)%nat.
Proof. induction chain; simpl; lia. Qed.

Lemma child_loop_done fuel head wch c0 x lsib slot m :
  wTrie_child_loop fuel head wch c0 (Some x) lsib slot m = Ret (Some x, slot) m.
Proof. destruct fuel, c0; reflexivity. Qed.

Lemma child_loop_sim chain : ∀ fuel head wch lsib m,
  repr (nodes m) chain → (s_len chain ≤ fuel)%nat →
  wTrie_child_loop fuel head wch (sroot chain) None lsib None m
  = Ret (sroot (s_child chain wch), None) m.
Proof.
  induction chain as [|l c t mt sib IH chi _]; intros fuel head wch lsib m Hr Hle.
  - destruct fuel; reflexivity.
  - simpl in Hr, Hle. destruct Hr as (Hl & Hrs & _).
    destruct fuel as [|fuel]; [lia|].
    cbn [sroot wTrie_child_loop].
    run_load Hl.
    cbn [wc sibling s_child].
    case_bool_decide.
    + apply child_loop_done.
    + apply IH; [exact Hrs|lia].
Qed.

Lemma child_sim fuel p pn chain wch m :
  nodes m !! p = Some pn → child pn = sroot chain →
  repr (nodes m) chain → (ssize chain ≤ fuel)%nat →
  wTrie_child fuel (Some p) wch None m = Ret (sroot (s_child chain wch), None) m.
Proof.
  intros Hp Hc Hr Hle. unfold wTrie_child, PRECONDITION. cbn [is_set].
  run_load Hp. rewrite Hc.
  apply child_loop_sim; [exact Hr|]. pose proof (s_len_ssize chain). lia.
Qed.

(** [wTrie_findword] answers as the tree says, and reports a word that is
    not stored through [errno]. *)
Lemma findword_sim w : ∀ fuel cur cn chain m,
  nodes m !! cur = Some cn → child cn = sroot chain →
  repr (nodes m) chain → (ssize chain ≤ fuel)%nat → w ≠ [] →
  wTrie_findword fuel (Some cur) w m
  = match s_findword chain w with
    | Some l => Ret (Some l) m
    | None => Ret None (with_errno I_WTRIE_NOSUCHWORD m)
    end.
Proof.
  induction w as [|c rest IH]; intros fuel cur cn chain m Hp Hc Hr Hle Hw;
    [congruence|].
  cbn [wTrie_findword s_findword]. unfold PRECONDITION. cbn [is_set].
  run (child_sim _ _ _ _ c _ Hp Hc Hr Hle).
  pose proof (repr_s_child _ _ c Hr) as Hrc.
  pose proof (ssize_s_child chain c) as Hsz.
  destruct (s_child chain c) as [|l c' t mt sib chi]; [reflexivity|].
  simpl in Hrc, Hsz. destruct Hrc as (Hl & _ & Hrchi).
  cbn [sroot is_set].
  run_load Hl. cbn [term].
  destruct (t && at_end rest); [reflexivity|].
  destruct rest as [|c2 rest2]; [reflexivity|]. cbn [at_end negb].
  apply (IH fuel l _ chi m Hl); [reflexivity|exact Hrchi|lia|discriminate].
Qed.

(** ** The previous sibling reported by the lookup *)

Lemma repr_functional h sh1 : ∀ sh2,
  repr h sh1 → repr h sh2 → sroot sh1 = sroot sh2 → sh1 = sh2.
Proof.
  induction sh1 as [|l c t mt sib IHs chi IHc]; intros [|l' c' t' mt' sib' chi'];
    simpl; try discriminate; [reflexivity|].
  intros (H1 & Hs & Hc) (H2 & Hs' & Hc') [= <-].
  rewrite H1 in H2. injection H2 as <- Es Ec <- <-.
  f_equal; auto.
Qed.

Lemma s_chain_suffix h sh l c :
  repr h sh → (l, c) ∈ s_chain sh →
  ∃ sub, sroot sub = Some l ∧ repr h sub ∧ (s_len sub ≤ s_len sh)%nat.
Proof.
  induction sh as [|l0 c0 t0 mt0 sib IHs chi _]; simpl.
  - intros _ H. now apply elem_of_nil in H.
  - intros Hr H. apply elem_of_cons in H as [[= -> ->]|H].
    + exists (SCell l0 c0 t0 mt0 sib chi). simpl. auto.
    + destruct Hr as (_ & Hs & _).
      destruct (IHs Hs H) as (sub & H1 & H2 & H3). exists sub. auto with lia.
Qed.

(** A node is not met again along its own sibling chain. *)
Lemma head_not_in_siblings h l c t mt sib chi c' :
  repr h (SCell l c t mt sib chi) → (l, c') ∉ s_chain sib.
Proof.
  intros Hr Hin. pose proof Hr as (_ & Hs & _).
  destruct (s_chain_suffix _ _ _ _ Hs Hin) as (sub & H1 & H2 & H3).
  assert (sub = SCell l c t mt sib chi) as ->
    by (apply (repr_functional h); auto).
  simpl in H3. lia.
Qed.

Lemma child_loop_tail chain : ∀ fuel head wch lsib v m i l,
  repr (nodes m) chain → (s_len chain ≤ fuel)%nat →
  (∀ l' c', (l', c') ∈ s_chain chain → Some l' ≠ head) →
  s_chain chain !! i = Some (l, wch) →
  (∀ j l' c', (j < i)%nat → s_chain chain !! j = Some (l', c') → c' ≠ wch) →
  wTrie_child_loop fuel head wch (sroot chain) None lsib (Some v) m
  = Ret (Some l, Some (match i with
                       | O => lsib
                       | S j => fst <$> s_chain chain !! j
                       end)) m.
Proof.
  induction chain as [|l0 c0 t0 mt0 sib IH chi _];
    intros fuel head wch lsib v m i l Hr Hle Hhead Hi Hfirst; [discriminate|].
  simpl in Hr, Hle. destruct Hr as (Hl0 & Hrs & _).
  destruct fuel as [|fuel]; [lia|].
  cbn [sroot wTrie_child_loop].
  run_load Hl0. cbn [wc sibling].
  destruct i as [|i]; simpl in Hi.
  - injection Hi as -> ->. rewrite bool_decide_eq_true_2 by reflexivity.
    apply child_loop_done.
  - assert (c0 ≠ wch) as Hne by (apply (Hfirst O l0 c0); [lia|reflexivity]).
    rewrite (bool_decide_eq_false_2 _ Hne).
    rewrite bool_decide_eq_true_2
      by (apply (Hhead l0 c0), list_elem_of_here).
    rewrite (IH fuel head wch (Some l0) v m i l); auto with lia.
    + destruct i; reflexivity.
    + intros l' c' Hin. apply (Hhead l' c'). now apply list_elem_of_further.
    + intros j l' c' Hj. apply (Hfirst (S j)). lia.
Qed.

(** The lookup on a child list of any length: the first cell carrying the
    symbol is answered, and the previous sibling stored is the cell just
    before it, except that for the second child (as for the head) it is
    [NULL]. *)
Theorem child_lsibling_reported fuel m p pn chain wch v i l :
  nodes m !! p = Some pn → child pn = sroot chain →
  repr (nodes m) chain → (s_len chain ≤ fuel)%nat →
  s_chain chain !! i = Some (l, wch) →
  (∀ j l' c', (j < i)%nat → s_chain chain !! j = Some (l', c') → c' ≠ wch) →
  wTrie_child fuel (Some p) wch (Some v) m
  = Ret (Some l, Some (lsib_reported (s_chain chain) i)) m.
Proof.
  intros Hp Hc Hr Hle Hi Hfirst.
  unfold wTrie_child, PRECONDITION. cbn [is_set].
  run_load Hp. rewrite Hc.
  destruct chain as [|l0 c0 t0 mt0 sib chi]; [discriminate|].
  pose proof Hr as (Hl0 & Hrs & _). simpl in Hle.
  destruct fuel as [|fuel]; [lia|].
  cbn [sroot wTrie_child_loop].
  run_load Hl0. cbn [wc sibling].
  destruct i as [|i]; simpl in Hi.
  - injection Hi as -> ->. rewrite bool_decide_eq_true_2 by reflexivity.
    apply child_loop_done.
  - assert (c0 ≠ wch) as Hne by (apply (Hfirst O l0 c0); [lia|reflexivity]).
    rewrite (bool_decide_eq_false_2 _ Hne).
    rewrite bool_decide_eq_false_2 by (intros H; now apply H).
    rewrite (child_loop_tail sib fuel (Some l0) wch None v m i l); auto with lia.
    + destruct i; reflexivity.
    + intros l' c' Hin [= ->]. eapply head_not_in_siblings; eauto.
    + intros j l' c' Hj. apply (Hfirst (S j)). lia.
Qed.

(** ** Leaf detection on a store holding a tree *)

Lemma hasmultichild_sim h m l c t mt sib chi :
  h = nodes m → repr h (SCell l c t mt sib chi) →
  ∃ b, wTrie_hasmultichild (Some l) m = Ret b m.
Proof.
  intros -> (Hl & _ & Hc). unfold wTrie_hasmultichild, PRECONDITION. cbn [is_set].
  run_load Hl. cbn [child].
  destruct chi as [|l' c' t' mt' sib' chi']; cbn [sroot is_set]; [now exists false|].
  destruct Hc as (Hl' & _).
  run (load_Ret _ _ _ Hl').
  destruct (is_set (sibling _)); eauto.
Qed.

Lemma leaf_loop_none w : ∀ fuel m cur cn chain n leaf parent,
  nodes m !! cur = Some cn → child cn = sroot chain →
  repr (nodes m) chain → (ssize chain ≤ fuel)%nat →
  match w with
  | [] => cur = n ∧ sroot chain ≠ None
  | _ :: _ => s_findword chain w = Some n
  end →
  (∀ nn, nodes m !! n = Some nn → child nn ≠ None) →
  wTrie_leaf_loop fuel (Some n) (Some cur) w leaf parent m = Ret (None, None) m.
Proof.
  induction w as [|c rest IH]; intros fuel m cur cn chain n leaf parent Hp Hc Hr Hle Hw Hn.
  - destruct Hw as [-> Hch]. cbn [wTrie_leaf_loop].
    rewrite bool_decide_eq_true_2 by reflexivity.
    run (child_sim _ _ _ _ (deref []) _ Hp Hc Hr Hle).
    cbn [negb]. rewrite bind_assoc; run_load Hp.
    rewrite Hc. destruct (sroot chain); [reflexivity|congruence].
  - cbn [wTrie_leaf_loop s_findword] in *.
    rewrite (bind_Ret _ _ _ _ _ (child_sim _ _ _ _ (deref (c :: rest)) _ Hp Hc Hr Hle)).
    cbn [deref hd].
    pose proof (repr_s_child _ _ c Hr) as Hrc.
    pose proof (ssize_s_child chain c) as Hsz.
    destruct (s_child chain c) as [|l c' t mt sib chi] eqn:Ech; [discriminate|].
    case_bool_decide as Hfin; cbn [negb].
    + injection Hfin as ->.
      rewrite bind_assoc; run_load Hp.
      pose proof (Hn _ Hp) as Hnn.
      destruct (child cn); [reflexivity|congruence].
    + destruct (hasmultichild_sim _ m _ _ _ _ _ _ eq_refl Hrc) as (b & Hb).
      cbn [sroot]. rewrite bind_assoc; run Hb.
      pose proof Hrc as (Hl & _ & Hrchi). simpl in Hsz.
      assert (Hgo : ∀ leaf' parent',
        wTrie_leaf_loop fuel (Some n) (Some l) rest leaf' parent' m = Ret (None, None) m).
      { intros leaf' parent'.
        apply (IH fuel m l _ chi n leaf' parent' Hl); [reflexivity|exact Hrchi|lia| |exact Hn].
        destruct rest as [|c2 rest2]; cbn [at_end negb andb] in Hw.
        - destruct t; cbn in Hw; [|discriminate]. injection Hw as <-.
          split; [reflexivity|]. pose proof (Hn _ Hl) as Hnn. exact Hnn.
        - rewrite andb_false_r in Hw. exact Hw. }
      destruct b; cbn [negb]; unfold bind, ret; apply Hgo.
Qed.

(** When the terminating node of a stored word has children, [wTrie_leaf]
    answers [NULL] and stores [NULL] as the parent. *)
Theorem leaf_absent_when_endnode_has_children fuel m root rn chain w n nn parent_p :
  holds m root rn chain → (ssize chain ≤ fuel)%nat →
  wTrie_findword fuel (Some root) w m = Ret (Some n) m →
  nodes m !! n = Some nn → child nn ≠ None →
  wTrie_leaf fuel (Some root) w parent_p m = Ret (None, put parent_p None) m.
Proof.
  intros (Hp & Hc & Hr & _) Hle Hfind Hn Hch.
  assert (Hw : w ≠ []) by (intros ->; cbn in Hfind; discriminate).
  unfold wTrie_leaf, PRECONDITION. cbn [is_set].
  destruct w as [|c rest]; [congruence|]. cbn [at_end negb].
  run Hfind. cbn [is_set].
  rewrite (findword_sim _ fuel root rn chain m Hp Hc Hr Hle Hw) in Hfind.
  destruct (s_findword chain (c :: rest)) as [n'|] eqn:Es; [|discriminate].
  injection Hfind as ->.
  rewrite (bind_Ret _ _ _ _ _
    (leaf_loop_none (c :: rest) fuel m root rn chain n None None Hp Hc Hr Hle Es
       ltac:(intros nn' Hn'; congruence))).
  reflexivity.
Qed.

(** ** Lookup with relatives on a store holding a tree *)

Lemma child_loop_sim_any chain : ∀ fuel head wch lsib slot m,
  repr (nodes m) chain → (s_len chain ≤ fuel)%nat →
  ∃ written,
    wTrie_child_loop fuel head wch (sroot chain) None lsib slot m
    = Ret (sroot (s_child chain wch), written) m.
Proof.
  induction chain as [|l c t mt sib IH chi _]; intros fuel head wch lsib slot m Hr Hle.
  - exists slot. destruct fuel; reflexivity.
  - simpl in Hr, Hle. destruct Hr as (Hl & Hrs & _).
    destruct fuel as [|fuel]; [lia|].
    cbn [sroot wTrie_child_loop].
    run_load Hl.
    cbn [wc sibling s_child].
    case_bool_decide.
    + eexists. apply child_loop_done.
    + apply IH; [exact Hrs|lia].
Qed.

Lemma child_sim_any fuel p pn chain wch slot m :
  nodes m !! p = Some pn → child pn = sroot chain →
  repr (nodes m) chain → (ssize chain ≤ fuel)%nat →
  ∃ written,
    wTrie_child fuel (Some p) wch slot m
    = Ret (sroot (s_child chain wch), written) m.
Proof.
  intros Hp Hc Hr Hle. unfold wTrie_child, PRECONDITION. cbn [is_set].
  run_load Hp. rewrite Hc.
  apply child_loop_sim_any; [exact Hr|]. pose proof (s_len_ssize chain). lia.
Qed.

Lemma findword_rel_sim w : ∀ fuel cur cn chain m parent_p lsibling_p n,
  nodes m !! cur = Some cn → child cn = sroot chain →
  repr (nodes m) chain → (ssize chain ≤ fuel)%nat →
  s_findword chain w = Some n →
  ∃ written,
    wTrie_findword_rel fuel (Some cur) w parent_p lsibling_p m
    = Ret (Some n, parent_reported chain w parent_p, written) m.
Proof.
  induction w as [|c rest IH];
    intros fuel cur cn chain m parent_p lsibling_p n Hp Hc Hr Hle Hw; [discriminate|].
  cbn [wTrie_findword_rel s_findword] in *. unfold PRECONDITION. cbn [is_set].
  destruct (child_sim_any fuel cur cn chain c
              (if at_end rest then lsibling_p else None) m Hp Hc Hr Hle)
    as (written & Hchild).
  run Hchild.
  pose proof (repr_s_child _ _ c Hr) as Hrc.
  pose proof (ssize_s_child chain c) as Hsz.
  destruct (s_child chain c) as [|l c' t mt sib chi] eqn:Ech; [discriminate|].
  pose proof Hrc as (Hl & _ & Hrchi). simpl in Hsz.
  cbn [sroot is_set]. run_load Hl. cbn [term].
  destruct rest as [|c2 rest2]; cbn [at_end negb tl] in *.
  - destruct t; cbn [andb] in *; [|discriminate]. injection Hw as <-.
    eexists. reflexivity.
  - rewrite andb_false_r in *.
    destruct rest2 as [|c3 rest3]; cbn [at_end].
    + destruct (IH fuel l _ chi m (Some (Some l)) (Some None) n Hl eq_refl Hrchi
                  ltac:(lia) Hw) as (written' & Hin).
      run Hin. cbn [is_set parent_reported default].
      eexists. cbn [removelast s_at at_end]. rewrite Ech. reflexivity.
    + destruct (IH fuel l _ chi m parent_p lsibling_p n Hl eq_refl Hrchi
                  ltac:(lia) Hw) as (written' & Hin).
      rewrite Hin. exists written'. do 3 f_equal.
      cbn [parent_reported removelast s_at at_end]. rewrite Ech. reflexivity.
Qed.

(** For a stored word [wTrie_findword_rel] answers the terminating node,
    and a parent variable receives the node before it on the path when the
    word has two characters or more. *)
Theorem findword_rel_reports fuel m root rn chain w n parent_p lsibling_p :
  holds m root rn chain → (ssize chain ≤ fuel)%nat →
  wTrie_findword fuel (Some root) w m = Ret (Some n) m →
  ∃ written,
    wTrie_findword_rel fuel (Some root) w parent_p lsibling_p m
    = Ret (Some n, parent_reported chain w parent_p, written) m.
Proof.
  intros (Hp & Hc & Hr & _) Hle Hfind.
  assert (Hw : w ≠ []) by (intros ->; cbn in Hfind; discriminate).
  rewrite (findword_sim _ fuel root rn chain m Hp Hc Hr Hle Hw) in Hfind.
  destruct (s_findword chain w) as [n'|] eqn:Es; [|discriminate].
  injection Hfind as ->. eapply findword_rel_sim; eauto.
Qed.

(** ** Insertion on a store holding a tree *)

Lemma store_Ret l n f m :
  nodes m !! l = Some n →
  store (Some l) f m = Ret () (with_nodes (<[l := f n]> (nodes m)) m).
Proof. intros H. unfold store. now rewrite H. Qed.

Lemma init_Ret l n wc0 t mt m :
  nodes m !! l = Some n →
  wTrie_init (Some l) wc0 t mt 0 m
  = Ret true (with_nodes (<[l := mk_wTrie wc0 None None t mt]> (nodes m)) m).
Proof.
  intros H. unfold wTrie_init, PRECONDITION. cbn [is_set N.ltb N.compare].
  run (store_Ret _ _ _ _ H).
  repeat (erewrite bind_Ret by (eapply store_Ret; cbn [nodes with_nodes]; apply lookup_insert_eq)).
  unfold ret, with_nodes. cbn. rewrite !insert_insert_eq. reflexivity.
Qed.

Lemma spawn_new fuel m cur cn chain wch t :
  holds m cur cn chain → (ssize chain ≤ fuel)%nat →
  s_child chain wch = SNil →
  wTrie_spawn fuel false (Some cur) wch t None 0 m
  = Ret (Some (brk m))
      (mk_mem (<[cur := set_child (Some (brk m)) cn]>
                 (<[brk m := mk_wTrie wch (sroot chain) None t None]> (nodes m)))
         (blobs m) (Pos.succ (brk m)) (errno m) (freed m)).
Proof.
  intros (Hp & Hc & Hr & Hnd & Hb) Hle Hch.
  unfold wTrie_spawn, PRECONDITION. cbn [is_set].
  run (child_sim _ _ _ _ wch _ Hp Hc Hr Hle).
  rewrite Hch. cbn [sroot].
  assert (Hne : brk m ≠ cur).
  { apply Forall_cons in Hb as [Hb _]. lia. }
  erewrite bind_Ret by reflexivity.
  erewrite bind_Ret by (eapply init_Ret; cbn; apply lookup_insert_eq).
  erewrite bind_Ret
    by (apply load_Ret; cbn;
        rewrite insert_insert_eq, lookup_insert_ne by exact Hne; exact Hp).
  rewrite Hc.
  destruct (sroot chain) as [s|] eqn:Es; cbn [is_set].
  - erewrite bind_Ret by (eapply store_Ret; cbn; apply lookup_insert_eq).
    erewrite bind_Ret
      by (eapply store_Ret; cbn;
          rewrite !insert_insert_eq, lookup_insert_ne by exact Hne; exact Hp).
    unfold ret, with_nodes. cbn. rewrite !insert_insert_eq. reflexivity.
  - erewrite bind_Ret by reflexivity.
    erewrite bind_Ret
      by (eapply store_Ret; cbn;
          rewrite !insert_insert_eq, lookup_insert_ne by exact Hne; exact Hp).
    unfold ret, with_nodes. cbn. rewrite !insert_insert_eq. reflexivity.
Qed.

Lemma spawn_old fuel m cur cn chain wch t l c t0 mt0 sib chi :
  holds m cur cn chain → (ssize chain ≤ fuel)%nat →
  s_child chain wch = SCell l c t0 mt0 sib chi →
  wTrie_spawn fuel false (Some cur) wch t None 0 m
  = Ret (Some l)
      (with_nodes (<[l := mk_wTrie c (sroot sib) (sroot chi) t None]> (nodes m)) m).
Proof.
  intros (Hp & Hc & Hr & Hnd & Hb) Hle Hch.
  unfold wTrie_spawn, PRECONDITION. cbn [is_set].
  run (child_sim _ _ _ _ wch _ Hp Hc Hr Hle).
  pose proof (repr_s_child _ _ wch Hr) as Hrc.
  rewrite Hch in *. cbn [sroot]. simpl in Hrc. destruct Hrc as (Hl & _).
  erewrite bind_Ret by (eapply store_Ret; exact Hl).
  erewrite bind_Ret by (eapply store_Ret; cbn; apply lookup_insert_eq).
  unfold ret, with_nodes. cbn. rewrite !insert_insert_eq. reflexivity.
Qed.

Lemma repr_s_enter h h' wch t mt k chain l c t0 mt0 sib chi :
  repr h chain → NoDup (addrs chain) →
  s_child chain wch = SCell l c t0 mt0 sib chi →
  h' !! l = Some (mk_wTrie c (sroot sib) (sroot (k chi)) t mt) →
  repr h' (k chi) →
  (∀ x, x ∈ addrs chain → x ≠ l → x ∉ addrs chi → h' !! x = h !! x) →
  repr h' (s_enter wch t mt k chain).
Proof.
  induction chain as [|l0 c0 t1 mt1 sib0 IH chi0 _]; simpl; [discriminate|].
  intros (Hl0 & Hrs & Hrc) Hnd.
  apply NoDup_cons in Hnd as [Hl Hnd].
  apply NoDup_app in Hnd as (Hns & Hsc & Hnc).
  apply not_elem_of_app in Hl as [Hls Hlc].
  case_bool_decide as Hc; simpl.
  - intros [= -> -> _ _ -> ->] Hl' Hk Hf. split; [exact Hl'|]. split; [|exact Hk].
    eapply repr_frame; [|exact Hrs]. intros x Hx. apply Hf.
    + apply list_elem_of_further, elem_of_app. now left.
    + intros ->. contradiction.
    + now apply Hsc.
  - intros Hch Hl' Hk Hf.
    assert (Hin : ∀ x, x ∈ l :: addrs chi → x ∈ addrs sib0).
    { intros x Hx. apply (addrs_s_child _ wch). rewrite Hch. simpl.
      apply elem_of_cons in Hx as [->|Hx]; [apply list_elem_of_here|].
      apply list_elem_of_further, elem_of_app. now right. }
    rewrite sroot_s_enter. split; [|split].
    + rewrite Hf; [exact Hl0|apply list_elem_of_here| |].
      * intros ->. apply Hls, Hin, list_elem_of_here.
      * intros Hx. apply Hls, Hin. now apply list_elem_of_further.
    + apply IH; auto. intros x Hx. apply Hf.
      apply list_elem_of_further, elem_of_app. now left.
    + eapply repr_frame; [|exact Hrc]. intros x Hx. apply Hf.
      * apply list_elem_of_further, elem_of_app. now right.
      * intros ->. eapply Hsc; [apply Hin, list_elem_of_here|exact Hx].
      * intros Hx'. eapply Hsc; [apply Hin, list_elem_of_further, Hx'|exact Hx].
Qed.

Lemma bind_ret_r {A} (c : M A) m : bind c (λ a, ret a) m = c m.
Proof. unfold bind, ret. now destruct (c m). Qed.

Lemma addword_cons fuel cur c rest m :
  wTrie_addword fuel (Some cur) (c :: rest) m
  = bind (wTrie_spawn fuel false (Some cur) c (at_end rest) None 0)
         (λ p, addword_rest fuel p rest) m.
Proof.
  unfold addword_rest. destruct rest as [|c2 rest]; cbn [wTrie_addword at_end negb];
    unfold PRECONDITION; cbn [is_set]; [|reflexivity].
  symmetry. apply (bind_ret_r (wTrie_spawn fuel false (Some cur) c true None 0)).
Qed.

Lemma set_child_id cn p : child cn = p → set_child p cn = cn.
Proof. intros <-. now destruct cn. Qed.

Lemma holds_fresh_NoDup m cur cn chain v :
  holds m cur cn chain →
  NoDup (cur :: addrs (s_addword (brk m) chain v)).
Proof.
  intros (_ & _ & _ & Hnd & Hb).
  apply NoDup_cons in Hnd as [Hc Hnd]. apply Forall_cons in Hb as [Hbc Hb].
  apply NoDup_cons. split.
  - intros Hx. apply s_addword_fresh in Hx as [Hx|Hx]; [contradiction|lia].
  - now apply s_addword_NoDup.
Qed.

Lemma addword_rest_sim v : ∀ fuel m cur cn chain,
  holds m cur cn chain → (ssize chain ≤ fuel)%nat →
  ∃ r m',
    addword_rest fuel (Some cur) v m = Ret (Some r) m'
    ∧ holds m' cur (set_child (sroot (s_addword (brk m) chain v)) cn)
        (s_addword (brk m) chain v)
    ∧ (brk m ≤ brk m')%positive
    ∧ (∀ x, x ≠ cur → x ∉ addrs chain → (x < brk m)%positive →
            nodes m' !! x = nodes m !! x)
    ∧ match v with
      | [] => r = cur
      | _ :: _ => s_findword (s_addword (brk m) chain v) v = Some r
      end.
Proof.
  induction v as [|c rest IH]; intros fuel m cur cn chain Hh Hle.
  - exists cur, m. destruct Hh as (Hp & Hc & Hr & Hnd & Hb).
    cbn [s_addword]. rewrite (set_child_id _ _ Hc).
    split; [reflexivity|]. split; [repeat split; auto|]. split; [lia|auto].
  - pose proof (holds_fresh_NoDup _ _ _ _ (c :: rest) Hh) as Hnd'.
    pose proof Hh as (Hp & Hc & Hr & Hnd & Hb).
    apply NoDup_cons in Hnd as [Hcur Hnd]. apply Forall_cons in Hb as [Hbc Hb].
    unfold addword_rest at 1. cbn [at_end]. rewrite addword_cons.
    cbn [s_addword] in *.
    destruct (s_child chain c) as [|l c' t0 mt0 sib chi] eqn:Ech.
    + (* a new node *)
      run (spawn_new _ _ _ _ _ c (at_end rest) Hh Hle Ech).
      set (l := brk m) in *.
      set (ln := mk_wTrie c (sroot chain) None (at_end rest) None).
      set (m1 := mk_mem _ _ _ _ _).
      assert (Hl1 : nodes m1 !! l = Some ln).
      { cbn. rewrite lookup_insert_ne by lia. apply lookup_insert_eq. }
      assert (Hf1 : ∀ x, x ≠ cur → x ≠ l → nodes m1 !! x = nodes m !! x).
      { intros x H1 H2. cbn. now rewrite !lookup_insert_ne by congruence. }
      destruct (IH fuel m1 l ln SNil) as (r & m2 & Hrun & Hh2 & Hbrk & Hf2 & Hres).
      { repeat split; auto.
        - apply NoDup_singleton.
        - apply Forall_singleton. cbn. lia. }
      { simpl. lia. }
      exists r, m2. split; [exact Hrun|].
      destruct Hh2 as (Hp2 & Hc2 & Hr2 & _ & Hb2).
      apply Forall_cons in Hb2 as [Hbl2 Hb2].
      cbn [brk m1] in *. fold l in Hbrk, Hb2, Hbl2.
      assert (Hf : ∀ x, x ≠ cur → (x < l)%positive → nodes m2 !! x = nodes m !! x).
      { intros x H1 H2. rewrite Hf2; [apply Hf1; [exact H1|lia]|lia|apply not_elem_of_nil|lia]. }
      split; [|split; [lia|]].
      * split; [|split; [reflexivity|split; [|split; [exact Hnd'|]]]].
        -- rewrite Hf2; [|lia|apply not_elem_of_nil|lia].
           cbn. apply lookup_insert_eq.
        -- cbn [repr]. split; [exact Hp2|]. split; [|exact Hr2].
           eapply repr_frame; [|exact Hr]. intros x Hx.
           pose proof (below_elem _ _ _ Hb Hx).
           apply Hf; [|lia]. intros ->. contradiction.
        -- apply Forall_cons. split; [lia|]. cbn [addrs].
           apply Forall_cons. split; [lia|]. apply Forall_app. split.
           ++ eapply Forall_impl; [exact Hb|]. cbn. intros; lia.
           ++ exact Hb2.
      * split; [intros x H1 _ H2; now apply Hf|].
        cbn [s_findword s_child]. rewrite bool_decide_eq_true_2 by reflexivity.
        destruct rest; cbn [at_end andb negb]; [now subst r|exact Hres].
    + (* an existing node, overwritten *)
      run (spawn_old _ _ _ _ _ c (at_end rest) _ _ _ _ _ _ Hh Hle Ech).
      set (ln := mk_wTrie c' (sroot sib) (sroot chi) (at_end rest) None).
      set (m1 := with_nodes _ m).
      pose proof (NoDup_s_child _ c Hnd) as Hndc. rewrite Ech in Hndc.
      cbn [addrs] in Hndc. apply NoDup_cons in Hndc as [Hlc Hndc].
      apply NoDup_app in Hndc as (_ & _ & Hndchi).
      apply not_elem_of_app in Hlc as [_ Hlchi].
      assert (Hin : ∀ x, x ∈ l :: addrs chi → x ∈ addrs chain).
      { intros x Hx. apply (addrs_s_child _ c). rewrite Ech. cbn [addrs].
        apply elem_of_cons in Hx as [->|Hx]; [apply list_elem_of_here|].
        apply list_elem_of_further, elem_of_app. now right. }
      assert (Hlcur : l ≠ cur).
      { intros ->. apply Hcur, Hin, list_elem_of_here. }
      assert (Hf1 : ∀ x, x ≠ l → nodes m1 !! x = nodes m !! x).
      { intros x H1. cbn. now rewrite lookup_insert_ne by congruence. }
      destruct (IH fuel m1 l ln chi) as (r & m2 & Hrun & Hh2 & Hbrk & Hf2 & Hres).
      { split; [cbn; apply lookup_insert_eq|]. split; [reflexivity|]. split.
        - pose proof (repr_s_child _ _ c Hr) as Hrc. rewrite Ech in Hrc.
          destruct Hrc as (_ & _ & Hrc).
          eapply repr_frame; [|exact Hrc]. intros x Hx. apply Hf1.
          intros ->. contradiction.
        - split.
          + apply NoDup_cons. now split.
          + unfold below. rewrite Forall_forall. intros x Hx.
            apply (below_elem _ _ _ Hb), Hin, Hx. }
      { pose proof (ssize_s_child chain c) as Hsz. rewrite Ech in Hsz.
        simpl in Hsz. lia. }
      exists r, m2. split; [exact Hrun|].
      destruct Hh2 as (Hp2 & Hc2 & Hr2 & _ & Hb2).
      apply Forall_cons in Hb2 as [Hbl2 Hb2].
      cbn [brk m1 with_nodes] in *.
      assert (Hf : ∀ x, x ≠ l → x ∉ addrs chi → (x < brk m)%positive →
                        nodes m2 !! x = nodes m !! x).
      { intros x H1 H2 H3. rewrite Hf2; auto. }
      split; [|split; [lia|]].
      * split; [|split; [reflexivity|split; [|split; [exact Hnd'|]]]].
        -- rewrite sroot_s_enter, (set_child_id _ _ Hc).
           rewrite Hf; auto. intros Hx. apply Hcur, Hin. now apply list_elem_of_further.
        -- eapply (repr_s_enter (nodes m)); eauto.
           intros x Hx H1 H2. apply Hf; auto. apply (below_elem _ _ _ Hb Hx).
        -- apply Forall_cons. split; [lia|]. rewrite Forall_forall. intros x Hx.
           eapply addrs_s_enter in Hx as [Hx|Hx]; [|exact (below_elem _ _ _ Hb2 Hx)|exact Ech].
           pose proof (below_elem _ _ _ Hb Hx). lia.
      * split.
        -- intros x H1 H2 H3. apply Hf; auto.
           ++ intros ->. apply H2, Hin, list_elem_of_here.
           ++ intros Hx. apply H2, Hin. now apply list_elem_of_further.
        -- cbn [s_findword]. rewrite (s_child_s_enter _ _ _ _ _ _ _ _ _ _ _ Ech).
           destruct rest; cbn [at_end andb negb]; [now subst r|exact Hres].
Qed.

(** ** Insertion unsets the prefixes of the word *)

Lemma at_end_app rest u : u ≠ [] → at_end (rest ++ u) = false.
Proof. intros Hu. destruct rest, u; simpl; congruence. Qed.

Lemma s_addword_unsets w : ∀ nx chain u n,
  u ≠ [] → sroot (s_at chain w) = Some n →
  (∃ c sib chi, s_at (s_addword nx chain (w ++ u)) w = SCell n c false None sib chi)
  ∧ s_findword (s_addword nx chain (w ++ u)) w = None.
Proof.
  induction w as [|c rest IH]; intros nx chain u n Hu Hat; [discriminate|].
  cbn [s_at app s_addword s_findword] in *.
  destruct (s_child chain c) as [|l c' t mt sib chi] eqn:Ech; [discriminate|].
  rewrite (s_child_s_enter _ _ _ _ _ _ _ _ _ _ _ Ech).
  rewrite (at_end_app _ _ Hu). cbn [andb].
  destruct rest as [|c2 rest2]; cbn [at_end negb] in *.
  - injection Hat as <-. split; [eauto|reflexivity].
  - now apply IH.
Qed.

Lemma s_findword_at w : ∀ chain n,
  s_findword chain w = Some n → sroot (s_at chain w) = Some n.
Proof.
  induction w as [|c rest IH]; intros chain n; cbn [s_findword s_at]; [discriminate|].
  destruct (s_child chain c) as [|l c' t mt sib chi]; [discriminate|].
  destruct rest as [|c2 rest2]; cbn [at_end negb].
  - destruct t; cbn [andb]; [now intros [= <-]|discriminate].
  - rewrite andb_false_r. apply IH.
Qed.

Lemma repr_s_at h w : ∀ chain, repr h chain → repr h (s_at chain w).
Proof.
  induction w as [|c rest IH]; intros chain Hr; cbn [s_at]; [exact I|].
  pose proof (repr_s_child _ _ c Hr) as Hrc.
  destruct (s_child chain c) as [|l c' t mt sib chi]; [exact I|].
  destruct (at_end rest); [exact Hrc|]. apply IH. apply Hrc.
Qed.

Section enter_size.
Variables (k : shape → shape) (d : nat) (wch : Z) (t : bool) (mt : ptr).
Hypothesis k_size : ∀ chi, (ssize (k chi) ≤ ssize chi + d)%nat.

Lemma ssize_s_enter chain :
  (ssize (s_enter wch t mt k chain) ≤ ssize chain + d)%nat.
Proof.
  induction chain as [|l0 c0 t0 mt0 sib0 IHs chi0 _]; simpl; [lia|].
  case_bool_decide; simpl; [pose proof (k_size chi0)|]; lia.
Qed.
End enter_size.

Lemma ssize_s_addword v : ∀ nx chain,
  (ssize (s_addword nx chain v) ≤ ssize chain + length v)%nat.
Proof.
  induction v as [|c rest IH]; intros nx chain; cbn [s_addword length]; [lia|].
  destruct (s_child chain c).
  - cbn [ssize]. pose proof (IH (Pos.succ nx) SNil). simpl in *. lia.
  - pose proof (ssize_s_enter (λ chi, s_addword nx chi rest) (length rest) c
                  (at_end rest) None (IH nx) chain). lia.
Qed.

(** [wTrie_addword] on a store holding a tree returns, and the store then
    holds the tree with the word added. *)
Lemma addword_sim fuel m cur cn chain v :
  holds m cur cn chain → (ssize chain ≤ fuel)%nat → v ≠ [] →
  ∃ r m',
    wTrie_addword fuel (Some cur) v m = Ret (Some r) m'
    ∧ holds m' cur (set_child (sroot (s_addword (brk m) chain v)) cn)
        (s_addword (brk m) chain v)
    ∧ s_findword (s_addword (brk m) chain v) v = Some r.
Proof.
  intros Hh Hle Hv.
  destruct (addword_rest_sim v _ _ _ _ _ Hh Hle)
    as (r & m' & Hrun & Hh' & _ & _ & Hres).
  exists r, m'. unfold addword_rest in Hrun.
  destruct v; [congruence|]. split; [exact Hrun|]. split; [exact Hh'|exact Hres].
Qed.

(** The root [main] makes is a trie without words. *)
Lemma new_root_holds :
  ∃ m rn, new_root mem0 = Ret (Some l_root) m ∧ holds m l_root rn SNil.
Proof.
  eexists _, _. split; [vm_compute; reflexivity|].
  split; [vm_compute; reflexivity|]. split; [reflexivity|]. split; [exact I|].
  split; [apply NoDup_singleton|]. apply Forall_singleton. vm_compute. reflexivity.
Qed.

(** Every trie built by insertions is a tree under the root. *)
Lemma built_holds m : built m → ∃ rn chain, holds m l_root rn chain.
Proof.
  induction 1 as [m Hroot|m v r m' _ (rn & chain & Hh) (enough & Hrun)].
  - destruct new_root_holds as (m0 & rn & Hroot0 & Hh).
    rewrite Hroot in Hroot0. injection Hroot0 as ->. eauto.
  - destruct v as [|c rest].
    + specialize (Hrun enough (Nat.le_refl _)). cbn in Hrun.
      injection Hrun as _ <-. exists rn, chain. exact Hh.
    + set (fuel := (enough `max` ssize chain)%nat).
      destruct (addword_sim fuel m l_root rn chain (c :: rest) Hh
                  (Nat.le_max_r _ _) ltac:(discriminate))
        as (r0 & m0 & Hrun0 & Hh0 & _).
      rewrite (Hrun fuel (Nat.le_max_l _ _)) in Hrun0. injection Hrun0 as _ ->.
      eauto.
Qed.

(** C5: on a store holding a tree under the root, [wTrie_addword] of
    [w ++ u] with [u] not empty returns; every node that was there on the
    path of [w] (all but the last character of the word added) then has
    its terminating flag unset and its payload [NULL]; so a [w] that
    [wTrie_findword] found before is afterwards answered [NULL] with
    [errno] set to [I_WTRIE_NOSUCHWORD]. *)
Theorem addword_unsets_prefix fuel m root rn chain w u :
  holds m root rn chain → u ≠ [] →
  (ssize chain + length (w ++ u) ≤ fuel)%nat →
  ∃ r m',
    wTrie_addword fuel (Some root) (w ++ u) m = Ret (Some r) m'
    ∧ (∀ n, sroot (s_at chain w) = Some n →
         ∃ nn, nodes m' !! n = Some nn ∧ term nn = false ∧ meta nn = None)
    ∧ (∀ n m1, wTrie_findword fuel (Some root) w m = Ret (Some n) m1 →
         (∃ nn, nodes m' !! n = Some nn ∧ term nn = false ∧ meta nn = None)
         ∧ wTrie_findword fuel (Some root) w m'
           = Ret None (with_errno I_WTRIE_NOSUCHWORD m')).
Proof.
  intros Hh Hu Hle.
  assert (Hv : w ++ u ≠ []) by (destruct w, u; simpl; congruence).
  destruct (addword_sim fuel _ _ _ _ (w ++ u) Hh ltac:(lia) Hv)
    as (r & m' & Hrun & Hh' & _).
  exists r, m'. split; [exact Hrun|].
  destruct Hh' as (Hp' & Hc' & Hr' & _).
  assert (Hnode : ∀ n, sroot (s_at chain w) = Some n →
            (∃ nn, nodes m' !! n = Some nn ∧ term nn = false ∧ meta nn = None)
            ∧ s_findword (s_addword (brk m) chain (w ++ u)) w = None).
  { intros n Hat.
    destruct (s_addword_unsets w (brk m) chain u n Hu Hat) as ((c & sib & chi & E) & Hf).
    split; [|exact Hf].
    pose proof (repr_s_at _ w _ Hr') as Hra. rewrite E in Hra.
    destruct Hra as (Hn & _). eauto. }
  split; [intros n Hat; apply (Hnode n Hat)|].
  intros n m1 Hfind.
  destruct Hh as (Hp & Hc & Hr & _).
  assert (Hw : w ≠ []).
  { intros ->. cbn in Hfind. discriminate. }
  rewrite (findword_sim w fuel root rn chain m Hp Hc Hr ltac:(lia) Hw) in Hfind.
  destruct (s_findword chain w) as [n'|] eqn:Es; [|discriminate].
  injection Hfind as -> _.
  destruct (Hnode n (s_findword_at _ _ _ Es)) as [Hn Hf].
  split; [exact Hn|].
  pose proof (ssize_s_addword (w ++ u) (brk m) chain) as Hsz.
  rewrite (findword_sim w fuel root _ _ m' Hp' Hc' Hr' ltac:(lia) Hw).
  now rewrite Hf.
Qed.

(** The theorem at the trie holding "do", to which "dog" is added. *)
Lemma addword_unsets_prefix_witness :
  ∃ r m' nn,
    wTrie_addword 8 (Some l_root) w_dog m_do = Ret (Some r) m'
    ∧ nodes m' !! l_2 = Some nn ∧ term nn = false ∧ meta nn = None
    ∧ wTrie_findword 8 (Some l_root) w_do m'
      = Ret None (with_errno I_WTRIE_NOSUCHWORD m').
Proof.
  destruct (addword_unsets_prefix 8 m_do l_root root_do chain_do w_do [ch_g])
    as (r & m' & Hrun & _ & Hstored).
  - split; [vm_compute; reflexivity|]. split; [reflexivity|].
    split; [vm_compute; repeat split; reflexivity|].
    split; apply (bool_decide_unpack _); vm_compute; exact I.
  - discriminate.
  - simpl. lia.
  - destruct (Hstored l_2 m_do) as ((nn & Hn & Ht & Hm) & Hfind).
    + vm_compute. reflexivity.
    + exists r, m', nn. repeat split; assumption.
Defined.

Lemma s_findword_cell w : ∀ chain n,
  s_findword chain w = Some n →
  ∃ c mt sib chi, s_at chain w = SCell n c true mt sib chi ∧ last w = Some c.
Proof.
  induction w as [|c rest IH]; intros chain n; cbn [s_findword s_at]; [discriminate|].
  destruct (s_child chain c) as [|l c' t mt sib chi] eqn:Ech; [discriminate|].
  apply s_child_wc in Ech as ->.
  destruct rest as [|c2 rest2]; cbn [at_end negb].
  - destruct t; cbn [andb]; [|discriminate]. intros [= <-]. eauto 6.
  - rewrite andb_false_r. intros H. apply IH in H as (c0 & mt0 & sib0 & chi0 & E & El).
    exists c0, mt0, sib0, chi0. split; [exact E|exact El].
Qed.

(** The first half of the round trip: a word added to a trie is found, at
    the node [wTrie_addword] answered, which carries the word's last
    character and is terminating. *)
Theorem addword_then_findword fuel m root rn chain v :
  holds m root rn chain → v ≠ [] →
  (ssize chain + length v ≤ fuel)%nat →
  ∃ r m' nn,
    wTrie_addword fuel (Some root) v m = Ret (Some r) m'
    ∧ wTrie_findword fuel (Some root) v m' = Ret (Some r) m'
    ∧ nodes m' !! r = Some nn ∧ term nn = true ∧ last v = Some (wc nn).
Proof.
  intros Hh Hv Hle.
  destruct (addword_sim fuel _ _ _ _ v Hh ltac:(lia) Hv)
    as (r & m' & Hrun & (Hp' & Hc' & Hr' & _) & Hres).
  pose proof (ssize_s_addword v (brk m) chain) as Hsz.
  destruct (s_findword_cell _ _ _ Hres) as (c & mt & sib & chi & E & El).
  pose proof (repr_s_at _ v _ Hr') as Hra. rewrite E in Hra. destruct Hra as (Hn & _).
  eexists r, m', _. split; [exact Hrun|]. split.
  - rewrite (findword_sim v fuel root _ _ m' Hp' Hc' Hr' ltac:(lia) Hv).
    now rewrite Hres.
  - split; [exact Hn|]. split; [reflexivity|exact El].
Qed.

(** ** The scenarios of the specification, run *)

(** C1, on the code: with only "dog" stored, [wTrie_rmword] succeeds and
    releases the three nodes of the word, but [wTrie_collapse] relinks the
    parent only when the removed child has a sibling, so the root's [child]
    still holds the location of the released 'd' node. *)
Theorem rmword_only_word_leaves_dangling_child :
  ∃ m rn,
    (do r <- new_root;
     wTrie_addword 8 r w_dog ;;
     wTrie_rmword 8 r w_dog) mem0 = Ret true m
    ∧ freed m = [l_1; l_2; l_3]
    ∧ nodes m !! l_1 = None ∧ nodes m !! l_2 = None ∧ nodes m !! l_3 = None
    ∧ nodes m !! l_root = Some rn
    ∧ child rn = Some l_1.
Proof.
  eexists _, _. split; [vm_compute; reflexivity|].
  repeat split; vm_compute; reflexivity.
Qed.

(** C2, on the code: with "dog" stored and then "do", [wTrie_leaf] for
    "dog" answers the 'd' node with the root as parent, although the 'o'
    node of that chain is the terminating node of "do"; removing "dog"
    then releases it. *)
Theorem leaf_chain_holds_other_terminal :
  ∃ m m' dn,
    (do r <- new_root;
     wTrie_addword 8 r w_dog ;;
     wTrie_addword 8 r w_do) mem0 = Ret (Some l_2) m
    ∧ wTrie_findword 8 (Some l_root) w_do m = Ret (Some l_2) m
    ∧ wTrie_findword 8 (Some l_root) w_dog m = Ret (Some l_3) m
    ∧ wTrie_leaf 8 (Some l_root) w_dog (Some None) m
      = Ret (Some l_1, Some (Some l_root)) m
    ∧ nodes m !! l_1 = Some dn ∧ child dn = Some l_2
    ∧ wTrie_rmword 8 (Some l_root) w_dog m = Ret true m'
    ∧ freed m' = [l_1; l_2; l_3]
    ∧ wTrie_findword 8 (Some l_root) w_do m' = Fault.
Proof.
  eexists _, _, _. split; [vm_compute; reflexivity|].
  repeat split; vm_compute; reflexivity.
Qed.



(** C4, on the code: "a" inserted into the empty trie is found at its
    terminating node and [wTrie_rmword] succeeds, but the root keeps the
    location of the released node as its child, and the next
    [wTrie_findword] reads through it instead of failing with NoSuchWord. *)
Theorem roundtrip_find_after_rmword_faults :
  ∃ m n m',
    (do r <- new_root;
     wTrie_addword 8 r w_a ;;
     wTrie_findword 8 r w_a) mem0 = Ret (Some l_1) m
    ∧ nodes m !! l_1 = Some n ∧ wc n = ch_a ∧ term n = true
    ∧ wTrie_rmword 8 (Some l_root) w_a m = Ret true m'
    ∧ wTrie_findword 8 (Some l_root) w_a m' = Fault.
Proof.
  eexists _, _, _. split; [vm_compute; reflexivity|].
  repeat split; vm_compute; reflexivity.
Qed.

(** C6, on the code: under a parent whose child list is 'a', 'b',
    [wTrie_child] for 'b' answers the 'b' node and stores [NULL] as its
    previous sibling, not the 'a' node. *)
Theorem child_second_reports_no_lsibling :
  ∃ m rn an,
    (do r <- new_root;
     wTrie_addword 8 r w_b ;;
     wTrie_addword 8 r w_a) mem0 = Ret (Some l_2) m
    ∧ nodes m !! l_root = Some rn ∧ child rn = Some l_2
    ∧ nodes m !! l_2 = Some an ∧ wc an = ch_a ∧ sibling an = Some l_1
    ∧ wTrie_child 8 (Some l_root) ch_b (Some (Some l_root)) m
      = Ret (Some l_1, Some None) m.
Proof.
  eexists _, _, _. split; [vm_compute; reflexivity|].
  repeat split; vm_compute; reflexivity.
Qed.

(** C10, on the code: for the stored one-character word "a",
    [wTrie_findword_rel] answers the terminating node and leaves the
    parent variable as the caller set it; the root is not reported. *)
Theorem findword_rel_single_leaves_parent (v : ptr) :
  ∃ m,
    (do r <- new_root; wTrie_addword 8 r w_a) mem0 = Ret (Some l_1) m
    ∧ wTrie_findword_rel 8 (Some l_root) w_a (Some v) (Some None) m
      = Ret (Some l_1, Some v, Some None) m.
Proof.
  eexists. split; [vm_compute; reflexivity|].
  vm_compute; reflexivity.
Qed.

(** ** Lookup only reads *)

Lemma findword_reads w : ∀ fuel wtr m r m',
  wTrie_findword fuel wtr w m = Ret r m' →
  m' = with_errno (errno m') m
  ∧ match r with
    | None => True
    | Some l => m' = m ∧ ∃ n, nodes m !! l = Some n ∧ term n = true
                              ∧ last w = Some (wc n)
    end.
Proof.
  induction w as [|c rest IH]; intros fuel wtr m r m' H;
    destruct wtr as [p|];
    try (cbv [wTrie_findword PRECONDITION is_set bind set_errno ret] in H;
         injection H as <- <-; now destruct m).
  cbn [wTrie_findword] in H. unfold PRECONDITION in H. cbn [is_set] in H.
  - 
    apply bind_inv in H as ([child0 sl] & m1 & Hch & H).
    apply child_inv in Hch as [-> Hfound].
    destruct child0 as [l|]; cbn [is_set] in H.
    + apply bind_inv in H as (cn & m1 & Hl & H).
      apply load_inv in Hl as [-> (l' & [= <-] & Hn)].
      destruct (term cn) eqn:Et, rest as [|c2 rest2]; cbn [andb at_end negb] in H.
      * injection H as <- <-. split; [now destruct m|]. split; [reflexivity|].
        destruct Hfound as [?|(l' & n' & [= <-] & Hn' & Hwc)]; [discriminate|].
        rewrite Hn in Hn'. injection Hn' as <-. exists cn. now rewrite Hwc.
      * apply IH in H as [H1 H2]. split; [exact H1|].
        destruct r; [|exact I]. destruct H2 as (-> & n & ? & ? & ?). eauto.
      * injection H as <- <-. now destruct m.
      * apply IH in H as [H1 H2]. split; [exact H1|].
        destruct r; [|exact I]. destruct H2 as (-> & n & ? & ? & ?). eauto.
    + injection H as <- <-. now destruct m.
Qed.

(** [wTrie_findword] changes nothing but [errno], and a node it answers is
    a live terminating node carrying the last character of the word. *)
Theorem findword_only_reads fuel wtr w m r m' :
  wTrie_findword fuel wtr w m = Ret r m' →
  m' = with_errno (errno m') m
  ∧ match r with
    | None => True
    | Some l => m' = m ∧ ∃ n, nodes m !! l = Some n ∧ term n = true
                              ∧ last w = Some (wc n)
    end.
Proof. apply findword_reads. Qed.

(** Removing a word that [wTrie_findword] does not find (it is not stored,
    it is empty, or there is no root) fails with [E_WTRIE_NOSUCHWORD] and
    changes nothing else. *)
Theorem rmword_of_missing_word fuel wtr w m m1 :
  wTrie_findword fuel wtr w m = Ret None m1 →
  wTrie_rmword fuel wtr w m = Ret false (with_errno E_WTRIE_NOSUCHWORD m).
Proof.
  intros H. unfold wTrie_rmword. run H.
  apply findword_reads in H as [-> _]. reflexivity.
Qed.

(** ** Insertion of a bounded prefix *)

Lemma addnword_take wstring : ∀ fuel wtr n m,
  1 ≤ n →
  wTrie_addnword fuel wtr wstring n m
  = wTrie_addword fuel wtr (take (Z.to_nat n) wstring) m.
Proof.
  induction wstring as [|c rest IH]; intros fuel wtr n m Hn.
  - rewrite take_nil. reflexivity.
  - replace (Z.to_nat n) with (S (Z.to_nat (n - 1))) by lia.
    cbn [take wTrie_addnword wTrie_addword].
    destruct wtr as [p|]; unfold PRECONDITION; cbn [is_set]; [|reflexivity].
    rewrite (proj2 (Z.leb_le 1 n) Hn).
    destruct rest as [|c2 rest2].
    + rewrite take_nil. reflexivity.
    + cbn [at_end negb andb].
      destruct (1 <? n) eqn:E.
      * apply Z.ltb_lt in E.
        replace (Z.to_nat (n - 1)) with (S (Z.to_nat (n - 1 - 1))) by lia.
        cbn [take at_end negb].
        unfold bind. destruct (wTrie_spawn _ _ _ _ _ _ _ m) as [nwtr m1| |];
          [|reflexivity|reflexivity].
        rewrite (IH fuel nwtr (n - 1) m1) by lia.
        replace (Z.to_nat (n - 1)) with (S (Z.to_nat (n - 1 - 1))) by lia.
        reflexivity.
      * apply Z.ltb_ge in E. replace (n - 1) with 0 by lia. reflexivity.
Qed.

(** A count below 1 is refused like the empty word. *)
Lemma addnword_count_below_one fuel p wstring n m :
  n < 1 →
  wTrie_addnword fuel (Some p) wstring n m
  = Ret None (with_errno E_WTRIE_EMPTYWORD m).
Proof.
  intros Hn. destruct wstring as [|c rest]; [reflexivity|].
  cbn [wTrie_addnword]. unfold PRECONDITION. cbn [is_set].
  now rewrite (proj2 (Z.leb_gt 1 n) Hn).
Qed.

(** [wTrie_addnword] is [wTrie_addword] of the first [n] characters of the
    string; a count below 1 is refused like the empty word. *)
Theorem addnword_is_addword_of_prefix fuel wtr wstring n m :
  wTrie_addnword fuel wtr wstring n m
  = wTrie_addword fuel wtr (take (Z.to_nat n) wstring) m.
Proof.
  destruct (Z.le_gt_cases 1 n) as [Hn|Hn]; [now apply addnword_take|].
  replace (Z.to_nat n) with O by lia. rewrite take_0.
  destruct wtr as [p|].
  - rewrite addnword_count_below_one by lia. reflexivity.
  - now destruct wstring.
Qed.

(** ** More than one child *)

(** [wTrie_hasmultichild] answers whether the child list of the node has
    two nodes or more. *)
Theorem hasmultichild_counts m l ls :
  children_of (nodes m) l ls →
  wTrie_hasmultichild (Some l) m = Ret (bool_decide (2 ≤ length ls)%nat) m.
Proof.
  intros (n & Hn & Hls). unfold wTrie_hasmultichild, PRECONDITION. cbn [is_set].
  run_load Hn.
  inversion Hls as [Hc|l1 n1 ls1 Hn1 Hls1 Hc]; subst; cbn [is_set]; [reflexivity|].
  run_load Hn1.
  inversion Hls1 as [Hs|l2 n2 ls2 Hn2 Hls2 Hs]; subst; cbn [is_set length].
  - reflexivity.
  - rewrite bool_decide_eq_true_2 by lia. reflexivity.
Qed.

(** ** The consistency check on trees *)

Lemma rOK_link sh : ∀ fuel m,
  repr (nodes m) sh → (ssize sh ≤ fuel)%nat →
  (if is_set (sroot sh) then wTrie_rOK fuel (sroot sh) else ret true) m = Ret true m.
Proof.
  induction sh as [|l c t mt sib IHs chi IHc]; intros fuel m Hr Hle; [reflexivity|].
  destruct Hr as (Hl & Hrs & Hrc). simpl in Hle.
  destruct fuel as [|fuel]; [lia|].
  cbn [sroot is_set wTrie_rOK]. run_load Hl. cbn [sibling child].
  run (IHs fuel m Hrs ltac:(lia)).
  apply IHc; [exact Hrc|lia].
Qed.

(** ** Construction and spawning of a new child *)

Lemma init_sets_fields l n wc0 t mt sz m :
  nodes m !! l = Some n →
  wTrie_init (Some l) wc0 t mt sz m
  = Ret true
      (if (0 <? sz)%N then
         mk_mem (<[l := mk_wTrie wc0 None None t (Some (brk m))]> (nodes m))
           (<[brk m := sz]> (blobs m)) (Pos.succ (brk m))
           (if is_set mt then W_WTRIE_METANOTSET else errno m) (freed m)
       else
         mk_mem (<[l := mk_wTrie wc0 None None t mt]> (nodes m))
           (blobs m) (brk m) (errno m) (freed m)).
Proof.
  intros H. unfold wTrie_init, PRECONDITION. cbn [is_set].
  run (store_Ret _ _ _ _ H).
  repeat (erewrite bind_Ret
            by (eapply store_Ret; cbn [nodes with_nodes]; apply lookup_insert_eq)).
  destruct (0 <? sz)%N.
  - destruct mt as [b|]; cbn [is_set]; unfold bind, set_errno, calloc_blob, store, ret;
      cbn; rewrite !lookup_insert_eq; cbn; rewrite !insert_insert_eq; reflexivity.
  - unfold bind, store, ret; cbn; rewrite !lookup_insert_eq; cbn;
      rewrite !insert_insert_eq; reflexivity.
Qed.

(** [wTrie_init] on a live node: the links are unset and the symbol and
    flag stored; the payload is the one handed in, or, when a size is
    given, a fresh zeroed buffer (a payload handed in besides is dropped
    and reported through [errno]). *)
Theorem init_initialises l n wc0 t mt sz m :
  nodes m !! l = Some n →
  wTrie_init (Some l) wc0 t mt sz m
  = Ret true
      (if (0 <? sz)%N then
         mk_mem (<[l := mk_wTrie wc0 None None t (Some (brk m))]> (nodes m))
           (<[brk m := sz]> (blobs m)) (Pos.succ (brk m))
           (if is_set mt then W_WTRIE_METANOTSET else errno m) (freed m)
       else
         mk_mem (<[l := mk_wTrie wc0 None None t mt]> (nodes m))
           (blobs m) (brk m) (errno m) (freed m)).
Proof. apply init_sets_fields. Qed.

Lemma sibling_list_same_siblings h h' p ls :
  (∀ l, l ∈ ls → sibling <$> h' !! l = sibling <$> h !! l) →
  sibling_list h p ls → sibling_list h' p ls.
Proof.
  intros Hs H. induction H as [|l n ls Hl _ IH]; [constructor|].
  pose proof (Hs l (list_elem_of_here _ _)) as H1. rewrite Hl in H1. simpl in H1.
  destruct (h' !! l) as [n'|] eqn:E; [|discriminate].
  simpl in H1. injection H1 as H1.
  apply (sibling_list_cons _ _ n'); [exact E|]. rewrite H1.
  apply IH. intros l' Hl'. apply Hs. now apply list_elem_of_further.
Qed.

Lemma sibling_list_live h p ls l :
  sibling_list h p ls → l ∈ ls → is_Some (h !! l).
Proof.
  induction 1 as [|l0 n ls Hl _ IH]; intros Hin.
  - now apply elem_of_nil in Hin.
  - apply elem_of_cons in Hin as [->|Hin]; eauto.
Qed.

(** When no child of the parent carries the symbol, a spawn (strict or
    not) answers a fresh node with the symbol, flag and payload asked for,
    which becomes the head of the parent's child list, before the children
    that were there. *)
Theorem spawn_absent_pushes_head fuel m parent pn wch sl m1 strict term0 meta0 meta_sz :
  wTrie_child fuel (Some parent) wch None m = Ret (None, sl) m1 →
  nodes m !! parent = Some pn →
  nodes m !! brk m = None →
  ∃ m',
    wTrie_spawn fuel strict (Some parent) wch term0 meta0 meta_sz m
    = Ret (Some (brk m)) m'
    ∧ nodes m'
      = <[parent := set_child (Some (brk m)) pn]>
          (<[brk m := mk_wTrie wch (child pn) None term0
                        (if (0 <? meta_sz)%N then Some (Pos.succ (brk m)) else meta0)]>
             (nodes m))
    ∧ (blobs m' !! Pos.succ (brk m)
       = if (0 <? meta_sz)%N then Some meta_sz else blobs m !! Pos.succ (brk m))
    ∧ ∀ ls, children_of (nodes m) parent ls →
            children_of (nodes m') parent (brk m :: ls).
Proof.
  intros Hch Hp Hfresh.
  pose proof (child_inv _ _ _ _ _ _ _ _ Hch) as [-> _].
  assert (Hne : brk m ≠ parent) by (intros E; rewrite E in Hfresh; congruence).
  set (new := brk m) in *.
  set (meta' := if (0 <? meta_sz)%N then Some (Pos.succ new) else meta0).
  set (h' := <[parent := set_child (Some new) pn]>
               (<[new := mk_wTrie wch (child pn) None term0 meta']> (nodes m))).
  assert (Hrun : ∃ m', wTrie_spawn fuel strict (Some parent) wch term0 meta0 meta_sz m
                       = Ret (Some new) m' ∧ nodes m' = h'
                       ∧ blobs m' !! Pos.succ new
                         = if (0 <? meta_sz)%N then Some meta_sz
                           else blobs m !! Pos.succ new).
  { unfold wTrie_spawn, PRECONDITION. cbn [is_set]. run Hch.
    erewrite bind_Ret by reflexivity.
    erewrite bind_Ret by (eapply init_sets_fields; cbn; apply lookup_insert_eq).
    subst meta' h'. fold new.
    destruct (0 <? meta_sz)%N.
    - erewrite bind_Ret
        by (apply load_Ret; cbn;
            rewrite insert_insert_eq, lookup_insert_ne by exact Hne; exact Hp).
      destruct (child pn) as [s|] eqn:Es; cbn [is_set];
        unfold bind, store, ret; cbn;
        rewrite ?insert_insert_eq, ?lookup_insert_eq; cbn;
        rewrite ?insert_insert_eq, lookup_insert_ne by exact Hne; rewrite Hp;
        (eexists; split; [reflexivity|]; cbn; split; [reflexivity|];
         apply lookup_insert_eq).
    - erewrite bind_Ret
        by (apply load_Ret; cbn;
            rewrite insert_insert_eq, lookup_insert_ne by exact Hne; exact Hp).
      destruct (child pn) as [s|] eqn:Es; cbn [is_set];
        unfold bind, store, ret; cbn;
        rewrite ?insert_insert_eq, ?lookup_insert_eq; cbn;
        rewrite ?insert_insert_eq, lookup_insert_ne by exact Hne; rewrite Hp;
        (eexists; split; [reflexivity|]; cbn; split; reflexivity). }
  destruct Hrun as (m' & Hrun & Hn' & Hb'). exists m'.
  split; [exact Hrun|]. split; [exact Hn'|]. split; [exact Hb'|].
  intros ls (pn0 & Hp0 & Hls). rewrite Hp in Hp0. injection Hp0 as <-.
  rewrite Hn'. exists (set_child (Some new) pn).
  split; [apply lookup_insert_eq|]. cbn [child set_child].
  assert (Hnew : new ∉ ls).
  { intros Hin. destruct (sibling_list_live _ _ _ _ Hls Hin) as [x Hx].
    subst new. congruence. }
  apply (sibling_list_cons _ _ (mk_wTrie wch (child pn) None term0 meta')).
  - subst h'. rewrite lookup_insert_ne by congruence. apply lookup_insert_eq.
  - cbn [sibling]. eapply sibling_list_same_siblings; [|exact Hls].
    intros l Hl. subst h'.
    destruct (decide (l = parent)) as [->|Hlp].
    + rewrite lookup_insert_eq, Hp. reflexivity.
    + rewrite lookup_insert_ne by congruence.
      rewrite lookup_insert_ne; [reflexivity|]. intros ->. contradiction.
Qed.

(** On a tree the consistency check returns 1, given a bound of the
    size of the tree. *)
Theorem rOK_passes_on_tree fuel m l c t mt sib chi :
  repr (nodes m) (SCell l c t mt sib chi) →
  (ssize (SCell l c t mt sib chi) ≤ fuel)%nat →
  wTrie_rOK fuel (Some l) m = Ret true m.
Proof. intros Hr Hle. exact (rOK_link _ fuel m Hr Hle). Qed.

(** ** Purge and the payloads *)

Lemma purge_link_blobs sh : ∀ fuel m m',
  repr (nodes m) sh → NoDup (addrs sh) → (ssize sh ≤ fuel)%nat →
  (if is_set (sroot sh) then wTrie_purge fuel (sroot sh) else ret ()) m = Ret () m' →
  (∀ b, blobs m' !! b = if decide (b ∈ metas sh) then None else blobs m !! b)
  ∧ brk m' = brk m ∧ errno m' = errno m.
Proof.
  induction sh as [|l c t mt sib IHs chi IHc]; intros fuel m m' Hr Hnd Hle Hrun.
  - injection Hrun as <-. split; [|auto]. intros b.
    destruct (decide (b ∈ metas SNil)) as [Hb|Hb]; [|reflexivity].
    now apply elem_of_nil in Hb.
  - pose proof Hr as (Hl & Hrs & Hrc). simpl in Hle.
    pose proof Hnd as Hnd0. cbn [addrs] in Hnd.
    apply NoDup_cons in Hnd as [Hnl Hnd].
    apply NoDup_app in Hnd as (Hns & Hsc & Hnc).
    apply not_elem_of_app in Hnl as [Hls Hlc].
    destruct fuel as [|fuel]; [lia|].
    set (m1 := mk_mem (delete l (nodes m))
                 (match mt with Some b => delete b (blobs m) | None => blobs m end)
                 (brk m) (errno m) (freed m ++ [l])).
    assert (Hd : wTrie_discard (Some l) m = Ret true m1).
    { unfold wTrie_discard, PRECONDITION. simpl. run_load Hl. simpl.
      destruct mt as [b|]; unfold bind, free_blob, free_node, ret; simpl;
        now rewrite Hl. }
    assert (Hrs1 : repr (nodes m1) sib).
    { eapply repr_frame; [|exact Hrs]. intros x Hx. simpl.
      apply lookup_delete_ne. intros ->. contradiction. }
    cbn [sroot is_set wTrie_purge] in Hrun.
    unfold PRECONDITION, wTrie_rOK_designator in Hrun.
    rewrite (bind_Ret _ _ _ _ _ (load_Ret _ _ _ Hl)) in Hrun.
    cbn [sibling child] in Hrun.
    rewrite (bind_Ret _ _ _ _ _ Hd) in Hrun.
    apply bind_inv in Hrun as ([] & m2 & Hp2 & Hp3).
    destruct (purge_link sib fuel m1 Hrs1 Hns ltac:(lia)) as (m2' & Hp2' & _ & Hn2).
    rewrite Hp2 in Hp2'. injection Hp2' as <-.
    assert (Hrc2 : repr (nodes m2) chi).
    { eapply repr_frame; [|exact Hrc]. intros x Hx. rewrite Hn2.
      destruct (decide (x ∈ addrs sib)) as [Hxs|Hxs]; [exfalso; eapply Hsc; eauto|].
      simpl. apply lookup_delete_ne. intros ->. contradiction. }
    destruct (IHs fuel m1 m2 Hrs1 Hns ltac:(lia) Hp2) as (Hb2 & Hk2 & He2).
    destruct (IHc fuel m2 m' Hrc2 Hnc ltac:(lia) Hp3) as (Hb3 & Hk3 & He3).
    split; [|split; [rewrite Hk3, Hk2|rewrite He3, He2]; reflexivity].
    intros b. rewrite Hb3, Hb2. cbn [metas blobs m1].
    destruct (decide (b ∈ match mt with Some b0 => [b0] | None => [] end
                          ++ metas sib ++ metas chi)) as [Hb|Hb].
    + rewrite !elem_of_app in Hb. destruct Hb as [Hb|[Hb|Hb]].
      * destruct mt as [b0|]; [|now apply elem_of_nil in Hb].
        apply list_elem_of_singleton in Hb as ->. rewrite lookup_delete_eq.
        repeat case_decide; reflexivity.
      * rewrite (decide_True (P := b ∈ metas sib)) by exact Hb.
        case_decide; reflexivity.
      * rewrite (decide_True (P := b ∈ metas chi)) by exact Hb. reflexivity.
    + rewrite !not_elem_of_app in Hb. destruct Hb as (Hb0 & Hbs & Hbc).
      rewrite (decide_False (P := b ∈ metas chi)) by exact Hbc.
      rewrite (decide_False (P := b ∈ metas sib)) by exact Hbs.
      destruct mt as [b0|]; [|reflexivity].
      apply lookup_delete_ne. intros ->. apply Hb0, list_elem_of_here.
Qed.

Lemma size_after_frees (bl : gmap positive N) (ms : list positive) :
  NoDup ms → (∀ b, b ∈ ms → is_Some (bl !! b)) →
  (size (foldr delete bl ms) + length ms)%nat = size bl.
Proof.
  induction ms as [|b0 ms IH]; intros Hnd Hlive; cbn [foldr length]; [lia|].
  apply NoDup_cons in Hnd as [Hb0 Hnd].
  assert (Hin : is_Some (foldr delete bl ms !! b0)).
  { clear IH Hnd. induction ms as [|b1 ms IH]; cbn [foldr].
    - apply Hlive, list_elem_of_here.
    - apply not_elem_of_cons in Hb0 as [Hne Hb0].
      rewrite lookup_delete_ne by congruence. apply IH; [exact Hb0|].
      intros b Hb. apply Hlive. apply elem_of_cons in Hb as [->|Hb].
      + apply list_elem_of_here.
      + now do 2 apply list_elem_of_further. }
  rewrite map_size_delete_Some by exact Hin.
  specialize (IH Hnd ltac:(intros b Hb; now apply Hlive, list_elem_of_further)).
  destruct Hin as [y Hy].
  assert (size (foldr delete bl ms) ≠ O) by (eapply map_size_ne_0_lookup_2; eauto).
  lia.
Qed.

Lemma lookup_after_frees (bl : gmap positive N) (ms : list positive) b :
  foldr delete bl ms !! b = if decide (b ∈ ms) then None else bl !! b.
Proof.
  induction ms as [|b0 ms IH]; cbn [foldr].
  - rewrite decide_False; [reflexivity|]. apply not_elem_of_nil.
  - destruct (decide (b = b0)) as [->|Hne].
    + rewrite lookup_delete_eq, decide_True; [reflexivity|apply list_elem_of_here].
    + rewrite lookup_delete_ne, IH by congruence.
      destruct (decide (b ∈ ms)) as [Hb|Hb].
      * rewrite decide_True; [reflexivity|now apply list_elem_of_further].
      * rewrite decide_False; [reflexivity|].
        rewrite not_elem_of_cons. auto.
Qed.

(** Purging a node of a tree whose payloads are live buffers, no two nodes
    sharing one, so that each [free] of [wTrie_discard] is given a live
    buffer: the purge releases the payload of every node it releases,
    each once, touches no other buffer, and leaves [errno] alone. *)
Theorem purge_releases_payloads fuel m l c t mt sib chi :
  repr (nodes m) (SCell l c t mt sib chi) →
  NoDup (addrs (SCell l c t mt sib chi)) →
  NoDup (metas (SCell l c t mt sib chi)) →
  (∀ b, b ∈ metas (SCell l c t mt sib chi) → is_Some (blobs m !! b)) →
  (ssize (SCell l c t mt sib chi) ≤ fuel)%nat →
  ∃ m',
    wTrie_purge fuel (Some l) m = Ret () m'
    ∧ (∀ b, blobs m' !! b =
            if decide (b ∈ metas (SCell l c t mt sib chi)) then None
            else blobs m !! b)
    ∧ (size (blobs m') + length (metas (SCell l c t mt sib chi)))%nat
      = size (blobs m)
    ∧ errno m' = errno m.
Proof.
  intros Hr Hnd Hndm Hlive Hle.
  destruct (purge_link _ _ _ Hr Hnd Hle) as (m' & Hrun & _).
  destruct (purge_link_blobs _ _ _ _ Hr Hnd Hle Hrun) as (Hb & _ & He).
  exists m'. split; [exact Hrun|]. split; [exact Hb|]. split; [|exact He].
  replace (blobs m') with (foldr delete (blobs m) (metas (SCell l c t mt sib chi))).
  - now apply size_after_frees.
  - apply map_eq. intros b. now rewrite Hb, lookup_after_frees.
Qed.

(** ** Tries built by insertions own every live node *)

Lemma holds_spawn_new m cur cn chain wch t :
  holds m cur cn chain →
  holds (mk_mem (<[cur := set_child (Some (brk m)) cn]>
                   (<[brk m := mk_wTrie wch (sroot chain) None t None]> (nodes m)))
           (blobs m) (Pos.succ (brk m)) (errno m) (freed m))
        (brk m) (mk_wTrie wch (sroot chain) None t None) SNil.
Proof.
  intros (Hp & Hc & Hr & Hnd & Hb). apply Forall_cons in Hb as [Hbc _].
  split; [cbn; rewrite lookup_insert_ne by lia; apply lookup_insert_eq|].
  split; [reflexivity|]. split; [exact I|]. split; [apply NoDup_singleton|].
  apply Forall_singleton. cbn. lia.
Qed.

Lemma holds_spawn_old m cur cn chain wch t l c t0 mt0 sib chi :
  holds m cur cn chain →
  s_child chain wch = SCell l c t0 mt0 sib chi →
  holds (with_nodes (<[l := mk_wTrie c (sroot sib) (sroot chi) t None]> (nodes m)) m)
        l (mk_wTrie c (sroot sib) (sroot chi) t None) chi.
Proof.
  intros (Hp & Hc & Hr & Hnd & Hb) Ech.
  apply NoDup_cons in Hnd as [_ Hnd]. apply Forall_cons in Hb as [_ Hb].
  pose proof (NoDup_s_child _ wch Hnd) as Hndc. rewrite Ech in Hndc.
  cbn [addrs] in Hndc. apply NoDup_cons in Hndc as [Hlc Hndc].
  apply NoDup_app in Hndc as (_ & _ & Hndchi).
  apply not_elem_of_app in Hlc as [_ Hlchi].
  assert (Hin : ∀ x, x ∈ l :: addrs chi → x ∈ addrs chain).
  { intros x Hx. apply (addrs_s_child _ wch). rewrite Ech. cbn [addrs].
    apply elem_of_cons in Hx as [->|Hx]; [apply list_elem_of_here|].
    apply list_elem_of_further, elem_of_app. now right. }
  split; [cbn; apply lookup_insert_eq|]. split; [reflexivity|]. split.
  - pose proof (repr_s_child _ _ wch Hr) as Hrc. rewrite Ech in Hrc.
    destruct Hrc as (_ & _ & Hrc).
    eapply repr_frame; [|exact Hrc]. intros x Hx. cbn.
    apply lookup_insert_ne. intros ->. contradiction.
  - split; [apply NoDup_cons; now split|].
    unfold below. rewrite Forall_forall. intros x Hx.
    apply (below_elem _ _ _ Hb), Hin, Hx.
Qed.

Lemma addrs_s_enter_below wch t mt k chain l c t0 mt0 sib chi x :
  s_child chain wch = SCell l c t0 mt0 sib chi →
  x ∈ addrs (k chi) → x ∈ addrs (s_enter wch t mt k chain).
Proof.
  induction chain as [|l0 c0 t1 mt1 sib0 IH chi0 _]; simpl; [discriminate|].
  case_bool_decide as Hc; simpl.
  - intros [= -> -> _ _ -> ->] Hx. rewrite elem_of_cons, elem_of_app. auto.
  - intros Hch Hx. rewrite elem_of_cons, elem_of_app. auto.
Qed.

(** Every node live after an insertion was live before or belongs to the
    tree; nothing is released and no payload is allocated. *)
Lemma addword_rest_owned v : ∀ fuel m cur cn chain r m',
  holds m cur cn chain → (ssize chain ≤ fuel)%nat →
  addword_rest fuel (Some cur) v m = Ret r m' →
  (∀ x, is_Some (nodes m' !! x) →
        is_Some (nodes m !! x) ∨ x ∈ addrs (s_addword (brk m) chain v))
  ∧ blobs m' = blobs m ∧ freed m' = freed m ∧ errno m' = errno m.
Proof.
  induction v as [|c rest IH]; intros fuel m cur cn chain r m' Hh Hle Hrun.
  - injection Hrun as _ <-. auto.
  - unfold addword_rest in Hrun. cbn [at_end] in Hrun.
    rewrite addword_cons in Hrun. cbn [s_addword].
    destruct (s_child chain c) as [|l c' t0 mt0 sib chi] eqn:Ech.
    + rewrite (bind_Ret _ _ _ _ _ (spawn_new _ _ _ _ _ c (at_end rest) Hh Hle Ech))
        in Hrun.
      pose proof (holds_spawn_new _ _ _ _ c (at_end rest) Hh) as Hh1.
      destruct (IH fuel _ _ _ _ _ _ Hh1 ltac:(simpl; lia) Hrun) as (Hx & Hb & Hf & He).
      split; [|auto]. intros x Hsome. cbn [addrs].
      rewrite elem_of_cons, elem_of_app.
      destruct (Hx x Hsome) as [H1|H1]; [|cbn [brk] in H1; auto].
      cbn [nodes] in H1.
      destruct (decide (x = cur)) as [->|Hxc]; [left; destruct Hh as (-> & _); eauto|].
      rewrite lookup_insert_ne in H1 by congruence.
      destruct (decide (x = brk m)) as [->|Hxb]; [auto|].
      rewrite lookup_insert_ne in H1 by congruence. auto.
    + rewrite (bind_Ret _ _ _ _ _
                 (spawn_old _ _ _ _ _ c (at_end rest) _ _ _ _ _ _ Hh Hle Ech)) in Hrun.
      pose proof (holds_spawn_old _ _ _ _ c (at_end rest) _ _ _ _ _ _ Hh Ech) as Hh1.
      pose proof (ssize_s_child chain c) as Hsz. rewrite Ech in Hsz. simpl in Hsz.
      destruct (IH fuel _ _ _ _ _ _ Hh1 ltac:(lia) Hrun) as (Hx & Hb & Hf & He).
      split; [|auto]. intros x Hsome.
      destruct (Hx x Hsome) as [H1|H1].
      * left. cbn [nodes with_nodes] in H1.
        destruct (decide (x = l)) as [->|Hxl].
        -- destruct Hh as (_ & _ & Hr & _).
           pose proof (repr_s_child _ _ c Hr) as Hrc. rewrite Ech in Hrc.
           destruct Hrc as (-> & _). eauto.
        -- now rewrite lookup_insert_ne in H1 by congruence.
      * right. cbn [brk with_nodes] in H1.
        eapply addrs_s_enter_below; eauto.
Qed.

Lemma s_enter_keeps wch t mt k chain x :
  (∀ chi, x ∈ addrs chi → x ∈ addrs (k chi)) →
  x ∈ addrs chain → x ∈ addrs (s_enter wch t mt k chain).
Proof.
  intros Hk. induction chain as [|l0 c0 t1 mt1 sib0 IHc chi0 _]; simpl; [auto|].
  case_bool_decide; simpl; rewrite !elem_of_cons, !elem_of_app;
    intros [?|[?|?]]; auto.
Qed.

Lemma s_addword_keeps v : ∀ nx chain x,
  x ∈ addrs chain → x ∈ addrs (s_addword nx chain v).
Proof.
  induction v as [|c rest IH]; intros nx chain x Hx; cbn [s_addword]; [exact Hx|].
  destruct (s_child chain c) eqn:Ech.
  - cbn [addrs]. rewrite elem_of_cons, elem_of_app. auto.
  - apply s_enter_keeps; [|exact Hx]. intros chi. apply IH.
Qed.

(** What holds of every trie built by insertions: it is a tree under the
    root, the root has no sibling, every live node belongs to it, no
    payload buffer is live and nothing has been released. *)
Lemma built_owned m :
  built m →
  ∃ rn chain,
    holds m l_root rn chain ∧ sibling rn = None
    ∧ (∀ x, is_Some (nodes m !! x) → x ∈ l_root :: addrs chain)
    ∧ blobs m = ∅ ∧ freed m = [].
Proof.
  induction 1 as [m Hroot|m v r m' _ IH (enough & Hrun)].
  - assert (E : new_root mem0
                = Ret (Some l_root)
                    (mk_mem {[l_root := mk_wTrie 0 None None false None]} ∅ 2
                       ENONE [])) by (vm_compute; reflexivity).
    rewrite E in Hroot. injection Hroot as <-.
    exists (mk_wTrie 0 None None false None), SNil.
    split; [|split; [reflexivity|split; [|auto]]].
    + split; [apply lookup_singleton_eq|]. split; [reflexivity|]. split; [exact I|].
      split; [apply NoDup_singleton|]. apply Forall_singleton. cbn. reflexivity.
    + intros x [n Hx]. cbn in Hx.
      apply lookup_singleton_Some in Hx as [<- _]. apply list_elem_of_here.
  - destruct IH as (rn & chain & Hh & Hs & Hown & Hb & Hf).
    destruct v as [|c rest].
    + specialize (Hrun enough (Nat.le_refl _)). cbn in Hrun.
      injection Hrun as _ <-. exists rn, chain. auto.
    + set (fuel := (enough `max` ssize chain)%nat).
      destruct (addword_sim fuel m l_root rn chain (c :: rest) Hh
                  (Nat.le_max_r _ _) ltac:(discriminate))
        as (r0 & m0 & Hrun0 & Hh0 & _).
      pose proof Hrun0 as Hrun1.
      rewrite (Hrun fuel (Nat.le_max_l _ _)) in Hrun0. injection Hrun0 as _ ->.
      destruct (addword_rest_owned (c :: rest) fuel m l_root rn chain (Some r0) m0 Hh
                  (Nat.le_max_r _ _) Hrun1) as (Hx & Hb' & Hf' & _).
      eexists _, _. split; [exact Hh0|]. split; [exact Hs|].
      split; [|split; congruence].
      intros x Hsome. destruct (Hx x Hsome) as [H1|H1].
      * apply Hown in H1. apply elem_of_cons in H1 as [->|H1];
          [apply list_elem_of_here|].
        apply list_elem_of_further. now apply s_addword_keeps.
      * now apply list_elem_of_further.
Qed.

(** The teardown of [main]: purging the root of a trie built by insertions
    returns and leaves no node live; the nodes released are exactly the
    nodes that were live, each once. *)
Theorem purge_built_trie_releases_all m :
  built m →
  ∃ enough, ∀ fuel, (enough ≤ fuel)%nat →
    ∃ m',
      wTrie_purge fuel (Some l_root) m = Ret () m'
      ∧ nodes m' = ∅ ∧ blobs m' = ∅
      ∧ NoDup (freed m')
      ∧ ∀ x, x ∈ freed m' ↔ is_Some (nodes m !! x).
Proof.
  intros Hb. destruct (built_owned m Hb) as (rn & chain & Hh & Hs & Hown & Hbl & Hf).
  destruct Hh as (Hp & Hc & Hr & Hnd & _).
  set (sh := SCell l_root (wc rn) (term rn) (meta rn) SNil chain).
  assert (Hrsh : repr (nodes m) sh).
  { split; [|split; [exact I|exact Hr]]. rewrite Hp. f_equal.
    destruct rn; cbn in *. now subst. }
  exists (ssize sh). intros fuel Hle.
  destruct (purge_link sh fuel m Hrsh Hnd Hle) as (m' & Hrun & Hfr & Hn).
  destruct (purge_link_blobs sh fuel m m' Hrsh Hnd Hle Hrun) as (Hbm & _ & _).
  exists m'. split; [exact Hrun|]. rewrite Hf in Hfr. cbn [app] in Hfr.
  split; [|split; [|split]].
  - apply map_eq. intros x. rewrite Hn, lookup_empty.
    destruct (decide (x ∈ addrs sh)) as [Hx|Hx]; [reflexivity|].
    destruct (nodes m !! x) eqn:E; [|reflexivity].
    exfalso. apply Hx, Hown. eauto.
  - apply map_eq. intros b. rewrite Hbm, Hbl, lookup_empty. now case_decide.
  - rewrite Hfr. exact Hnd.
  - intros x. rewrite Hfr. split; [|apply Hown].
    intros Hx. clear -Hx Hrsh. revert Hx. generalize sh Hrsh. clear.
    induction sh as [|l c t mt sib IHs chi IHc]; intros Hr Hx.
    + now apply elem_of_nil in Hx.
    + destruct Hr as (Hl & Hrs & Hrc). cbn [addrs] in Hx.
      rewrite elem_of_cons, elem_of_app in Hx.
      destruct Hx as [->|[Hx|Hx]]; eauto.
Qed.

(** ** Removal of a word that is a prefix of another *)

Lemma sroot_s_retouch wch f k chain : sroot (s_retouch wch f k chain) = sroot chain.
Proof. destruct chain; simpl; [reflexivity|]. now case_bool_decide. Qed.

Lemma sroot_s_unterm chain w : sroot (s_unterm chain w) = sroot chain.
Proof. destruct w; [reflexivity|]. apply sroot_s_retouch. Qed.

Lemma s_child_s_retouch wch f k chain :
  s_child (s_retouch wch f k chain) wch
  = match s_child chain wch with
    | SNil => SNil
    | SCell l c t mt sib chi => SCell l c (f t) mt sib (k chi)
    end.
Proof.
  induction chain as [|l0 c0 t0 mt0 sib0 IH chi0 _]; simpl; [reflexivity|].
  case_bool_decide as Hc; simpl; rewrite bool_decide_decide;
    [rewrite decide_True by exact Hc|rewrite decide_False by exact Hc]; auto.
Qed.

Lemma s_findword_s_retouch_other c f k chain c' rest' :
  c' ≠ c →
  s_findword (s_retouch c f k chain) (c' :: rest') = s_findword chain (c' :: rest').
Proof.
  intros Hne. cbn [s_findword].
  induction chain as [|l0 c0 t0 mt0 sib0 IH chi0 _]; simpl; [reflexivity|].
  destruct (decide (c0 = c)) as [->|Hc0].
  - rewrite bool_decide_eq_true_2 by reflexivity. simpl.
    rewrite (bool_decide_eq_false_2 (c = c')) by congruence.
    reflexivity.
  - rewrite (bool_decide_eq_false_2 (c0 = c)) by exact Hc0. simpl.
    case_bool_decide; [reflexivity|exact IH].
Qed.

Lemma s_findword_unterm w : ∀ chain w',
  s_findword (s_unterm chain w) w'
  = if decide (w' = w) then None else s_findword chain w'.
Proof.
  induction w as [|c rest IH]; intros chain w'.
  - cbn [s_unterm]. destruct w'; [reflexivity|]. now rewrite decide_False.
  - destruct w' as [|c' rest']; [now rewrite decide_False|].
    cbn [s_unterm].
    destruct (decide (c' = c)) as [->|Hc].
    + cbn [s_findword]. rewrite s_child_s_retouch.
      destruct (s_child chain c) as [|l c0 t mt sib chi]; [now case_decide|].
      destruct rest as [|c2 rest2], rest' as [|c3 rest3]; cbn [at_end negb andb].
      * rewrite decide_True by reflexivity. reflexivity.
      * rewrite decide_False by congruence. now rewrite andb_false_r.
      * rewrite decide_False by congruence. reflexivity.
      * rewrite !andb_false_r. rewrite IH.
        destruct (decide (c3 :: rest3 = c2 :: rest2)) as [E|E].
        -- rewrite E. now rewrite decide_True.
        -- rewrite decide_False by congruence. reflexivity.
    + rewrite s_findword_s_retouch_other by exact Hc.
      rewrite decide_False by congruence. reflexivity.
Qed.

Lemma ssize_s_retouch wch f k chain :
  (∀ chi, ssize (k chi) = ssize chi) →
  ssize (s_retouch wch f k chain) = ssize chain.
Proof.
  intros Hk. induction chain as [|l0 c0 t0 mt0 sib0 IH chi0 _]; simpl; [reflexivity|].
  case_bool_decide; simpl; [rewrite Hk|rewrite IH]; reflexivity.
Qed.

Lemma ssize_s_unterm w : ∀ chain, ssize (s_unterm chain w) = ssize chain.
Proof.
  induction w as [|c rest IH]; intros chain; [reflexivity|].
  cbn [s_unterm]. apply ssize_s_retouch. intros chi. apply IH.
Qed.

Lemma s_findword_in w : ∀ chain n, s_findword chain w = Some n → n ∈ addrs chain.
Proof.
  induction w as [|c rest IH]; intros chain n; cbn [s_findword]; [discriminate|].
  destruct (s_child chain c) as [|l c' t mt sib chi] eqn:Ech; [discriminate|].
  intros H. apply (addrs_s_child _ c). rewrite Ech. cbn [addrs].
  destruct (t && at_end rest).
  - injection H as <-. apply list_elem_of_here.
  - destruct (negb (at_end rest)); [|discriminate].
    apply list_elem_of_further, elem_of_app. right. eauto.
Qed.

Lemma repr_s_retouch h h' wch f k chain l c t0 mt0 sib chi :
  repr h chain → NoDup (addrs chain) →
  s_child chain wch = SCell l c t0 mt0 sib chi →
  h' !! l = Some (mk_wTrie c (sroot sib) (sroot (k chi)) (f t0) mt0) →
  repr h' (k chi) →
  (∀ x, x ∈ addrs chain → x ≠ l → x ∉ addrs chi → h' !! x = h !! x) →
  repr h' (s_retouch wch f k chain).
Proof.
  induction chain as [|l0 c0 t1 mt1 sib0 IH chi0 _]; simpl; [discriminate|].
  intros (Hl0 & Hrs & Hrc) Hnd.
  apply NoDup_cons in Hnd as [Hl Hnd].
  apply NoDup_app in Hnd as (Hns & Hsc & Hnc).
  apply not_elem_of_app in Hl as [Hls Hlc].
  case_bool_decide as Hc; simpl.
  - intros [= -> -> -> -> -> ->] Hl' Hk Hf. split; [exact Hl'|]. split; [|exact Hk].
    eapply repr_frame; [|exact Hrs]. intros x Hx. apply Hf.
    + apply list_elem_of_further, elem_of_app. now left.
    + intros ->. contradiction.
    + now apply Hsc.
  - intros Hch Hl' Hk Hf.
    assert (Hin : ∀ x, x ∈ l :: addrs chi → x ∈ addrs sib0).
    { intros x Hx. apply (addrs_s_child _ wch). rewrite Hch. simpl.
      apply elem_of_cons in Hx as [->|Hx]; [apply list_elem_of_here|].
      apply list_elem_of_further, elem_of_app. now right. }
    rewrite sroot_s_retouch. split; [|split].
    + rewrite Hf; [exact Hl0|apply list_elem_of_here| |].
      * intros ->. apply Hls, Hin, list_elem_of_here.
      * intros Hx. apply Hls, Hin. now apply list_elem_of_further.
    + apply IH; auto. intros x Hx. apply Hf.
      apply list_elem_of_further, elem_of_app. now left.
    + eapply repr_frame; [|exact Hrc]. intros x Hx. apply Hf.
      * apply list_elem_of_further, elem_of_app. now right.
      * intros ->. eapply Hsc; [apply Hin, list_elem_of_here|exact Hx].
      * intros Hx'. eapply Hsc; [apply Hin, list_elem_of_further, Hx'|exact Hx].
Qed.

Lemma repr_s_unterm w : ∀ h chain n nn,
  repr h chain → NoDup (addrs chain) →
  s_findword chain w = Some n → h !! n = Some nn →
  repr (<[n := set_term false nn]> h) (s_unterm chain w).
Proof.
  induction w as [|c rest IH]; intros h chain n nn Hr Hnd Hw Hn; [discriminate|].
  cbn [s_findword s_unterm] in *.
  destruct (s_child chain c) as [|l c' t mt sib chi] eqn:Ech; [discriminate|].
  pose proof (repr_s_child _ _ c Hr) as Hrc. rewrite Ech in Hrc.
  destruct Hrc as (Hl & _ & Hrchi).
  pose proof (NoDup_s_child _ c Hnd) as Hndc. rewrite Ech in Hndc.
  cbn [addrs] in Hndc. apply NoDup_cons in Hndc as [Hlc Hndc].
  apply NoDup_app in Hndc as (_ & _ & Hndchi).
  apply not_elem_of_app in Hlc as [_ Hlchi].
  eapply repr_s_retouch; [exact Hr|exact Hnd|exact Ech| | |].
  - destruct rest as [|c2 rest2]; cbn [at_end negb andb] in *.
    + destruct t; cbn in Hw; [|discriminate]. injection Hw as <-.
      rewrite lookup_insert_eq. rewrite Hl in Hn. injection Hn as <-. reflexivity.
    + rewrite andb_false_r in Hw. pose proof (s_findword_in _ _ _ Hw) as Hin.
      rewrite lookup_insert_ne by (intros ->; contradiction).
      rewrite sroot_s_unterm. exact Hl.
  - destruct rest as [|c2 rest2]; cbn [at_end negb andb] in *.
    + destruct t; cbn in Hw; [|discriminate]. injection Hw as <-.
      eapply repr_frame; [|exact Hrchi]. intros x Hx.
      apply lookup_insert_ne. intros ->. contradiction.
    + rewrite andb_false_r in Hw. now apply IH.
  - intros x Hx Hxl Hxchi. apply lookup_insert_ne. intros ->.
    destruct rest as [|c2 rest2]; cbn [at_end negb andb] in *.
    + destruct t; cbn in Hw; [|discriminate]. now injection Hw as <-.
    + rewrite andb_false_r in Hw. apply Hxchi. eapply s_findword_in; eauto.
Qed.

Lemma leaf_of_shared_word fuel m root rn chain w n nn parent_p :
  holds m root rn chain → (ssize chain ≤ fuel)%nat →
  wTrie_findword fuel (Some root) w m = Ret (Some n) m →
  nodes m !! n = Some nn → child nn ≠ None →
  wTrie_leaf fuel (Some root) w parent_p m = Ret (None, put parent_p None) m.
Proof.
  intros (Hp & Hc & Hr & _) Hle Hfind Hn Hch.
  assert (Hw : w ≠ []) by (intros ->; cbn in Hfind; discriminate).
  unfold wTrie_leaf, PRECONDITION. cbn [is_set].
  destruct w as [|c rest]; [congruence|]. cbn [at_end negb].
  run Hfind. cbn [is_set].
  rewrite (findword_sim _ fuel root rn chain m Hp Hc Hr Hle Hw) in Hfind.
  destruct (s_findword chain (c :: rest)) as [n'|] eqn:Es; [|discriminate].
  injection Hfind as ->.
  rewrite (bind_Ret _ _ _ _ _
    (leaf_loop_none (c :: rest) fuel m root rn chain n None None Hp Hc Hr Hle Es
       ltac:(intros nn' Hn'; congruence))).
  reflexivity.
Qed.

(** Removing a stored word whose terminating node has children succeeds
    and does nothing but unset that node's terminating flag. *)
Theorem rmword_shared_word_unsets_flag fuel m root rn chain w n nn :
  holds m root rn chain → (ssize chain ≤ fuel)%nat →
  wTrie_findword fuel (Some root) w m = Ret (Some n) m →
  nodes m !! n = Some nn → child nn ≠ None →
  wTrie_rmword fuel (Some root) w m
  = Ret true (with_nodes (<[n := set_term false nn]> (nodes m)) m).
Proof.
  intros Hh Hle Hfind Hn Hch.
  unfold wTrie_rmword. run Hfind. unfold PRECONDITION. cbn [is_set].
  run (leaf_of_shared_word fuel m root rn chain w n nn (Some None) Hh Hle Hfind Hn Hch).
  cbn [put default is_set].
  erewrite bind_Ret by (eapply store_Ret; exact Hn).
  reflexivity.
Qed.

Lemma findword_after_unset fuel m root rn chain w n nn w' :
  holds m root rn chain → (ssize chain ≤ fuel)%nat →
  wTrie_findword fuel (Some root) w m = Ret (Some n) m →
  nodes m !! n = Some nn → w' ≠ [] →
  let m' := with_nodes (<[n := set_term false nn]> (nodes m)) m in
  wTrie_findword fuel (Some root) w' m'
  = match (if decide (w' = w) then None else s_findword chain w') with
    | Some l => Ret (Some l) m'
    | None => Ret None (with_errno I_WTRIE_NOSUCHWORD m')
    end.
Proof.
  intros (Hp & Hc & Hr & Hnd & _) Hle Hfind Hn Hw' m'.
  assert (Hw : w ≠ []) by (intros ->; cbn in Hfind; discriminate).
  rewrite (findword_sim _ fuel root rn chain m Hp Hc Hr Hle Hw) in Hfind.
  destruct (s_findword chain w) as [n'|] eqn:Es; [|discriminate].
  injection Hfind as ->.
  apply NoDup_cons in Hnd as [Hroot Hnd].
  pose proof (s_findword_in _ _ _ Es) as Hin.
  rewrite (findword_sim w' fuel root rn (s_unterm chain w) m').
  - now rewrite s_findword_unterm.
  - cbn. rewrite lookup_insert_ne by (intros ->; contradiction). exact Hp.
  - now rewrite sroot_s_unterm.
  - now apply repr_s_unterm.
  - now rewrite ssize_s_unterm.
  - exact Hw'.
Qed.

(** After such a removal the word is no longer found, a second removal
    fails and changes no node, and every other word is found, or not
    found, as before. *)
Theorem rmword_shared_word_afterwards fuel m root rn chain w n nn :
  holds m root rn chain → (ssize chain ≤ fuel)%nat →
  wTrie_findword fuel (Some root) w m = Ret (Some n) m →
  nodes m !! n = Some nn →
  let m' := with_nodes (<[n := set_term false nn]> (nodes m)) m in
  wTrie_findword fuel (Some root) w m' = Ret None (with_errno I_WTRIE_NOSUCHWORD m')
  ∧ wTrie_rmword fuel (Some root) w m' = Ret false (with_errno E_WTRIE_NOSUCHWORD m')
  ∧ ∀ w' r m1, w' ≠ w →
      wTrie_findword fuel (Some root) w' m = Ret r m1 →
      ∃ m2, wTrie_findword fuel (Some root) w' m' = Ret r m2.
Proof.
  intros Hh Hle Hfind Hn m'.
  assert (Hw : w ≠ []) by (intros ->; cbn in Hfind; discriminate).
  assert (Hgone : wTrie_findword fuel (Some root) w m'
                  = Ret None (with_errno I_WTRIE_NOSUCHWORD m')).
  { unfold m'. rewrite (findword_after_unset fuel m root rn chain w n nn w Hh Hle Hfind Hn Hw).
    now rewrite decide_True. }
  split; [exact Hgone|]. split.
  - unfold wTrie_rmword. run Hgone. reflexivity.
  - intros w' r m1 Hne Hfind'. destruct w' as [|c' rest'].
    + cbn in Hfind'. injection Hfind' as <- _. eexists. reflexivity.
    + unfold m'.
      rewrite (findword_after_unset fuel m root rn chain w n nn (c' :: rest')
                 Hh Hle Hfind Hn ltac:(discriminate)).
      rewrite decide_False by exact Hne.
      destruct Hh as (Hp & Hc & Hr & _).
      rewrite (findword_sim (c' :: rest') fuel root rn chain m Hp Hc Hr Hle
                 ltac:(discriminate)) in Hfind'.
      revert Hfind'.
      destruct (s_findword chain (c' :: rest')); intros [= <- _]; eauto.
Qed.

(** ** Insertion and the other words *)

Lemma s_findword_SNil w : s_findword SNil w = None.
Proof. now destruct w. Qed.

Lemma s_findword_s_enter_other c t mt k chain c' rest' :
  c' ≠ c →
  s_findword (s_enter c t mt k chain) (c' :: rest') = s_findword chain (c' :: rest').
Proof.
  intros Hne. cbn [s_findword].
  induction chain as [|l0 c0 t0 mt0 sib0 IH chi0 _]; simpl; [reflexivity|].
  destruct (decide (c0 = c)) as [->|Hc0].
  - rewrite bool_decide_eq_true_2 by reflexivity. simpl.
    rewrite (bool_decide_eq_false_2 (c = c')) by congruence.
    reflexivity.
  - rewrite (bool_decide_eq_false_2 (c0 = c)) by exact Hc0. simpl.
    case_bool_decide; [reflexivity|exact IH].
Qed.

Lemma s_findword_addword_other v : ∀ nx chain w',
  ¬ w' `prefix_of` v →
  s_findword (s_addword nx chain v) w' = s_findword chain w'.
Proof.
  induction v as [|c rest IH]; intros nx chain w' Hpre; [reflexivity|].
  destruct w' as [|c' rest']; [exfalso; apply Hpre, prefix_nil|].
  cbn [s_addword].
  destruct (decide (c' = c)) as [->|Hc].
  - assert (Hrest : ¬ rest' `prefix_of` rest).
    { intros H. apply Hpre. now apply prefix_cons. }
    assert (Hne : rest' ≠ []) by (intros ->; apply Hrest, prefix_nil).
    destruct (s_child chain c) as [|l c0 t0 mt0 sib chi] eqn:Ech.
    + cbn [s_findword s_child]. rewrite bool_decide_eq_true_2 by reflexivity.
      rewrite Ech.
      destruct rest' as [|c3 rest3]; [congruence|]. cbn [at_end negb].
      rewrite andb_false_r. rewrite IH by exact Hrest. apply s_findword_SNil.
    + cbn [s_findword]. rewrite (s_child_s_enter _ _ _ _ _ _ _ _ _ _ _ Ech), Ech.
      destruct rest' as [|c3 rest3]; [congruence|]. cbn [at_end negb].
      rewrite !andb_false_r. now apply IH.
  - destruct (s_child chain c) as [|l c0 t0 mt0 sib chi] eqn:Ech.
    + cbn [s_findword s_child].
      now rewrite (bool_decide_eq_false_2 (c = c')) by congruence.
    + now apply s_findword_s_enter_other.
Qed.

(** Adding a word leaves every word that is not one of its prefixes found,
    or not found, as before. *)
Theorem addword_keeps_other_words fuel m root rn chain v w' r m1 :
  holds m root rn chain → v ≠ [] →
  (ssize chain + length v ≤ fuel)%nat →
  ¬ w' `prefix_of` v →
  wTrie_findword fuel (Some root) w' m = Ret r m1 →
  ∃ r0 m' m2,
    wTrie_addword fuel (Some root) v m = Ret (Some r0) m'
    ∧ wTrie_findword fuel (Some root) w' m' = Ret r m2.
Proof.
  intros Hh Hv Hle Hpre Hfind.
  assert (Hw' : w' ≠ []) by (intros ->; apply Hpre, prefix_nil).
  destruct (addword_sim fuel _ _ _ _ v Hh ltac:(lia) Hv)
    as (r0 & m' & Hrun & (Hp' & Hc' & Hr' & _) & _).
  destruct Hh as (Hp & Hc & Hr & _).
  pose proof (ssize_s_addword v (brk m) chain) as Hsz.
  rewrite (findword_sim w' fuel root rn chain m Hp Hc Hr ltac:(lia) Hw') in Hfind.
  exists r0, m'.
  rewrite (findword_sim w' fuel root _ _ m' Hp' Hc' Hr' ltac:(lia) Hw').
  rewrite s_findword_addword_other by exact Hpre.
  revert Hfind. destruct (s_findword chain w'); intros [= <- _]; eauto.
Qed.

(** ** Collapse of the first child *)

(** Collapsing the first child of a parent, when that child has a next
    sibling: the sibling becomes the parent's first child, the child and
    the tree of its children are released, and nothing else changes. *)
Theorem collapse_first_child_with_sibling fuel m parent pn l c t mt sib chi :
  nodes m !! parent = Some pn → child pn = Some l →
  repr (nodes m) (SCell l c t mt sib chi) → sib ≠ SNil →
  NoDup (parent :: addrs (SCell l c t mt sib chi)) →
  (ssize (SCell l c t mt sib chi) ≤ fuel)%nat →
  ∃ m',
    wTrie_collapse fuel (Some parent) c m = Ret true m'
    ∧ nodes m' !! parent = Some (set_child (sroot sib) pn)
    ∧ repr (nodes m') sib
    ∧ freed m' = freed m ++ l :: addrs chi
    ∧ (∀ x, x ∈ l :: addrs chi → nodes m' !! x = None)
    ∧ (∀ x, x ≠ parent → x ∉ l :: addrs chi → nodes m' !! x = nodes m !! x).
Proof.
  intros Hp Hc (Hl & Hrs & Hrc) Hsib Hnd Hle.
  cbn [addrs] in Hnd. apply NoDup_cons in Hnd as [Hpar Hnd].
  apply not_elem_of_cons in Hpar as [Hpl Hpar].
  apply not_elem_of_app in Hpar as [Hps Hpc].
  apply NoDup_cons in Hnd as [Hnl Hnd].
  apply not_elem_of_app in Hnl as [Hls Hlc].
  apply NoDup_app in Hnd as (Hns & Hsc & Hnc).
  simpl in Hle. destruct fuel as [|fuel]; [lia|].
  assert (Hchild : wTrie_child (S fuel) (Some parent) c (Some None) m
                   = Ret (Some l, Some None) m).
  { unfold wTrie_child, PRECONDITION. cbn [is_set]. run_load Hp. rewrite Hc.
    cbn [wTrie_child_loop]. run_load Hl. cbn [wc sibling].
    rewrite bool_decide_eq_true_2 by reflexivity. apply child_loop_done. }
  set (h2 := <[l := mk_wTrie c None (sroot chi) t mt]>
               (<[parent := set_child (sroot sib) pn]> (nodes m))).
  set (m2 := with_nodes h2 m).
  assert (Hr2 : repr (nodes m2) (SCell l c t mt SNil chi)).
  { split; [cbn; apply lookup_insert_eq|]. split; [exact I|].
    eapply repr_frame; [|exact Hrc]. intros x Hx. cbn. unfold h2.
    rewrite !lookup_insert_ne; [reflexivity| |]; intros ->; contradiction. }
  destruct (purge_link (SCell l c t mt SNil chi) (S fuel) m2 Hr2) as (m' & Hrun & Hfr & Hn).
  { cbn [addrs app]. apply NoDup_cons. now split. }
  { simpl. lia. }
  exists m'. split; [|split; [|split; [|split; [|split]]]].
  - unfold wTrie_collapse, PRECONDITION. cbn [is_set]. run Hchild.
    cbn [default is_set negb]. run_load Hl. cbn [sibling].
    destruct sib as [|ls cs ts ms sibs chis]; [congruence|]. cbn [sroot is_set].
    erewrite bind_Ret by (eapply store_Ret; exact Hp).
    erewrite bind_Ret
      by (eapply store_Ret; cbn; rewrite lookup_insert_ne by congruence; exact Hl).
    cbn [set_sibling wc sibling child term meta].
    cbn [sroot is_set] in Hrun. fold h2. fold m2. run Hrun. reflexivity.
  - rewrite Hn. rewrite decide_False.
    + cbn. unfold h2. rewrite lookup_insert_ne by congruence. apply lookup_insert_eq.
    + cbn [addrs app]. rewrite not_elem_of_cons. auto.
  - eapply repr_frame; [|exact Hrs]. intros x Hx. rewrite Hn.
    rewrite decide_False.
    + cbn. unfold h2. rewrite !lookup_insert_ne; [reflexivity| |]; intros ->; contradiction.
    + cbn [addrs app]. rewrite not_elem_of_cons. split; [intros ->; contradiction|].
      now apply Hsc.
  - rewrite Hfr. reflexivity.
  - intros x Hx. rewrite Hn. now rewrite decide_True.
  - intros x Hxp Hx. rewrite Hn. rewrite decide_False by exact Hx.
    cbn. unfold h2. apply not_elem_of_cons in Hx as [Hxl _].
    now rewrite !lookup_insert_ne by congruence.
Qed.

(** ** Collapse further down the child list *)

Lemma repr_s_nth h chain : ∀ i, repr h chain → repr h (s_nth chain i).
Proof.
  induction chain as [|l c t mt sib IH chi _]; intros [|i]; simpl; auto.
  intros (_ & Hs & _). now apply IH.
Qed.

Lemma addrs_s_nth chain x : ∀ i, x ∈ addrs (s_nth chain i) → x ∈ addrs chain.
Proof.
  induction chain as [|l c t mt sib IH chi _]; intros [|i]; simpl; auto.
  intros H. apply list_elem_of_further, elem_of_app. left. now apply (IH i).
Qed.

Lemma NoDup_s_nth chain : ∀ i, NoDup (addrs chain) → NoDup (addrs (s_nth chain i)).
Proof.
  induction chain as [|l c t mt sib IH chi _]; intros [|i]; simpl; auto.
  intros Hnd. apply NoDup_cons in Hnd as [_ Hnd].
  apply NoDup_app in Hnd as (Hnd & _ & _). now apply IH.
Qed.

Lemma s_chain_s_nth chain : ∀ i, s_chain (s_nth chain i) = drop i (s_chain chain).
Proof.
  induction chain as [|l c t mt sib IH chi _]; intros [|i]; simpl; auto.
Qed.

Lemma ssize_s_nth chain : ∀ i, (ssize (s_nth chain i) ≤ ssize chain)%nat.
Proof.
  induction chain as [|l c t mt sib IH chi _]; intros [|i]; simpl; auto.
  specialize (IH i). lia.
Qed.

(** The lookup of a symbol first carried by a child after the head. *)
Lemma child_found_later fuel m p pn chain wch v i l :
  nodes m !! p = Some pn → child pn = sroot chain →
  repr (nodes m) chain → (s_len chain ≤ fuel)%nat →
  s_chain chain !! S i = Some (l, wch) →
  (∀ j l' c', (j ≤ i)%nat → s_chain chain !! j = Some (l', c') → c' ≠ wch) →
  wTrie_child fuel (Some p) wch (Some v) m
  = Ret (Some l, Some (match i with
                       | O => None
                       | S _ => fst <$> s_chain chain !! i
                       end)) m.
Proof.
  intros Hp Hc Hr Hle Hi Hfirst.
  unfold wTrie_child, PRECONDITION. cbn [is_set].
  run_load Hp. rewrite Hc.
  destruct chain as [|l0 c0 t0 mt0 sib chi]; [discriminate|].
  pose proof Hr as (Hl0 & Hrs & _). simpl in Hle.
  destruct fuel as [|fuel]; [lia|].
  cbn [sroot wTrie_child_loop].
  run_load Hl0. cbn [wc sibling]. simpl in Hi.
  assert (c0 ≠ wch) as Hne by (apply (Hfirst O l0 c0); [lia|reflexivity]).
  rewrite (bool_decide_eq_false_2 _ Hne).
  rewrite bool_decide_eq_false_2 by (intros H; now apply H).
  rewrite (child_loop_tail sib fuel (Some l0) wch None v m i l); auto with lia.
  - destruct i; reflexivity.
  - intros l' c' Hin [= ->]. eapply head_not_in_siblings; eauto.
  - intros j l' c' Hj. apply (Hfirst (S j)). lia.
Qed.

(** What [wTrie_collapse] does once the lookup has answered a child with
    a next sibling: the link [relink] rewrites is redirected, the child is
    cut off and purged. *)
Lemma collapse_run fuel m parent wch lsib l c t mt sib chi h1 :
  wTrie_child fuel (Some parent) wch (Some None) m = Ret (Some l, Some lsib) m →
  repr (nodes m) (SCell l c t mt sib chi) → sib ≠ SNil →
  NoDup (addrs (SCell l c t mt sib chi)) →
  (ssize (SCell l c t mt sib chi) ≤ fuel)%nat →
  (if is_set lsib then store lsib (set_sibling (sroot sib))
   else store (Some parent) (set_child (sroot sib))) m
  = Ret () (with_nodes h1 m) →
  (∀ x, x ∈ l :: addrs chi → h1 !! x = nodes m !! x) →
  ∃ m',
    wTrie_collapse fuel (Some parent) wch m = Ret true m'
    ∧ freed m' = freed m ++ l :: addrs chi
    ∧ ∀ x, nodes m' !! x = if decide (x ∈ l :: addrs chi) then None else h1 !! x.
Proof.
  intros Hchild (Hl & Hrs & Hrc) Hsib Hnd Hle Hst Hsame.
  cbn [addrs] in Hnd. apply NoDup_cons in Hnd as [Hnl Hnd].
  apply not_elem_of_app in Hnl as [Hls Hlc].
  apply NoDup_app in Hnd as (Hns & Hsc & Hnc).
  set (h2 := <[l := mk_wTrie c None (sroot chi) t mt]> h1).
  set (m2 := with_nodes h2 m).
  assert (Hr2 : repr (nodes m2) (SCell l c t mt SNil chi)).
  { split; [cbn; apply lookup_insert_eq|]. split; [exact I|].
    eapply repr_frame; [|exact Hrc]. intros x Hx. cbn. unfold h2.
    rewrite lookup_insert_ne by (intros ->; contradiction).
    apply Hsame. now apply list_elem_of_further. }
  destruct (purge_link (SCell l c t mt SNil chi) fuel m2 Hr2) as (m' & Hrun & Hfr & Hn).
  { cbn [addrs app]. apply NoDup_cons. now split. }
  { simpl in *. lia. }
  exists m'. split; [|split].
  - unfold wTrie_collapse, PRECONDITION. cbn [is_set]. run Hchild.
    cbn [default is_set negb]. run_load Hl. cbn [sibling].
    destruct sib as [|ls cs ts ms sibs chis]; [congruence|]. cbn [sroot is_set] in *.
    run Hst.
    erewrite bind_Ret
      by (eapply store_Ret; cbn; rewrite Hsame by apply list_elem_of_here; exact Hl).
    cbn [set_sibling wc sibling child term meta].
    fold h2. replace (with_nodes h2 (with_nodes h1 m)) with m2 by reflexivity.
    run Hrun. reflexivity.
  - rewrite Hfr. reflexivity.
  - intros x. rewrite Hn. cbn [addrs app].
    destruct (decide (x ∈ l :: addrs chi)) as [Hx|Hx]; [reflexivity|].
    cbn. unfold h2. apply not_elem_of_cons in Hx as [Hxl _].
    now rewrite lookup_insert_ne by congruence.
Qed.

(** Collapsing the third or a later child, when it has a next sibling: the
    previous sibling is linked to the next one, the child and the tree of
    its children are released, and nothing else changes. *)
Theorem collapse_later_child_with_sibling fuel m parent pn chain i
    lp cp tp mtp chip l c t mt sib chi :
  holds m parent pn chain → (ssize chain ≤ fuel)%nat →
  (1 ≤ i)%nat →
  s_nth chain i = SCell lp cp tp mtp (SCell l c t mt sib chi) chip →
  (∀ j l' c', (j ≤ i)%nat → s_chain chain !! j = Some (l', c') → c' ≠ c) →
  sib ≠ SNil →
  ∃ m',
    wTrie_collapse fuel (Some parent) c m = Ret true m'
    ∧ nodes m' !! lp = Some (mk_wTrie cp (sroot sib) (sroot chip) tp mtp)
    ∧ repr (nodes m') sib
    ∧ freed m' = freed m ++ l :: addrs chi
    ∧ (∀ x, x ∈ l :: addrs chi → nodes m' !! x = None)
    ∧ (∀ x, x ≠ lp → x ∉ l :: addrs chi → nodes m' !! x = nodes m !! x).
Proof.
  intros (Hp & Hc & Hr & Hnd & _) Hle Hi Hnth Hfirst Hsib.
  apply NoDup_cons in Hnd as [_ Hnd].
  pose proof (repr_s_nth _ _ i Hr) as Hri.
  pose proof (NoDup_s_nth _ i Hnd) as Hndi.
  pose proof (s_chain_s_nth chain i) as Hch.
  rewrite Hnth in Hri, Hndi, Hch.
  destruct Hri as (Hlp & Hrl & _). pose proof Hrl as (Hl & Hrs & _).
  cbn [addrs] in Hndi. apply NoDup_cons in Hndi as [Hlpn Hndi].
  apply not_elem_of_app in Hlpn as [Hlpn _].
  apply NoDup_app in Hndi as (Hndl & _ & _).
  pose proof Hndl as Hndl'.
  cbn [app] in Hlpn, Hndl'. apply not_elem_of_cons in Hlpn as [Hlpl Hlpn].
  apply not_elem_of_app in Hlpn as [Hlps Hlpc].
  apply NoDup_cons in Hndl' as [Hnl Hndl'].
  apply not_elem_of_app in Hnl as [Hls Hlc].
  apply NoDup_app in Hndl' as (_ & Hsc & _).
  cbn [s_chain] in Hch.
  assert (Hat : s_chain chain !! i = Some (lp, cp)).
  { rewrite <- (Nat.add_0_r i), <- lookup_drop, <- Hch. reflexivity. }
  assert (Hat' : s_chain chain !! S i = Some (l, c)).
  { replace (S i) with (i + 1)%nat by lia. rewrite <- lookup_drop, <- Hch. reflexivity. }
  pose proof (s_len_ssize chain) as Hlen.
  pose proof (child_found_later fuel m parent pn chain c None i l Hp Hc Hr
                ltac:(lia) Hat' Hfirst) as Hchild.
  destruct i as [|i]; [lia|]. rewrite Hat in Hchild. cbn [fmap option_fmap option_map fst] in Hchild.
  assert (Hsz : (ssize (SCell l c t mt sib chi) ≤ fuel)%nat).
  { pose proof (ssize_s_nth chain (S i)) as Hs. rewrite Hnth in Hs.
    simpl in Hs |- *. lia. }
  destruct (collapse_run fuel m parent c (Some lp) l c t mt sib chi
              (<[lp := mk_wTrie cp (sroot sib) (sroot chip) tp mtp]> (nodes m))
              Hchild Hrl Hsib Hndl Hsz) as (m' & Hrun & Hfr & Hn).
  { cbn [is_set]. erewrite store_Ret by exact Hlp. reflexivity. }
  { intros x Hx. apply lookup_insert_ne. intros <-.
    apply elem_of_cons in Hx as [Hx|Hx]; [congruence|contradiction]. }
  exists m'. split; [exact Hrun|]. split; [|split; [|split; [exact Hfr|split]]].
  - rewrite Hn. rewrite decide_False; [apply lookup_insert_eq|].
    rewrite not_elem_of_cons. auto.
  - eapply repr_frame; [|exact Hrs]. intros x Hx. rewrite Hn.
    rewrite decide_False.
    + apply lookup_insert_ne. intros <-. contradiction.
    + rewrite not_elem_of_cons. split; [intros ->; contradiction|]. now apply Hsc.
  - intros x Hx. rewrite Hn. now rewrite decide_True.
  - intros x Hxp Hx. rewrite Hn. rewrite decide_False by exact Hx.
    now rewrite lookup_insert_ne by congruence.
Qed.

(** Collapsing the second child, when it has a next sibling: the lookup
    stores no previous sibling for it, so the parent's first child becomes
    the third; the first child stays allocated, out of the parent's child
    list, with the released node as its next sibling. *)
Theorem collapse_second_child_drops_first fuel m parent pn
    l0 c0 t0 mt0 chi0 l c t mt sib chi :
  holds m parent pn (SCell l0 c0 t0 mt0 (SCell l c t mt sib chi) chi0) →
  (ssize (SCell l0 c0 t0 mt0 (SCell l c t mt sib chi) chi0) ≤ fuel)%nat →
  c0 ≠ c → sib ≠ SNil →
  ∃ m',
    wTrie_collapse fuel (Some parent) c m = Ret true m'
    ∧ nodes m' !! parent = Some (set_child (sroot sib) pn)
    ∧ repr (nodes m') sib
    ∧ nodes m' !! l0 = Some (mk_wTrie c0 (Some l) (sroot chi0) t0 mt0)
    ∧ nodes m' !! l = None
    ∧ freed m' = freed m ++ l :: addrs chi
    ∧ l0 ∉ l :: addrs chi.
Proof.
  intros (Hp & Hc & Hr & Hnd & _) Hle Hne Hsib.
  pose proof Hr as (Hl0 & Hrl & _). pose proof Hrl as (Hl & Hrs & _).
  apply NoDup_cons in Hnd as [Hpar Hnd].
  cbn [addrs] in Hpar, Hnd.
  apply not_elem_of_cons in Hpar as [Hpl0 Hpar].
  apply not_elem_of_app in Hpar as [Hpar _].
  apply not_elem_of_cons in Hpar as [Hpl Hpar].
  apply not_elem_of_app in Hpar as [Hps Hpc].
  apply NoDup_cons in Hnd as [Hl0n Hnd].
  apply not_elem_of_app in Hl0n as [Hl0n _].
  apply not_elem_of_cons in Hl0n as [Hl0l Hl0n].
  apply not_elem_of_app in Hl0n as [Hl0s Hl0c].
  apply NoDup_app in Hnd as (Hndl & _ & _).
  pose proof Hndl as Hndl'.
  apply NoDup_cons in Hndl' as [Hnl Hndl'].
  apply not_elem_of_app in Hnl as [Hls Hlc].
  apply NoDup_app in Hndl' as (_ & Hsc & _).
  pose proof (s_len_ssize (SCell l0 c0 t0 mt0 (SCell l c t mt sib chi) chi0)) as Hlen.
  pose proof (child_found_later fuel m parent pn _ c None O l Hp Hc Hr
                ltac:(lia) eq_refl) as Hchild.
  cbn beta iota in Hchild.
  assert (Hsz : (ssize (SCell l c t mt sib chi) ≤ fuel)%nat) by (simpl in *; lia).
  destruct (collapse_run fuel m parent c None l c t mt sib chi
              (<[parent := set_child (sroot sib) pn]> (nodes m))
              (Hchild ltac:(intros [|j] l' c' Hj; [intros [= _ <-]; exact Hne|lia]))
              Hrl Hsib Hndl Hsz) as (m' & Hrun & Hfr & Hn).
  { cbn [is_set]. erewrite store_Ret by exact Hp. reflexivity. }
  { intros x Hx. apply lookup_insert_ne. intros <-.
    apply elem_of_cons in Hx as [Hx|Hx]; [congruence|contradiction]. }
  assert (Hl0out : l0 ∉ l :: addrs chi) by (rewrite not_elem_of_cons; auto).
  exists m'. split; [exact Hrun|].
  split; [|split; [|split; [|split; [|split; [exact Hfr|exact Hl0out]]]]].
  - rewrite Hn. rewrite decide_False; [apply lookup_insert_eq|].
    rewrite not_elem_of_cons. auto.
  - eapply repr_frame; [|exact Hrs]. intros x Hx. rewrite Hn.
    rewrite decide_False.
    + apply lookup_insert_ne. intros <-. contradiction.
    + rewrite not_elem_of_cons. split; [intros ->; contradiction|]. now apply Hsc.
  - rewrite Hn. rewrite decide_False by exact Hl0out.
    rewrite lookup_insert_ne by congruence. exact Hl0.
  - rewrite Hn. rewrite decide_True by apply list_elem_of_here. reflexivity.
Qed.

(** Collapsing a symbol that no child of the parent carries fails with
    [E_WTRIE_NOSUCHNODE] and changes nothing else. *)
Theorem collapse_absent_symbol fuel m parent pn chain wch :
  holds m parent pn chain → (ssize chain ≤ fuel)%nat →
  s_child chain wch = SNil →
  wTrie_collapse fuel (Some parent) wch m
  = Ret false (with_errno E_WTRIE_NOSUCHNODE m).
Proof.
  intros (Hp & Hc & Hr & _) Hle Habs.
  destruct (child_sim_any fuel parent pn chain wch (Some None) m Hp Hc Hr Hle)
    as [written Hchild].
  rewrite Habs in Hchild.
  unfold wTrie_collapse, PRECONDITION. cbn [is_set]. run Hchild. reflexivity.
Qed.

(** ** The leaf of a word on a path without branches *)

Lemma hasmultichild_shape m l c t mt sib chi :
  repr (nodes m) (SCell l c t mt sib chi) →
  wTrie_hasmultichild (Some l) m = Ret (negb (s_len chi <=? 1)%nat) m.
Proof.
  intros (Hl & _ & Hc). unfold wTrie_hasmultichild, PRECONDITION. cbn [is_set].
  run_load Hl. cbn [child].
  destruct chi as [|l' c' t' mt' sib' chi']; cbn [sroot is_set]; [reflexivity|].
  destruct Hc as (Hl' & _).
  run (load_Ret _ _ _ Hl'). cbn [sibling].
  destruct sib'; reflexivity.
Qed.

Lemma leaf_loop_unbranched w : ∀ fuel m cur cn chain n leaf parent,
  nodes m !! cur = Some cn → child cn = sroot chain →
  repr (nodes m) chain → (ssize chain ≤ fuel)%nat →
  match w with
  | [] => cur = n
  | _ :: _ => s_findword chain w = Some n ∧ s_unbranched chain w = true
  end →
  (∀ nn, nodes m !! n = Some nn → child nn = None) →
  wTrie_leaf_loop fuel (Some n) (Some cur) w leaf parent m
  = Ret (match w with
         | [] => (leaf, parent)
         | c :: _ => (if is_set leaf then leaf else sroot (s_child chain c),
                      if is_set parent then parent else Some cur)
         end) m.
Proof.
  induction w as [|c rest IH]; intros fuel m cur cn chain n leaf parent Hp Hc Hr Hle Hw Hn.
  - subst n. cbn [wTrie_leaf_loop].
    rewrite bool_decide_eq_true_2 by reflexivity.
    run (child_sim _ _ _ _ (deref []) _ Hp Hc Hr Hle).
    cbn [negb]. rewrite bind_assoc; run_load Hp.
    rewrite (Hn _ Hp). reflexivity.
  - destruct Hw as [Hw Hu]. cbn [wTrie_leaf_loop s_findword s_unbranched] in *.
    rewrite (bind_Ret _ _ _ _ _ (child_sim _ _ _ _ (deref (c :: rest)) _ Hp Hc Hr Hle)).
    cbn [deref hd].
    pose proof (repr_s_child _ _ c Hr) as Hrc.
    pose proof (ssize_s_child chain c) as Hsz.
    destruct (s_child chain c) as [|l c' t mt sib chi] eqn:Ech; [discriminate|].
    apply andb_prop in Hu as [Hlen Hu].
    case_bool_decide as Hfin; cbn [negb].
    + injection Hfin as ->. pose proof (Hn _ Hp) as Hnn.
      rewrite Hnn in Hc. destruct chain; [discriminate Ech|discriminate Hc].
    + cbn [sroot]. rewrite bind_assoc.
      run (hasmultichild_shape _ _ _ _ _ _ _ Hrc). rewrite Hlen. cbn [negb].
      pose proof Hrc as (Hl & _ & Hrchi). simpl in Hsz.
      unfold bind at 1, ret at 1.
      rewrite (IH fuel m l _ chi n _ _ Hl eq_refl Hrchi ltac:(lia)); [|clear IH|exact Hn].
      * destruct rest as [|c2 rest2]; [reflexivity|].
        destruct leaf, parent; reflexivity.
      * destruct rest as [|c2 rest2]; cbn [at_end negb andb] in Hw.
        -- destruct t; cbn in Hw; [|discriminate]. now injection Hw.
        -- rewrite andb_false_r in Hw. split; [exact Hw|exact Hu].
Qed.

Lemma leaf_loop_unbranched_leaf fuel m root rn chain w n nn parent_p :
  holds m root rn chain → (ssize chain ≤ fuel)%nat →
  wTrie_findword fuel (Some root) w m = Ret (Some n) m →
  nodes m !! n = Some nn → child nn = None →
  s_unbranched chain w = true →
  wTrie_leaf fuel (Some root) w parent_p m
  = Ret (sroot (s_child chain (deref w)), put parent_p (Some root)) m.
Proof.
  intros (Hp & Hc & Hr & _) Hle Hfind Hn Hch Hu.
  assert (Hw : w ≠ []) by (intros ->; cbn in Hfind; discriminate).
  unfold wTrie_leaf, PRECONDITION. cbn [is_set].
  destruct w as [|c rest]; [congruence|]. cbn [at_end negb].
  run Hfind. cbn [is_set].
  rewrite (findword_sim _ fuel root rn chain m Hp Hc Hr Hle Hw) in Hfind.
  destruct (s_findword chain (c :: rest)) as [n'|] eqn:Es; [|discriminate].
  injection Hfind as ->.
  rewrite (bind_Ret _ _ _ _ _
    (leaf_loop_unbranched (c :: rest) fuel m root rn chain n None None Hp Hc Hr Hle
       (conj Es Hu) ltac:(intros nn' Hn'; congruence))).
  reflexivity.
Qed.

(** For a stored word whose terminating node has no children and on whose
    path no node has two children or more, [wTrie_leaf] answers the first
    node of the path, whatever other words end on the path, and stores the
    root as its parent. *)
Theorem leaf_of_unbranched_word fuel m root rn chain w n nn parent_p :
  holds m root rn chain → (ssize chain ≤ fuel)%nat →
  wTrie_findword fuel (Some root) w m = Ret (Some n) m →
  nodes m !! n = Some nn → child nn = None →
  s_unbranched chain w = true →
  wTrie_leaf fuel (Some root) w parent_p m
  = Ret (sroot (s_child chain (deref w)), put parent_p (Some root)) m.
Proof. apply leaf_loop_unbranched_leaf. Qed.

(** Removing such a word is collapsing its first character under the
    root. *)
Lemma rmword_unbranched_as_collapse fuel m root rn chain w n nn :
  holds m root rn chain → (ssize chain ≤ fuel)%nat →
  wTrie_findword fuel (Some root) w m = Ret (Some n) m →
  nodes m !! n = Some nn → child nn = None →
  s_unbranched chain w = true →
  wTrie_rmword fuel (Some root) w m
  = (wTrie_collapse fuel (Some root) (deref w) ;; ret true) m.
Proof.
  intros Hh Hle Hfind Hn Hch Hu.
  pose proof Hh as (Hp & Hc & Hr & _).
  assert (Hw : w ≠ []) by (intros ->; cbn in Hfind; discriminate).
  pose proof Hfind as Hfind'.
  rewrite (findword_sim _ fuel root rn chain m Hp Hc Hr Hle Hw) in Hfind'.
  destruct w as [|c rest]; [congruence|].
  pose proof (repr_s_child _ _ c Hr) as Hrc.
  cbn [s_findword] in Hfind'.
  destruct (s_child chain c) as [|l c' t mt sib chi] eqn:Ech; [discriminate|].
  pose proof (s_child_wc _ _ _ _ _ _ _ _ Ech) as ->.
  destruct Hrc as (Hl & _).
  unfold wTrie_rmword, PRECONDITION. run Hfind. cbn [is_set].
  run (leaf_loop_unbranched_leaf fuel m root rn chain (c :: rest) n nn (Some None)
         Hh Hle Hfind Hn Hch Hu).
  cbn [deref hd]. rewrite Ech. cbn [sroot is_set default put].
  rewrite bind_assoc. run_load Hn. rewrite Hch. cbn [is_set negb].
  rewrite bind_assoc. run_load Hl. cbn [wc].
  unfold bind, ret, id. now destruct (wTrie_collapse fuel (Some root) c m).
Qed.

(** ** Positions in a child list *)

Lemma s_nth_s_index chain wch : s_nth chain (s_index chain wch) = s_child chain wch.
Proof.
  induction chain as [|l c t mt sib IH chi _]; [reflexivity|].
  cbn [s_index s_child]. case_bool_decide; [reflexivity|exact IH].
Qed.

Lemma s_nth_S chain : ∀ j,
  s_nth chain (S j)
  = match s_nth chain j with SCell _ _ _ _ sib _ => sib | SNil => SNil end.
Proof.
  induction chain as [|l c t mt sib IH chi _]; intros [|j]; try reflexivity.
  - cbn [s_nth]. now destruct sib.
  - cbn [s_nth]. rewrite <- IH. now destruct sib.
Qed.

Lemma s_index_first chain wch : ∀ l c t mt sib chi,
  s_child chain wch = SCell l c t mt sib chi →
  s_chain chain !! s_index chain wch = Some (l, wch)
  ∧ ∀ j l' c', (j < s_index chain wch)%nat →
      s_chain chain !! j = Some (l', c') → c' ≠ wch.
Proof.
  induction chain as [|l0 c0 t0 mt0 sib0 IH chi0 _]; intros l c t mt sib chi;
    cbn [s_child s_index s_chain]; [discriminate|].
  case_bool_decide as Hc.
  - intros [= -> _ _ _ _ _]. subst c0. split; [reflexivity|]. intros j l' c' Hj. lia.
  - intros H. destruct (IH _ _ _ _ _ _ H) as [H1 H2]. split; [exact H1|].
    intros [|j] l' c' Hj; cbn.
    + intros [= _ <-]. exact Hc.
    + apply H2. lia.
Qed.

Lemma s_index_unique chain wch : ∀ i l,
  s_chain chain !! i = Some (l, wch) →
  (∀ j l' c', (j < i)%nat → s_chain chain !! j = Some (l', c') → c' ≠ wch) →
  s_index chain wch = i.
Proof.
  induction chain as [|l0 c0 t0 mt0 sib0 IH chi0 _]; intros i l;
    cbn [s_chain s_index]; [discriminate|].
  intros Hi Hfirst. case_bool_decide as Hc.
  - destruct i as [|i]; [reflexivity|].
    exfalso. apply (Hfirst O l0 c0); [lia|reflexivity|exact Hc].
  - destruct i as [|i]; cbn in Hi.
    + injection Hi as _ ->. congruence.
    + f_equal. apply (IH i l Hi). intros j l' c' Hj. apply (Hfirst (S j)). lia.
Qed.

(** The cell found at a position of the child list. *)
Lemma s_child_at chain wch i l :
  s_chain chain !! i = Some (l, wch) →
  (∀ j l' c', (j < i)%nat → s_chain chain !! j = Some (l', c') → c' ≠ wch) →
  s_index chain wch = i
  ∧ ∃ t mt sib chi, s_child chain wch = SCell l wch t mt sib chi.
Proof.
  intros Hi Hfirst. pose proof (s_index_unique _ _ _ _ Hi Hfirst) as Hx.
  split; [exact Hx|]. rewrite <- s_nth_s_index, Hx.
  pose proof (s_chain_s_nth chain i) as Hch.
  destruct (s_nth chain i) as [|l' c' t mt sib chi].
  - cbn in Hch. pose proof (lookup_drop (s_chain chain) i 0) as Hd.
    rewrite <- Hch, Nat.add_0_r, Hi in Hd. discriminate.
  - cbn [s_chain] in Hch. pose proof (lookup_drop (s_chain chain) i 0) as Hd.
    rewrite <- Hch, Nat.add_0_r, Hi in Hd. injection Hd as -> ->. eauto.
Qed.

(** The child list of a parent whose children are a tree. *)
Lemma sibling_list_repr h chain :
  repr h chain → sibling_list h (sroot chain) (s_chain chain).*1.
Proof.
  induction chain as [|l c t mt sib IH chi _]; cbn; [constructor|].
  intros (Hl & Hs & _). eapply sibling_list_cons; [exact Hl|]. cbn. now apply IH.
Qed.

(** ** Spawning on an existing child *)

(** C9: when a child of the parent carries the symbol, the first such
    child standing at position [i] of the child list, a strict spawn fails
    with [E_WTRIE_DUPCHILD] and changes no node; a spawn that is not
    strict answers that child and overwrites its terminating flag and
    payload where it stands: every link and every other node is as
    before, the child list is the same list and the child is still at
    position [i] in it. *)
Theorem spawn_on_existing_child fuel m parent pn chain wch i c term0 meta0 meta_sz :
  nodes m !! parent = Some pn → child pn = sroot chain →
  repr (nodes m) chain → (ssize chain ≤ fuel)%nat →
  s_chain chain !! i = Some (c, wch) →
  (∀ j l' c', (j < i)%nat → s_chain chain !! j = Some (l', c') → c' ≠ wch) →
  ∃ n,
    nodes m !! c = Some n ∧ wc n = wch
    ∧ wTrie_spawn fuel true (Some parent) wch term0 meta0 meta_sz m
      = Ret None (mk_mem (nodes m) (blobs m) (brk m) E_WTRIE_DUPCHILD (freed m))
    ∧ wTrie_spawn fuel false (Some parent) wch term0 meta0 meta_sz m
      = Ret (Some c)
          (mk_mem (<[c := mk_wTrie (wc n) (sibling n) (child n) term0 meta0]> (nodes m))
             (blobs m) (brk m) (errno m) (freed m))
    ∧ children_of (nodes m) parent (s_chain chain).*1
    ∧ children_of (<[c := mk_wTrie (wc n) (sibling n) (child n) term0 meta0]> (nodes m))
        parent (s_chain chain).*1
    ∧ (s_chain chain).*1 !! i = Some c.
Proof.
  intros Hp Hc Hr Hle Hi Hfirst.
  destruct (s_child_at _ _ _ _ Hi Hfirst) as (_ & t & mt & sib & chi & Hch).
  pose proof (repr_s_child _ _ wch Hr) as Hrc. rewrite Hch in Hrc.
  destruct Hrc as (Hn & _).
  pose proof (child_sim fuel parent pn chain wch m Hp Hc Hr Hle) as Hchild.
  rewrite Hch in Hchild. cbn [sroot] in Hchild.
  assert (Hkids : children_of (nodes m) parent (s_chain chain).*1).
  { exists pn. split; [exact Hp|]. rewrite Hc. now apply sibling_list_repr. }
  exists (mk_wTrie wch (sroot sib) (sroot chi) t mt).
  split; [exact Hn|]. split; [reflexivity|]. cbn [wc sibling child].
  split; [|split; [|split; [exact Hkids|split]]].
  - unfold wTrie_spawn, PRECONDITION. cbn [is_set]. run Hchild. reflexivity.
  - unfold wTrie_spawn, PRECONDITION. cbn [is_set]. run Hchild.
    unfold bind, store. cbn. rewrite Hn. cbn.
    rewrite lookup_insert_eq. cbn. now rewrite insert_insert_eq.
  - eapply children_of_same_links; [|exact Hkids].
    exact (same_links_overwrite _ _ _ term0 meta0 Hn).
  - rewrite list_lookup_fmap, Hi. reflexivity.
Qed.

(** The theorem under the root of the trie holding "b" and "ac", whose
    children are the 'a' node and then the 'b' node, asked to spawn 'b'
    again: the strict spawn is refused, the other one unsets the flag of
    the 'b' node, still the second child. *)
Lemma spawn_on_existing_child_witness :
  wTrie_spawn 8 true (Some l_root) ch_b false None 0 m_b_ac
  = Ret None (mk_mem (nodes m_b_ac) (blobs m_b_ac) (brk m_b_ac) E_WTRIE_DUPCHILD
                (freed m_b_ac))
  ∧ ∃ m',
      wTrie_spawn 8 false (Some l_root) ch_b false None 0 m_b_ac = Ret (Some l_1) m'
      ∧ nodes m_b_ac !! l_1 = Some (mk_wTrie ch_b None None true None)
      ∧ nodes m' !! l_1 = Some (mk_wTrie ch_b None None false None)
      ∧ children_of (nodes m_b_ac) l_root [l_2; l_1]
      ∧ children_of (nodes m') l_root [l_2; l_1].
Proof.
  destruct (spawn_on_existing_child 8 m_b_ac l_root root_b_ac chain_b_ac ch_b 1 l_1
              false None 0)
    as (n & Hn & Hwc & Hstrict & Hloose & Hbefore & Hafter & _).
  - vm_compute. reflexivity.
  - reflexivity.
  - vm_compute. repeat split; reflexivity.
  - simpl. lia.
  - reflexivity.
  - intros [|j] l' c' Hj; [|lia]. intros [= _ <-]. discriminate.
  - split; [exact Hstrict|]. eexists. split; [exact Hloose|].
    assert (n = mk_wTrie ch_b None None true None) as ->.
    { apply (inj Some). rewrite <- Hn. vm_compute. reflexivity. }
    split; [exact Hn|]. split; [apply lookup_insert_eq|].
    split; [exact Hbefore|exact Hafter].
Defined.

(** ** What a collapse does, at any position of the child list *)

Lemma with_nodes_id m : with_nodes (nodes m) m = m.
Proof. now destruct m. Qed.

Lemma alter_live (h : gmap positive wTrie) f k n :
  h !! k = Some n → alter f k h = <[k := f n]> h.
Proof.
  intros Hk. apply map_eq. intros x. destruct (decide (x = k)) as [->|Hne].
  - now rewrite lookup_alter_eq, lookup_insert_eq, Hk.
  - now rewrite lookup_alter_ne, lookup_insert_ne by congruence.
Qed.

(** The lookup of [wTrie_collapse], by the position of the child. *)
Lemma child_at_index fuel m p pn chain wch v i l :
  nodes m !! p = Some pn → child pn = sroot chain →
  repr (nodes m) chain → (s_len chain ≤ fuel)%nat →
  s_chain chain !! i = Some (l, wch) →
  (∀ j l' c', (j < i)%nat → s_chain chain !! j = Some (l', c') → c' ≠ wch) →
  wTrie_child fuel (Some p) wch (Some v) m
  = Ret (Some l, Some (lsib_reported (s_chain chain) i)) m.
Proof.
  intros Hp Hc Hr Hle Hi Hfirst. destruct i as [|i].
  - unfold wTrie_child, PRECONDITION. cbn [is_set]. run_load Hp. rewrite Hc.
    destruct chain as [|l0 c0 t0 mt0 sib chi]; [discriminate|].
    injection Hi as -> ->. destruct Hr as (Hl0 & _). simpl in Hle.
    destruct fuel as [|fuel]; [lia|].
    cbn [sroot wTrie_child_loop]. run_load Hl0. cbn [wc sibling].
    rewrite bool_decide_eq_true_2 by reflexivity. apply child_loop_done.
  - rewrite (child_found_later fuel m p pn chain wch v i l Hp Hc Hr Hle Hi).
    + destruct i; reflexivity.
    + intros j l' c' Hj. apply Hfirst. lia.
Qed.

(** The body of [wTrie_collapse] once the lookup has answered: the link
    is redirected when the child has a next sibling, the child is cut off
    and purged. *)
Lemma collapse_run_any fuel m parent wch lsib l c t mt sib chi h1 :
  wTrie_child fuel (Some parent) wch (Some None) m = Ret (Some l, Some lsib) m →
  repr (nodes m) (SCell l c t mt sib chi) →
  NoDup (addrs (SCell l c t mt sib chi)) →
  (ssize (SCell l c t mt sib chi) ≤ fuel)%nat →
  (if is_set (sroot sib) then
     if is_set lsib then store lsib (set_sibling (sroot sib))
     else store (Some parent) (set_child (sroot sib))
   else ret ()) m
  = Ret () (with_nodes h1 m) →
  (∀ x, x ∈ l :: addrs chi → h1 !! x = nodes m !! x) →
  ∃ m',
    wTrie_collapse fuel (Some parent) wch m = Ret true m'
    ∧ freed m' = freed m ++ l :: addrs chi
    ∧ ∀ x, nodes m' !! x = if decide (x ∈ l :: addrs chi) then None else h1 !! x.
Proof.
  intros Hchild (Hl & Hrs & Hrc) Hnd Hle Hst Hsame.
  cbn [addrs] in Hnd. apply NoDup_cons in Hnd as [Hnl Hnd].
  apply not_elem_of_app in Hnl as [Hls Hlc].
  apply NoDup_app in Hnd as (Hns & Hsc & Hnc).
  set (h2 := <[l := mk_wTrie c None (sroot chi) t mt]> h1).
  set (m2 := with_nodes h2 m).
  assert (Hr2 : repr (nodes m2) (SCell l c t mt SNil chi)).
  { split; [cbn; apply lookup_insert_eq|]. split; [exact I|].
    eapply repr_frame; [|exact Hrc]. intros x Hx. cbn. unfold h2.
    rewrite lookup_insert_ne by (intros ->; contradiction).
    apply Hsame. now apply list_elem_of_further. }
  destruct (purge_link (SCell l c t mt SNil chi) fuel m2 Hr2) as (m' & Hrun & Hfr & Hn).
  { cbn [addrs app]. apply NoDup_cons. now split. }
  { simpl in *. lia. }
  exists m'. split; [|split].
  - unfold wTrie_collapse, PRECONDITION. cbn [is_set]. run Hchild.
    cbn [default is_set negb]. run_load Hl. cbn [sibling].
    run Hst.
    erewrite bind_Ret
      by (eapply store_Ret; cbn; rewrite Hsame by apply list_elem_of_here; exact Hl).
    cbn [set_sibling wc sibling child term meta].
    fold h2. replace (with_nodes h2 (with_nodes h1 m)) with m2 by reflexivity.
    cbn [sroot is_set] in Hrun. run Hrun. reflexivity.
  - rewrite Hfr. reflexivity.
  - intros x. rewrite Hn. cbn [addrs app].
    destruct (decide (x ∈ l :: addrs chi)) as [Hx|Hx]; [reflexivity|].
    cbn. unfold h2. apply not_elem_of_cons in Hx as [Hxl _].
    now rewrite lookup_insert_ne by congruence.
Qed.

(** The previous sibling the lookup reports is a live node outside of the
    tree that is released. *)
Lemma previous_sibling h chain c l t mt sib chi lp :
  repr h chain → NoDup (addrs chain) →
  s_child chain c = SCell l c t mt sib chi →
  lsib_reported (s_chain chain) (s_index chain c) = Some lp →
  is_Some (h !! lp) ∧ lp ∉ l :: addrs chi.
Proof.
  intros Hr Hnd Hch Hls.
  pose proof (s_nth_s_index chain c) as Hnth. rewrite Hch in Hnth.
  destruct (s_index chain c) as [|[|j]]; [discriminate..|].
  cbn [lsib_reported] in Hls.
  pose proof (repr_s_nth _ _ (S j) Hr) as Hrj.
  pose proof (NoDup_s_nth _ (S j) Hnd) as Hndj.
  pose proof (s_chain_s_nth chain (S j)) as Hcj.
  rewrite (s_nth_S chain (S j)) in Hnth.
  destruct (s_nth chain (S j)) as [|lp' cp tp mtp sibp chip]; [discriminate|].
  subst sibp. cbn [s_chain] in Hcj.
  pose proof (lookup_drop (s_chain chain) (S j) 0) as Hd.
  rewrite <- Hcj, Nat.add_0_r in Hd. cbn [lookup list_lookup] in Hd.
  rewrite <- Hd in Hls. injection Hls as ->.
  destruct Hrj as (Hlp & _). split; [eauto|].
  cbn [addrs] in Hndj. apply NoDup_cons in Hndj as [Hout _].
  intros Hin. apply Hout. apply elem_of_app. left.
  apply elem_of_cons in Hin as [->|Hin]; [apply list_elem_of_here|].
  apply list_elem_of_further, elem_of_app. now right.
Qed.

(** [wTrie_collapse] on a symbol that a child carries: the first such
    child and the tree of its children are released, in the order of the
    purge, and the only other change is the link redirected. *)
Lemma collapse_effect fuel m parent pn chain l c t mt sib chi :
  holds m parent pn chain → (ssize chain ≤ fuel)%nat →
  s_child chain c = SCell l c t mt sib chi →
  ∃ m',
    wTrie_collapse fuel (Some parent) c m = Ret true m'
    ∧ freed m' = freed m ++ l :: addrs chi
    ∧ ∀ x, nodes m' !! x =
           if decide (x ∈ l :: addrs chi) then None
           else relinked (nodes m) parent (s_chain chain) (s_index chain c)
                  (sroot sib) !! x.
Proof.
  intros (Hp & Hc & Hr & Hnd & _) Hle Hch.
  apply NoDup_cons in Hnd as [Hpar Hnd].
  destruct (s_index_first _ _ _ _ _ _ _ _ Hch) as [Hi Hfirst].
  pose proof (s_len_ssize chain) as Hlen.
  pose proof (child_at_index fuel m parent pn chain c None _ l Hp Hc Hr
                ltac:(lia) Hi Hfirst) as Hchild.
  pose proof (repr_s_child _ _ c Hr) as Hrc. rewrite Hch in Hrc.
  pose proof (NoDup_s_child _ c Hnd) as Hndc. rewrite Hch in Hndc.
  pose proof (ssize_s_child chain c) as Hszc. rewrite Hch in Hszc.
  assert (Hsub : ∀ x, x ∈ l :: addrs chi → x ∈ addrs chain).
  { intros x Hx. apply (addrs_s_child chain c). rewrite Hch. cbn [addrs].
    apply elem_of_cons in Hx as [->|Hx]; [apply list_elem_of_here|].
    apply list_elem_of_further, elem_of_app. now right. }
  assert (Hparx : ∀ x, x ∈ l :: addrs chi → x ≠ parent).
  { intros x Hx ->. apply Hpar. now apply Hsub. }
  apply (collapse_run_any fuel m parent c _ l c t mt sib chi _ Hchild Hrc Hndc
           ltac:(lia)).
  - unfold relinked. destruct (sroot sib) as [s|] eqn:Es; cbn [is_set].
    + destruct (lsib_reported (s_chain chain) (s_index chain c)) as [lp|] eqn:El;
        cbn [is_set].
      * destruct (previous_sibling _ _ _ _ _ _ _ _ _ Hr Hnd Hch El) as [[pnode Hlp] _].
        rewrite (alter_live _ _ _ _ Hlp). apply store_Ret. exact Hlp.
      * rewrite (alter_live _ _ _ _ Hp). apply store_Ret. exact Hp.
    + unfold ret. now rewrite with_nodes_id.
  - intros x Hx. unfold relinked. destruct (sroot sib) as [s|]; [|reflexivity].
    destruct (lsib_reported (s_chain chain) (s_index chain c)) as [lp|] eqn:El.
    + destruct (previous_sibling _ _ _ _ _ _ _ _ _ Hr Hnd Hch El) as [_ Hout].
      apply lookup_alter_ne. intros ->. contradiction.
    + apply lookup_alter_ne. intros Heq. exact (Hparx x Hx (eq_sym Heq)).
Qed.

(** ** Removal of a word on a path without branches *)

Lemma s_path_last w : ∀ chain n,
  s_findword chain w = Some n → last (s_path chain w) = Some n.
Proof.
  induction w as [|c rest IH]; intros chain n; cbn [s_findword s_path]; [discriminate|].
  destruct (s_child chain c) as [|l c' t mt sib chi]; [discriminate|].
  destruct rest as [|c2 rest2]; cbn [at_end negb].
  - destruct t; cbn [andb]; [|discriminate]. now intros [= <-].
  - rewrite andb_false_r. intros H. specialize (IH chi n H).
    cbn [s_path] in *. destruct (s_child chi c2); [discriminate|].
    exact IH.
Qed.

(** On a path without branches that ends at a node without children, the
    nodes of the path are the first one and all that hangs below it. *)
Lemma s_path_subtree w : ∀ chain n l c t mt sib chi,
  s_findword chain w = Some n → s_unbranched chain w = true →
  (∃ c0 t0 mt0 sib0, s_at chain w = SCell n c0 t0 mt0 sib0 SNil) →
  s_child chain (deref w) = SCell l c t mt sib chi →
  s_path chain w = l :: addrs chi.
Proof.
  induction w as [|c1 rest IH]; intros chain n l c t mt sib chi;
    cbn [s_findword s_unbranched s_at s_path deref hd]; [discriminate|].
  intros Hf Hu (c0 & t0 & mt0 & sib0 & Hat) Hch. rewrite Hch in *.
  apply andb_prop in Hu as [Hlen Hu]. apply Nat.leb_le in Hlen.
  f_equal. destruct rest as [|c2 rest2]; cbn [at_end negb] in *.
  - injection Hat as _ _ _ _ _ ->. reflexivity.
  - rewrite andb_false_r in Hf.
    pose proof Hf as Hf'. cbn [s_findword] in Hf'.
    destruct chi as [|l2 c2' t2 mt2 sib2 chi2]; [discriminate|].
    cbn [s_len] in Hlen. destruct sib2; [|cbn in Hlen; lia].
    cbn [s_child] in Hf'. case_bool_decide as Hc2; [|discriminate]. subst c2'.
    rewrite (IH _ n l2 c2 t2 mt2 SNil chi2 Hf Hu).
    + cbn [addrs app]. reflexivity.
    + eauto.
    + cbn [deref hd s_child]. now rewrite bool_decide_eq_true_2.
Qed.

(** Removing a stored word whose terminating node has no children and on
    whose path no node has two children or more.  The removal answers 1
    and releases the nodes of the path, from the node of the first
    character to the terminating node, whatever other words end on the
    path.  Nothing else changes but the link [wTrie_collapse] redirects
    for the first node of the path: none when that node has no next
    sibling (the link to it is left as it was), the previous sibling's
    when it is the root's third child or a later one, the root's child
    link when it is the first child or the second. *)
Theorem rmword_unbranched_word_releases_path fuel m root rn chain w n nn
    l c t mt sib chi :
  holds m root rn chain → (ssize chain ≤ fuel)%nat →
  wTrie_findword fuel (Some root) w m = Ret (Some n) m →
  nodes m !! n = Some nn → child nn = None →
  s_unbranched chain w = true →
  s_child chain (deref w) = SCell l c t mt sib chi →
  ∃ m',
    wTrie_rmword fuel (Some root) w m = Ret true m'
    ∧ freed m' = freed m ++ s_path chain w
    ∧ head (s_path chain w) = Some l
    ∧ last (s_path chain w) = Some n
    ∧ ∀ x, nodes m' !! x =
           if decide (x ∈ s_path chain w) then None
           else relinked (nodes m) root (s_chain chain)
                  (s_index chain (deref w)) (sroot sib) !! x.
Proof.
  intros Hh Hle Hfind Hn Hchild Hu Hch.
  pose proof Hh as (Hp & Hc & Hr & _).
  assert (Hw : w ≠ []) by (intros ->; cbn in Hfind; discriminate).
  pose proof Hfind as Hs.
  rewrite (findword_sim _ fuel root rn chain m Hp Hc Hr Hle Hw) in Hs.
  destruct (s_findword chain w) as [n'|] eqn:Es; [|discriminate].
  injection Hs as ->.
  destruct (s_findword_cell _ _ _ Es) as (c0 & mt0 & sib0 & chi0 & Hat & _).
  pose proof (repr_s_at _ w _ Hr) as Hra. rewrite Hat in Hra.
  destruct Hra as (Hn' & _). rewrite Hn in Hn'. injection Hn' as ->.
  cbn [child] in Hchild. destruct chi0; [|discriminate].
  pose proof (s_child_wc _ _ _ _ _ _ _ _ Hch) as ->.
  pose proof (s_path_subtree w chain n l _ t mt sib chi Es Hu
                ltac:(eauto) Hch) as Hpath.
  destruct (collapse_effect fuel m root rn chain l _ t mt sib chi Hh Hle Hch)
    as (m' & Hrun & Hfr & Hnodes).
  exists m'. rewrite Hpath. split; [|split; [exact Hfr|split; [reflexivity|split]]].
  - rewrite (rmword_unbranched_as_collapse fuel m root rn chain w n _ Hh Hle Hfind
               Hn eq_refl Hu).
    unfold bind. rewrite Hrun. reflexivity.
  - rewrite <- Hpath. now apply s_path_last.
  - exact Hnodes.
Qed.

(** ** The comparator *)

Section alpha.
Variable iswalpha : Z → bool.
Variable towlower : Z → Z.
Local Notation "'loop'" := (alpha_strcmp_r_loop iswalpha towlower).
Local Notation "'cmp'" := (alpha_strcmp_r iswalpha towlower).
Local Notation "'lett'" := (letters iswalpha towlower).

Lemma first_difference_nil_r a : first_difference a [] = 0.
Proof. now destruct a. Qed.

Lemma to_int_small z : -2147483648 ≤ z ≤ INT_MAX → to_int z = z.
Proof.
  unfold to_int, INT_MAX. intros H.
  rewrite Z.mod_small by lia. lia.
Qed.

Lemma wchar_at_lookup str (n : nat) c :
  str !! n = Some c → wchar_at str (Z.of_nat n) = Some c.
Proof.
  intros H. pose proof (lookup_lt_Some _ _ _ H) as Hlt.
  unfold wchar_at. rewrite Nat2Z.id.
  rewrite (proj2 (Z.leb_le 0 _)) by lia.
  rewrite (proj2 (Z.leb_le _ (Z.of_nat (length str)))) by lia.
  cbn [andb]. f_equal. now apply nth_lookup_Some with (d := 0) in H.
Qed.

Lemma loop_forward fuel : ∀ str1 str2 (n1 n2 : nat),
  Z.of_nat (length str1) ≤ INT_MAX → Z.of_nat (length str2) ≤ INT_MAX →
  (n1 ≤ length str1)%nat → (n2 ≤ length str2)%nat →
  ((length str1 - n1) + (length str2 - n2) < fuel)%nat →
  loop fuel str1 str2 (Z.of_nat n1) (Z.of_nat n2)
    (Z.of_nat (length str1)) (Z.of_nat (length str2)) 1
  = Answer (first_difference (lett (drop n1 str1)) (lett (drop n2 str2))).
Proof.
  induction fuel as [|fuel IH]; intros str1 str2 n1 n2 Hm1 Hm2 H1 H2 Hf; [lia|].
  cbn [alpha_strcmp_r_loop].
  destruct (decide (n1 = length str1)) as [->|Hn1].
  { rewrite Z.eqb_refl. cbn [negb andb]. now rewrite drop_all. }
  destruct (decide (n2 = length str2)) as [->|Hn2].
  { rewrite Z.eqb_refl, andb_false_r. rewrite (drop_all str2). cbn [letters].
    now rewrite first_difference_nil_r. }
  rewrite (proj2 (Z.eqb_neq (Z.of_nat n1) _)) by lia.
  rewrite (proj2 (Z.eqb_neq (Z.of_nat n2) _)) by lia. cbn [negb andb].
  destruct (lookup_lt_is_Some_2 str1 n1 ltac:(lia)) as [c1 Hc1].
  destruct (lookup_lt_is_Some_2 str2 n2 ltac:(lia)) as [c2 Hc2].
  rewrite (wchar_at_lookup _ _ _ Hc1).
  rewrite (drop_S _ _ _ Hc1), (drop_S _ _ _ Hc2). cbn [letters].
  assert (E1 : to_int (Z.of_nat n1 + 1) = Z.of_nat (S n1))
    by (rewrite to_int_small; unfold INT_MAX in *; lia).
  assert (E2 : to_int (Z.of_nat n2 + 1) = Z.of_nat (S n2))
    by (rewrite to_int_small; unfold INT_MAX in *; lia).
  destruct (iswalpha c1) eqn:A1; cbn [negb].
  - rewrite (wchar_at_lookup _ _ _ Hc2).
    destruct (iswalpha c2) eqn:A2; cbn [negb].
    + cbn [first_difference].
      destruct (towlower c1 >? towlower c2); [reflexivity|].
      destruct (towlower c1 <? towlower c2); [reflexivity|].
      rewrite E1, E2. apply IH; first [assumption|lia].
    + rewrite E2. rewrite (IH str1 str2 n1 (S n2)) by first [assumption|lia].
      rewrite (drop_S _ _ _ Hc1). cbn [letters]. now rewrite A1.
  - rewrite E1. rewrite (IH str1 str2 (S n1) n2) by first [assumption|lia].
    rewrite (drop_S _ _ _ Hc2). cbn [letters].
    destruct (iswalpha c2); reflexivity.
Qed.

Lemma loop_backward fuel : ∀ str1 str2 (n1 n2 : nat),
  Z.of_nat (length str1) ≤ INT_MAX → Z.of_nat (length str2) ≤ INT_MAX →
  (n1 ≤ length str1)%nat → (n2 ≤ length str2)%nat →
  (n1 + n2 < fuel)%nat →
  loop fuel str1 str2 (Z.of_nat n1 - 1) (Z.of_nat n2 - 1)
    (-1) (-1) (-1)
  = Answer (first_difference (lett (rev (take n1 str1)))
              (lett (rev (take n2 str2)))).
Proof.
  induction fuel as [|fuel IH]; intros str1 str2 n1 n2 Hm1 Hm2 H1 H2 Hf; [lia|].
  cbn [alpha_strcmp_r_loop].
  destruct n1 as [|k1].
  { reflexivity. }
  destruct n2 as [|k2].
  { cbn [Z.of_nat Z.sub Z.add Z.opp Z.eqb Z.compare negb andb take rev letters].
    rewrite andb_false_r. now rewrite first_difference_nil_r. }
  replace (Z.of_nat (S k1) - 1) with (Z.of_nat k1) by lia.
  replace (Z.of_nat (S k2) - 1) with (Z.of_nat k2) by lia.
  rewrite (proj2 (Z.eqb_neq (Z.of_nat k1) (-1))) by lia.
  rewrite (proj2 (Z.eqb_neq (Z.of_nat k2) (-1))) by lia. cbn [negb andb].
  destruct (lookup_lt_is_Some_2 str1 k1 ltac:(lia)) as [c1 Hc1].
  destruct (lookup_lt_is_Some_2 str2 k2 ltac:(lia)) as [c2 Hc2].
  rewrite (wchar_at_lookup _ _ _ Hc1).
  rewrite (take_S_r _ _ _ Hc1), (take_S_r _ _ _ Hc2), !rev_unit. cbn [letters].
  assert (E1 : to_int (Z.of_nat k1 + -1) = Z.of_nat k1 - 1)
    by (rewrite to_int_small; unfold INT_MAX in *; lia).
  assert (E2 : to_int (Z.of_nat k2 + -1) = Z.of_nat k2 - 1)
    by (rewrite to_int_small; unfold INT_MAX in *; lia).
  destruct (iswalpha c1) eqn:A1; cbn [negb].
  - rewrite (wchar_at_lookup _ _ _ Hc2).
    destruct (iswalpha c2) eqn:A2; cbn [negb].
    + cbn [first_difference].
      destruct (towlower c1 >? towlower c2); [reflexivity|].
      destruct (towlower c1 <? towlower c2); [reflexivity|].
      rewrite E1, E2. apply IH; first [assumption|lia].
    + rewrite E2.
      replace (Z.of_nat k1) with (Z.of_nat (S k1) - 1) by lia.
      rewrite (IH str1 str2 (S k1) k2) by first [assumption|lia].
      rewrite (take_S_r _ _ _ Hc1), rev_unit. cbn [letters]. now rewrite A1.
  - rewrite E1.
    replace (Z.of_nat k2) with (Z.of_nat (S k2) - 1) by lia.
    rewrite (IH str1 str2 k1 (S k2)) by first [assumption|lia].
    rewrite (take_S_r _ _ _ Hc2), rev_unit. cbn [letters].
    destruct (iswalpha c2); reflexivity.
Qed.

Lemma alpha_strcmp_r_from_beginning_aux fuel str1 str2 :
  Z.of_nat (length str1) ≤ INT_MAX → Z.of_nat (length str2) ≤ INT_MAX →
  (length str1 + length str2 < fuel)%nat →
  cmp fuel str1 str2 DFROMBGN
  = Answer (first_difference (lett str1) (lett str2)).
Proof.
  intros Hm1 Hm2 Hf. unfold alpha_strcmp_r.
  change (DFROMBGN =? DFROMBGN) with true. cbn iota. unfold DFROMBGN.
  rewrite !to_int_small by lia.
  apply (loop_forward fuel str1 str2 0 0); first [assumption|lia].
Qed.

Lemma alpha_strcmp_r_from_end_aux fuel str1 str2 :
  Z.of_nat (length str1) ≤ INT_MAX → Z.of_nat (length str2) ≤ INT_MAX →
  (length str1 + length str2 < fuel)%nat →
  cmp fuel str1 str2 DFROMEND
  = Answer (first_difference (lett (rev str1)) (lett (rev str2))).
Proof.
  intros Hm1 Hm2 Hf. unfold alpha_strcmp_r.
  change (DFROMEND =? DFROMBGN) with false. cbn iota. unfold DFROMEND.
  rewrite !(to_int_small (Z.of_nat _)) by lia.
  rewrite !to_int_small by (unfold INT_MAX in *; lia).
  rewrite (loop_backward fuel str1 str2 (length str1) (length str2))
    by first [assumption|lia].
  now rewrite !firstn_all.
Qed.

(** From the beginning, [alpha_strcmp_r] answers the sign of the first
    difference between the lowered letters of the two strings, and 0 when
    the letters of one of them run out first. *)
Theorem alpha_strcmp_r_from_beginning fuel str1 str2 :
  Z.of_nat (length str1) ≤ INT_MAX → Z.of_nat (length str2) ≤ INT_MAX →
  (length str1 + length str2 < fuel)%nat →
  cmp fuel str1 str2 DFROMBGN
  = Answer (first_difference (lett str1) (lett str2)).
Proof. apply alpha_strcmp_r_from_beginning_aux. Qed.

(** From the end, it does the same on the strings read backwards. *)
Theorem alpha_strcmp_r_from_end fuel str1 str2 :
  Z.of_nat (length str1) ≤ INT_MAX → Z.of_nat (length str2) ≤ INT_MAX →
  (length str1 + length str2 < fuel)%nat →
  cmp fuel str1 str2 DFROMEND
  = Answer (first_difference (lett (rev str1)) (lett (rev str2))).
Proof. apply alpha_strcmp_r_from_end_aux. Qed.

Lemma first_difference_antisym a : ∀ b,
  first_difference b a = - first_difference a b.
Proof.
  induction a as [|x a IH]; intros [|y b]; cbn [first_difference]; try reflexivity.
  rewrite !Z.gtb_ltb.
  destruct (Z.ltb_spec x y), (Z.ltb_spec y x); try lia; try reflexivity.
  apply IH.
Qed.

(** Swapping the two strings negates the answer, in either direction; in
    particular a string compares equal to itself. *)
Theorem alpha_strcmp_r_antisymmetric fuel str1 str2 dir :
  dir = DFROMBGN ∨ dir = DFROMEND →
  Z.of_nat (length str1) ≤ INT_MAX → Z.of_nat (length str2) ≤ INT_MAX →
  (length str1 + length str2 < fuel)%nat →
  ∃ r, cmp fuel str1 str2 dir = Answer r
       ∧ cmp fuel str2 str1 dir = Answer (- r)
       ∧ (r = -1 ∨ r = 0 ∨ r = 1).
Proof.
  assert (Hsign : ∀ a b, first_difference a b = -1 ∨ first_difference a b = 0
                         ∨ first_difference a b = 1).
  { induction a as [|x a IH]; intros [|y b]; cbn [first_difference]; auto.
    destruct (x >? y); auto. destruct (x <? y); auto. }
  intros [->| ->] Hm1 Hm2 Hf; eexists.
  - rewrite alpha_strcmp_r_from_beginning_aux, alpha_strcmp_r_from_beginning_aux
      by first [assumption|lia].
    split; [reflexivity|]. split; [f_equal; apply first_difference_antisym|apply Hsign].
  - rewrite alpha_strcmp_r_from_end_aux, alpha_strcmp_r_from_end_aux
      by first [assumption|lia].
    split; [reflexivity|]. split; [f_equal; apply first_difference_antisym|apply Hsign].
Qed.

(** A string whose letters are the first letters of the other compares
    equal to it: the answer 0 does not tell that the letters are the same. *)
Theorem alpha_strcmp_r_prefix_compares_equal fuel str1 str2 :
  lett str1 `prefix_of` lett str2 →
  Z.of_nat (length str1) ≤ INT_MAX → Z.of_nat (length str2) ≤ INT_MAX →
  (length str1 + length str2 < fuel)%nat →
  cmp fuel str1 str2 DFROMBGN = Answer 0.
Proof.
  intros [k Hk] Hm1 Hm2 Hf.
  rewrite alpha_strcmp_r_from_beginning_aux by first [assumption|lia].
  f_equal. rewrite Hk. generalize (lett str1). intros a.
  induction a as [|x a IH]; [reflexivity|]. cbn [app first_difference].
  rewrite Z.gtb_ltb, Z.ltb_irrefl. exact IH.
Qed.
End alpha.

(** ** Reading a stream *)

Lemma buffer_written (wbuff : list Z) (i : nat) c :
  (i < length wbuff)%nat →
  take (S i) (<[i := c]> wbuff) = take i wbuff ++ [c].
Proof.
  intros Hi. rewrite (take_S_r _ _ c) by (now apply list_lookup_insert_eq).
  now rewrite take_insert_ge by lia.
Qed.

Lemma fgetnwc_loop_reads rem : ∀ fuel wbuff n (i : nat) c,
  let j := if n =? 0 then length (c :: rem)
           else Nat.min (Z.to_nat n - i) (length (c :: rem)) in
  (i + j ≤ length wbuff)%nat →
  Z.of_nat (i + length (c :: rem)) ≤ INT_MAX →
  (length (c :: rem) < fuel)%nat →
  fgetnwc_loop fuel wbuff n (Z.of_nat i) (Some c) rem
  = Answer (Z.of_nat (i + j),
            take i wbuff ++ take j (c :: rem) ++ drop (i + j) wbuff,
            drop j rem).
Proof.
  induction rem as [|c' rem IH]; intros fuel wbuff n i c j Hcap Hmax Hfuel;
    cbn [length] in *; (destruct fuel as [|fuel]; [lia|]); cbn [fgetnwc_loop];
    unfold INT_MAX in Hmax.
  - destruct (n =? 0) eqn:En; [|destruct (Z.of_nat i <? n) eqn:Ei].
    + assert (j = 1%nat) as -> by reflexivity.
      rewrite (proj2 (Z.leb_le 0 _)), (proj2 (Z.ltb_lt _ _)) by lia.
      cbn [andb fgetwc]. destruct fuel as [|fuel]; [lia|]. cbn [fgetnwc_loop].
      rewrite to_int_small by (unfold INT_MAX; lia). rewrite Nat2Z.id.
      replace (i + 1)%nat with (S i) by lia. cbn [take drop].
      rewrite <- (drop_insert_lt wbuff (S i) i c) by lia.
      rewrite app_assoc, <- (buffer_written wbuff i c) by lia.
      rewrite take_drop. do 3 f_equal. lia.
    + apply Z.ltb_lt in Ei. assert (j = 1%nat) as -> by (subst j; lia).
      rewrite (proj2 (Z.leb_le 0 _)), (proj2 (Z.ltb_lt _ _)) by lia.
      cbn [andb fgetwc]. destruct fuel as [|fuel]; [lia|]. cbn [fgetnwc_loop].
      rewrite to_int_small by (unfold INT_MAX; lia). rewrite Nat2Z.id.
      replace (i + 1)%nat with (S i) by lia. cbn [take drop].
      rewrite <- (drop_insert_lt wbuff (S i) i c) by lia.
      rewrite app_assoc, <- (buffer_written wbuff i c) by lia.
      rewrite take_drop. do 3 f_equal. lia.
    + apply Z.ltb_ge in Ei. assert (j = O) as -> by (subst j; lia).
      rewrite Nat.add_0_r. cbn [take drop app]. now rewrite take_drop.
  - set (j' := if n =? 0 then S (length rem)
               else Nat.min (Z.to_nat n - S i) (S (length rem))).
    assert (Hstep : (if n =? 0 then true else Z.of_nat i <? n) = true →
              j = S j' ∧
              fgetnwc_loop (S fuel) wbuff n (Z.of_nat i) (Some c) (c' :: rem)
              = fgetnwc_loop fuel (<[i := c]> wbuff) n (Z.of_nat (S i)) (Some c') rem).
    { intros Hcond.
      assert (Hj : j = S j').
      { subst j j'. cbn [length]. destruct (n =? 0); [reflexivity|].
        apply Z.ltb_lt in Hcond. lia. }
      split; [exact Hj|]. cbn [fgetnwc_loop]. rewrite Hcond.
      rewrite (proj2 (Z.leb_le 0 _)), (proj2 (Z.ltb_lt _ _)) by lia.
      cbn [andb fgetwc].
      rewrite to_int_small by (unfold INT_MAX; lia). rewrite Nat2Z.id.
      f_equal. lia. }
    destruct (if n =? 0 then true else Z.of_nat i <? n) eqn:Econd.
    + destruct (Hstep eq_refl) as [Hj Hrun]. cbn [fgetnwc_loop] in Hrun.
      rewrite Econd in Hrun. rewrite Hrun. clear Hrun Hstep.
      rewrite IH; fold j'.
      * rewrite Hj. rewrite buffer_written by lia.
        rewrite drop_insert_lt by lia.
        replace (S i + j')%nat with (i + S j')%nat by lia.
        cbn [take drop]. rewrite <- !app_assoc. cbn [app].
        replace (S i + j')%nat with (i + S j')%nat by lia. reflexivity.
      * rewrite length_insert. cbn [length] in *. lia.
      * cbn [length] in *. unfold INT_MAX. lia.
      * cbn [length] in *. lia.
    + assert (j = O) as Hj.
      { subst j. destruct (n =? 0); [discriminate|]. apply Z.ltb_ge in Econd. lia. }
      rewrite Hj, Nat.add_0_r. cbn [take drop app]. now rewrite take_drop.
Qed.

(** [fgetnwc] stores the first characters of the stream at the beginning
    of the buffer: all of them when [n] is 0, [n] of them at most
    otherwise, and it answers their number.  When the limit stops it, the
    stream has lost one character more than was stored. *)
Theorem fgetnwc_stores_prefix fuel wbuff n infile :
  let k := if n =? 0 then length infile
           else Nat.min (Z.to_nat n) (length infile) in
  (k ≤ length wbuff)%nat →
  Z.of_nat (length infile) ≤ INT_MAX →
  (length infile < fuel)%nat →
  fgetnwc fuel wbuff n infile
  = Answer (Z.of_nat k, take k infile ++ drop k wbuff, drop (S k) infile).
Proof.
  intros k Hcap Hmax Hfuel. unfold fgetnwc.
  destruct infile as [|c rem]; cbn [fgetwc].
  - destruct fuel as [|fuel]; [simpl in Hfuel; lia|]. cbn [fgetnwc_loop].
    replace k with O by (subst k; destruct (n =? 0); simpl; lia). reflexivity.
  - pose proof (fgetnwc_loop_reads rem fuel wbuff n O c) as H.
    rewrite Nat.sub_0_r in H. fold k in H.
    change (Z.of_nat 0) with 0 in H. cbn [Nat.add take app] in H.
    rewrite H; [reflexivity|exact Hcap|exact Hmax|exact Hfuel].
Qed.

(** ** The theorems on the scenarios *)

(** A scenario memory holds the tree written down for it. *)
Ltac holds_by_computation :=
  split; [vm_compute; reflexivity|];
  split; [reflexivity|];
  split; [vm_compute; repeat split; reflexivity|];
  split; apply (bool_decide_unpack _); vm_compute; exact I.

(** "dog" added to the trie holding "do". *)
Lemma addword_then_findword_witness :
  ∃ r m' nn,
    wTrie_addword 8 (Some l_root) w_dog m_do = Ret (Some r) m'
    ∧ wTrie_findword 8 (Some l_root) w_dog m' = Ret (Some r) m'
    ∧ nodes m' !! r = Some nn ∧ term nn = true ∧ last w_dog = Some (wc nn).
Proof.
  apply (addword_then_findword 8 m_do l_root root_do chain_do w_dog).
  - holds_by_computation.
  - discriminate.
  - simpl. lia.
Defined.

(** "do" added to the trie holding "b" and "ac": "ac" is found as before. *)
Lemma addword_keeps_other_words_witness :
  ∃ r0 m' m2,
    wTrie_addword 8 (Some l_root) w_do m_b_ac = Ret (Some r0) m'
    ∧ wTrie_findword 8 (Some l_root) w_ac m' = Ret (Some l_3) m2.
Proof.
  apply (addword_keeps_other_words 8 m_b_ac l_root root_b_ac chain_b_ac
           w_do w_ac (Some l_3) m_b_ac).
  - holds_by_computation.
  - discriminate.
  - simpl. lia.
  - intros [k Hk]. discriminate Hk.
  - vm_compute. reflexivity.
Defined.

(** "do" looked up in the trie holding "do". *)
Lemma findword_only_reads_witness :
  ∃ n, nodes m_do !! l_2 = Some n ∧ term n = true ∧ last w_do = Some (wc n).
Proof.
  destruct (findword_only_reads 8 (Some l_root) w_do m_do (Some l_2) m_do)
    as [_ [_ H]]; [vm_compute; reflexivity|exact H].
Defined.

(** "a" removed from the trie holding "do". *)
Lemma rmword_of_missing_word_witness :
  wTrie_rmword 8 (Some l_root) w_a m_do
  = Ret false (with_errno E_WTRIE_NOSUCHWORD m_do).
Proof.
  apply (rmword_of_missing_word 8 (Some l_root) w_a m_do
           (with_errno I_WTRIE_NOSUCHWORD m_do)).
  vm_compute. reflexivity.
Defined.

(** "do" removed from the trie holding "dog" and "do". *)
Lemma rmword_shared_word_unsets_flag_witness :
  wTrie_rmword 8 (Some l_root) w_do m_dog_do
  = Ret true
      (with_nodes
         (<[l_2 := mk_wTrie ch_o None (Some l_3) false None]> (nodes m_dog_do))
         m_dog_do).
Proof.
  apply (rmword_shared_word_unsets_flag 8 m_dog_do l_root root_do chain_dog_do
           w_do l_2 (mk_wTrie ch_o None (Some l_3) true None)).
  - holds_by_computation.
  - simpl. lia.
  - vm_compute. reflexivity.
  - vm_compute. reflexivity.
  - discriminate.
Defined.

(** After that removal "do" is not found and "dog" still is. *)
Lemma rmword_shared_word_afterwards_witness :
  let m' :=
    with_nodes
      (<[l_2 := mk_wTrie ch_o None (Some l_3) false None]> (nodes m_dog_do))
      m_dog_do in
  wTrie_findword 8 (Some l_root) w_do m' = Ret None (with_errno I_WTRIE_NOSUCHWORD m')
  ∧ ∃ m2, wTrie_findword 8 (Some l_root) w_dog m' = Ret (Some l_3) m2.
Proof.
  destruct (rmword_shared_word_afterwards 8 m_dog_do l_root root_do chain_dog_do
              w_do l_2 (mk_wTrie ch_o None (Some l_3) true None))
    as (Hfind & _ & Hothers).
  - holds_by_computation.
  - simpl. lia.
  - vm_compute. reflexivity.
  - vm_compute. reflexivity.
  - split; [exact Hfind|].
    apply (Hothers w_dog (Some l_3) m_dog_do); [discriminate|].
    vm_compute. reflexivity.
Defined.

(** The leaf of "do" in the trie holding "dog" and "do". *)
Lemma leaf_absent_when_endnode_has_children_witness :
  wTrie_leaf 8 (Some l_root) w_do (Some None) m_dog_do
  = Ret (None, Some None) m_dog_do.
Proof.
  apply (leaf_absent_when_endnode_has_children 8 m_dog_do l_root root_do
           chain_dog_do w_do l_2 (mk_wTrie ch_o None (Some l_3) true None)
           (Some None)).
  - holds_by_computation.
  - simpl. lia.
  - vm_compute. reflexivity.
  - vm_compute. reflexivity.
  - discriminate.
Defined.

(** The third child, 'c', looked up under the root of the trie holding
    "c", "b" and "a": the 'b' node is stored as its previous sibling. *)
Lemma child_lsibling_reported_witness :
  wTrie_child 8 (Some l_root) ch_c (Some None) m_c_b_a
  = Ret (Some l_1, Some (Some l_2)) m_c_b_a.
Proof.
  apply (child_lsibling_reported 8 m_c_b_a l_root
           (mk_wTrie 0 None (Some l_3) false None) chain_c_b_a ch_c None 2 l_1).
  - vm_compute. reflexivity.
  - reflexivity.
  - vm_compute. repeat split; reflexivity.
  - simpl. lia.
  - reflexivity.
  - intros [|[|j]] l' c' Hj; [| |lia]; intros [= _ <-]; discriminate.
Defined.

(** "do" looked up with its relatives in the trie holding "do". *)
Lemma findword_rel_reports_witness :
  ∃ written,
    wTrie_findword_rel 8 (Some l_root) w_do (Some None) (Some None) m_do
    = Ret (Some l_2, Some (Some l_1), written) m_do.
Proof.
  apply (findword_rel_reports 8 m_do l_root root_do chain_do w_do l_2
           (Some None) (Some None)).
  - holds_by_computation.
  - simpl. lia.
  - vm_compute. reflexivity.
Defined.

(** 'a' spawned with a payload under the root of the trie holding "do". *)
Lemma spawn_absent_pushes_head_witness :
  ∃ m',
    wTrie_spawn 8 true (Some l_root) ch_a true None 4 m_do = Ret (Some 4%positive) m'
    ∧ nodes m' !! 4%positive = Some (mk_wTrie ch_a (Some l_1) None true (Some 5%positive))
    ∧ blobs m' !! 5%positive = Some 4%N
    ∧ children_of (nodes m') l_root [4%positive; l_1].
Proof.
  destruct (spawn_absent_pushes_head 8 m_do l_root root_do ch_a None m_do
              true true None 4)
    as (m' & Hrun & Hnodes & Hblob & Hch).
  - vm_compute. reflexivity.
  - vm_compute. reflexivity.
  - vm_compute. reflexivity.
  - exists m'. split; [exact Hrun|]. split; [rewrite Hnodes; vm_compute; reflexivity|].
    split; [exact Hblob|]. apply (Hch [l_1]).
    exists root_do. split; [vm_compute; reflexivity|].
    eapply sibling_list_cons; [vm_compute; reflexivity|]. apply sibling_list_nil.
Defined.

(** A node fresh from [calloc], initialised with a payload of 4 bytes. *)
Lemma init_initialises_witness :
  ∃ m',
    wTrie_init (Some l_root) ch_a true None 4 (mem_after calloc_node) = Ret true m'
    ∧ nodes m' !! l_root = Some (mk_wTrie ch_a None None true (Some 2%positive))
    ∧ blobs m' !! 2%positive = Some 4%N.
Proof.
  eexists. split.
  - apply (init_initialises l_root (mk_wTrie 0 None None false None)).
    vm_compute. reflexivity.
  - split; vm_compute; reflexivity.
Defined.

(** The head child of the root with two children carrying a payload each,
    purged: both buffers are released. *)
Lemma purge_releases_payloads_witness :
  ∃ m',
    wTrie_purge 8 (Some l_3) m_two_payloads = Ret () m'
    ∧ blobs m_two_payloads !! 3%positive = Some 4%N
    ∧ blobs m_two_payloads !! 5%positive = Some 4%N
    ∧ blobs m' !! 3%positive = None ∧ blobs m' !! 5%positive = None
    ∧ size (blobs m_two_payloads) = 2%nat ∧ size (blobs m') = O.
Proof.
  destruct (purge_releases_payloads 8 m_two_payloads l_3 ch_b false (Some 5%positive)
              (SCell l_1 ch_a false (Some 3%positive) SNil SNil) SNil)
    as (m' & Hrun & Hblobs & Hsize & _).
  - vm_compute. repeat split; reflexivity.
  - apply (bool_decide_unpack _). vm_compute. exact I.
  - apply (bool_decide_unpack _). vm_compute. exact I.
  - intros b Hb. cbn in Hb. rewrite !elem_of_cons in Hb.
    destruct Hb as [->|[->|Hb]]; [| |exfalso; exact (proj1 (elem_of_nil b) Hb)];
      exists 4%N; vm_compute; reflexivity.
  - simpl. lia.
  - exists m'. split; [exact Hrun|].
    split; [vm_compute; reflexivity|]. split; [vm_compute; reflexivity|].
    split; [rewrite (Hblobs 3%positive); reflexivity|].
    split; [rewrite (Hblobs 5%positive); reflexivity|].
    assert (Hs : size (blobs m_two_payloads) = 2%nat) by (vm_compute; reflexivity).
    split; [exact Hs|]. rewrite Hs in Hsize. cbn [metas app length] in Hsize. lia.
Defined.

(** The teardown of the trie holding "do". *)
Lemma purge_built_trie_releases_all_witness :
  ∃ enough, ∀ fuel, (enough ≤ fuel)%nat →
    ∃ m',
      wTrie_purge fuel (Some l_root) m_do = Ret () m'
      ∧ nodes m' = ∅ ∧ blobs m' = ∅
      ∧ NoDup (freed m')
      ∧ ∀ x, x ∈ freed m' ↔ is_Some (nodes m_do !! x).
Proof.
  apply (purge_built_trie_releases_all m_do).
  apply (built_addword (mem_after new_root) w_do (Some l_2) m_do).
  - apply built_root. vm_compute. reflexivity.
  - exists 3%nat. intros [|[|[|fuel]]] Hle; [lia..|]. vm_compute. reflexivity.
Defined.

(** The trie holding "do" is a tree. *)
Lemma built_holds_witness : ∃ rn chain, holds m_do l_root rn chain.
Proof.
  apply (built_holds m_do).
  apply (built_addword (mem_after new_root) w_do (Some l_2) m_do).
  - apply built_root. vm_compute. reflexivity.
  - exists 3%nat. intros [|[|[|fuel]]] Hle; [lia..|]. vm_compute. reflexivity.
Defined.

(** The check on the 'a' node of the trie holding "b" and "ac". *)
Lemma rOK_passes_on_tree_witness :
  wTrie_rOK 8 (Some l_2) m_b_ac = Ret true m_b_ac.
Proof.
  apply (rOK_passes_on_tree 8 m_b_ac l_2 ch_a false None
           (SCell l_1 ch_b true None SNil SNil)
           (SCell l_3 ch_c true None SNil SNil)).
  - vm_compute. repeat split; reflexivity.
  - simpl. lia.
Defined.

(** The root of the trie holding "b" and "ac" has two children. *)
Lemma hasmultichild_counts_witness :
  wTrie_hasmultichild (Some l_root) m_b_ac = Ret true m_b_ac.
Proof.
  apply (hasmultichild_counts m_b_ac l_root [l_2; l_1]).
  exists root_b_ac. split; [vm_compute; reflexivity|].
  eapply sibling_list_cons; [vm_compute; reflexivity|].
  eapply sibling_list_cons; [vm_compute; reflexivity|]. apply sibling_list_nil.
Defined.

(** 'a' collapsed under the root of the trie holding "b" and "ac": the
    'b' node becomes the first child, the 'a' and 'c' nodes are released. *)
Lemma collapse_first_child_with_sibling_witness :
  ∃ m',
    wTrie_collapse 8 (Some l_root) ch_a m_b_ac = Ret true m'
    ∧ nodes m' !! l_root = Some (mk_wTrie 0 None (Some l_1) false None)
    ∧ freed m' = [l_2; l_3]
    ∧ nodes m' !! l_2 = None ∧ nodes m' !! l_3 = None
    ∧ nodes m' !! l_1 = nodes m_b_ac !! l_1.
Proof.
  destruct (collapse_first_child_with_sibling 8 m_b_ac l_root root_b_ac
              l_2 ch_a false None
              (SCell l_1 ch_b true None SNil SNil)
              (SCell l_3 ch_c true None SNil SNil))
    as (m' & Hrun & Hp & _ & Hfreed & Hgone & Hkept).
  - vm_compute. reflexivity.
  - reflexivity.
  - vm_compute. repeat split; reflexivity.
  - discriminate.
  - apply (bool_decide_unpack _). vm_compute. exact I.
  - simpl. lia.
  - exists m'. split; [exact Hrun|]. split; [exact Hp|]. split; [exact Hfreed|].
    split; [apply Hgone; apply (bool_decide_unpack _); vm_compute; exact I|].
    split; [apply Hgone; apply (bool_decide_unpack _); vm_compute; exact I|].
    apply Hkept; [discriminate|].
    apply (bool_decide_unpack _); vm_compute; exact I.
Defined.

(** "Do,g" against "dot", from the beginning: 'g' is less than 't'. *)
Lemma alpha_strcmp_r_from_beginning_witness :
  alpha_strcmp_r ascii_isalpha ascii_tolower 8 s_Dog s_dot DFROMBGN = Answer (-1).
Proof.
  apply (alpha_strcmp_r_from_beginning ascii_isalpha ascii_tolower 8 s_Dog s_dot).
  - vm_compute. discriminate.
  - vm_compute. discriminate.
  - simpl. lia.
Defined.

(** "dot" against "do", from the end: 't' is greater than 'o'. *)
Lemma alpha_strcmp_r_from_end_witness :
  alpha_strcmp_r ascii_isalpha ascii_tolower 8 s_dot s_do DFROMEND = Answer 1.
Proof.
  apply (alpha_strcmp_r_from_end ascii_isalpha ascii_tolower 8 s_dot s_do).
  - vm_compute. discriminate.
  - vm_compute. discriminate.
  - simpl. lia.
Defined.

(** "Do,g" and "dot", swapped. *)
Lemma alpha_strcmp_r_antisymmetric_witness :
  ∃ r,
    alpha_strcmp_r ascii_isalpha ascii_tolower 8 s_Dog s_dot DFROMBGN = Answer r
    ∧ alpha_strcmp_r ascii_isalpha ascii_tolower 8 s_dot s_Dog DFROMBGN = Answer (- r)
    ∧ (r = -1 ∨ r = 0 ∨ r = 1).
Proof.
  apply (alpha_strcmp_r_antisymmetric ascii_isalpha ascii_tolower 8 s_Dog s_dot
           DFROMBGN).
  - left. reflexivity.
  - vm_compute. discriminate.
  - vm_compute. discriminate.
  - simpl. lia.
Defined.

(** "do" against "Do,g": equal, though the letters are not the same. *)
Lemma alpha_strcmp_r_prefix_compares_equal_witness :
  alpha_strcmp_r ascii_isalpha ascii_tolower 8 s_do s_Dog DFROMBGN = Answer 0.
Proof.
  apply (alpha_strcmp_r_prefix_compares_equal ascii_isalpha ascii_tolower 8
           s_do s_Dog).
  - exists [103]. reflexivity.
  - vm_compute. discriminate.
  - vm_compute. discriminate.
  - simpl. lia.
Defined.

(** 'c', the third of four children, collapsed: the 'b' node is linked to
    the 'd' node. *)
Lemma collapse_later_child_with_sibling_witness :
  ∃ m',
    wTrie_collapse 8 (Some l_root) ch_c m_d_c_b_a = Ret true m'
    ∧ nodes m' !! l_3 = Some (mk_wTrie ch_b (Some l_1) None true None)
    ∧ freed m' = [l_2]
    ∧ nodes m' !! l_2 = None
    ∧ nodes m' !! l_4 = nodes m_d_c_b_a !! l_4.
Proof.
  destruct (collapse_later_child_with_sibling 8 m_d_c_b_a l_root root_d_c_b_a
              chain_d_c_b_a 1 l_3 ch_b true None SNil l_2 ch_c true None
              (SCell l_1 ch_d true None SNil SNil) SNil)
    as (m' & Hrun & Hprev & _ & Hfreed & Hgone & Hkept).
  - holds_by_computation.
  - simpl. lia.
  - lia.
  - reflexivity.
  - intros [|[|j]] l' c' Hj; [| |lia]; intros [= _ <-]; discriminate.
  - discriminate.
  - exists m'. split; [exact Hrun|]. split; [exact Hprev|]. split; [exact Hfreed|].
    split; [apply Hgone; apply (bool_decide_unpack _); vm_compute; exact I|].
    apply Hkept; [discriminate|].
    apply (bool_decide_unpack _); vm_compute; exact I.
Defined.

(** 'b', the second of three children, collapsed: the root's first child
    becomes the 'c' node, and the 'a' node is left behind. *)
Lemma collapse_second_child_drops_first_witness :
  ∃ m',
    wTrie_collapse 8 (Some l_root) ch_b m_c_b_a = Ret true m'
    ∧ nodes m' !! l_root = Some (mk_wTrie 0 None (Some l_1) false None)
    ∧ nodes m' !! l_3 = Some (mk_wTrie ch_a (Some l_2) None true None)
    ∧ nodes m' !! l_2 = None
    ∧ freed m' = [l_2].
Proof.
  destruct (collapse_second_child_drops_first 8 m_c_b_a l_root root_c_b_a
              l_3 ch_a true None SNil l_2 ch_b true None
              (SCell l_1 ch_c true None SNil SNil) SNil)
    as (m' & Hrun & Hp & _ & Hfirst & Hgone & Hfreed & _).
  - holds_by_computation.
  - simpl. lia.
  - discriminate.
  - discriminate.
  - exists m'. repeat split; assumption.
Defined.

(** 'a' collapsed under the root of the trie holding "do". *)
Lemma collapse_absent_symbol_witness :
  wTrie_collapse 8 (Some l_root) ch_a m_do
  = Ret false (with_errno E_WTRIE_NOSUCHNODE m_do).
Proof.
  apply (collapse_absent_symbol 8 m_do l_root root_do chain_do ch_a).
  - holds_by_computation.
  - simpl. lia.
  - reflexivity.
Defined.

(** The leaf of "dog" in the trie holding "dog" and "do" is the 'd' node. *)
Lemma leaf_of_unbranched_word_witness :
  wTrie_leaf 8 (Some l_root) w_dog (Some None) m_dog_do
  = Ret (Some l_1, Some (Some l_root)) m_dog_do.
Proof.
  apply (leaf_of_unbranched_word 8 m_dog_do l_root root_do chain_dog_do w_dog
           l_3 (mk_wTrie ch_g None None true None) (Some None)).
  - holds_by_computation.
  - simpl. lia.
  - vm_compute. reflexivity.
  - vm_compute. reflexivity.
  - reflexivity.
  - reflexivity.
Defined.

(** "dog" removed from the trie holding "dog" and "do": the three nodes
    are released, "do" with them, and the root keeps the released 'd'
    node as its child. *)
Lemma rmword_unbranched_word_releases_path_witness :
  ∃ m',
    wTrie_rmword 8 (Some l_root) w_dog m_dog_do = Ret true m'
    ∧ freed m' = [l_1; l_2; l_3]
    ∧ nodes m' !! l_1 = None ∧ nodes m' !! l_2 = None ∧ nodes m' !! l_3 = None
    ∧ nodes m' !! l_root = Some root_do.
Proof.
  destruct (rmword_unbranched_word_releases_path 8 m_dog_do l_root root_do
              chain_dog_do w_dog l_3 (mk_wTrie ch_g None None true None)
              l_1 ch_d false None SNil
              (SCell l_2 ch_o true None SNil (SCell l_3 ch_g true None SNil SNil)))
    as (m' & Hrun & Hfreed & _ & _ & Hnodes).
  - holds_by_computation.
  - simpl. lia.
  - vm_compute. reflexivity.
  - vm_compute. reflexivity.
  - reflexivity.
  - reflexivity.
  - reflexivity.
  - exists m'. split; [exact Hrun|]. split; [exact Hfreed|].
    rewrite !Hnodes. repeat split.
Defined.

(** Two characters asked of the stream "Do,g", into a buffer of three
    cells: 'D' and 'o' are stored, and the stream is left at 'g'. *)
Lemma fgetnwc_stores_prefix_witness :
  fgetnwc 8 [0; 0; 0] 2 s_Dog = Answer (2, [68; 111; 0], [103]).
Proof.
  apply (fgetnwc_stores_prefix 8 [0; 0; 0] 2 s_Dog).
  - simpl. lia.
  - vm_compute. discriminate.
  - simpl. lia.
Defined.
